(** * DoubleKeyTable: a two-level linear-probing hash table

    Shallow embedding of [src/double_key_table.py].  The top-level table is
    an array of optional [(first_key, nested_table)] entries addressed by
    linear probing; every nested table maps second keys to values.

    Python objects are modelled by values: a nested table is referenced from
    exactly one slot of exactly one array, so in-place mutation of the object
    stored in a slot is the replacement of that slot's content. *)

From Stdlib Require Import ZArith Lia List String Ascii Bool.
From stdpp Require Import prelude strings.

Open Scope Z_scope.

(** ** Exceptions and results *)

Inductive exn : Set :=
  | KeyError
  | FullError
  | ZeroDivisionError
  | AttributeError
  | TypeError
  | IndexError.

Inductive result (A : Type) : Type :=
  | Ok (a : A)
  | Raise (e : exn).

Arguments Ok {A} a.
Arguments Raise {A} e.

Definition rbind {A B : Type} (r : result A) (k : A -> result B) : result B :=
  match r with
  | Ok a => k a
  | Raise e => Raise e
  end.

Notation "x <- c1 ;; c2" := (rbind c1 (fun x => c2))
  (at level 100, c1 at next level, right associativity).

(** ** The polynomial rolling hash *)

Definition HASH_BASE : Z := 31.

(** [ord(char)].  Keys are strings of 8-bit characters; the bounds proved
    below do not depend on the character codes. *)
Definition ord (c : ascii) : Z := Z.of_nat (nat_of_ascii c).

(** Python's [a % b]: floored remainder, [ZeroDivisionError] when [b = 0]. *)
Definition py_mod (a b : Z) : result Z :=
  if b =? 0 then Raise ZeroDivisionError else Ok (a mod b).

(** The body of [hash1] and [hash2]: [for char in key] with the two running
    variables [value] and [a]. *)
Fixpoint hash_loop (table_size : Z) (key : string) (value a : Z) : result Z :=
  match key with
  | EmptyString => Ok value
  | String char rest =>
      value' <- py_mod (ord char + a * value) table_size ;;
      a' <- py_mod (a * HASH_BASE) (table_size - 1) ;;
      hash_loop table_size rest value' a'
  end.

(** The hash of a key for a table of the given capacity. *)
Definition hash_str (table_size : Z) (key : string) : result Z :=
  hash_loop table_size key 0 31417.

(** Modelled from the spec: the class [ArrayR] of
    [data_structures/referential_array.py] is imported by the source but is
    not part of it.  [ArrayR(n)] is a fresh array of [n] empty cells, indexed
    from 0 to [n - 1]. *)
Definition ArrayR {A : Type} (n : Z) : list (option A) :=
  replicate (Z.to_nat n) None.

Section Table.

Context {V : Type}.

(** ** The nested single-key table *)

(** Modelled from the spec: the class [LinearProbeTable] of
    [data_structures/hash_table.py] is imported by the source but is not part
    of it.  The model is the single-key probing table of sections 2 and 6 of
    the specification: a fixed-capacity array of optional [(key, value)]
    entries addressed by linear probing, with a capacity schedule of its
    own and a cursor into it.  The source reads its attributes [array] and
    [table_size] and calls [_linear_probe], [is_empty], [keys], [values],
    [table[key] = value] and [del table[key]]. *)
Record LinearProbeTable : Type := mkLPT {
  lpt_sizes : list Z;
  lpt_size_index : nat;
  lpt_array : list (option (string * V))
}.

(** Modelled from the spec: [LinearProbeTable(sizes)], an empty table at the
    first capacity of its schedule, built as the two-level table builds its
    own array. *)
Definition lpt_new (sizes : list Z) : result LinearProbeTable :=
  match sizes !! O with
  | None => Raise IndexError
  | Some n =>
      Ok {| lpt_sizes := sizes; lpt_size_index := O; lpt_array := ArrayR n |}
  end.

(** Modelled from the spec: [table_size], the capacity. *)
Definition lpt_table_size (t : LinearProbeTable) : Z :=
  Z.of_nat (length (lpt_array t)).

(** [hash2(key, sub_table)]. *)
Definition hash2 (key : string) (sub_table : LinearProbeTable) : result Z :=
  hash_str (lpt_table_size sub_table) key.

(** Modelled from the spec: the entries in the native order of the table,
    the order of their cells. *)
Definition lpt_items (t : LinearProbeTable) : list (string * V) :=
  omap id (lpt_array t).

(** Modelled from the spec: the number of stored keys. *)
Definition lpt_len (t : LinearProbeTable) : Z :=
  Z.of_nat (length (lpt_items t)).

(** Modelled from the spec: [is_empty()]. *)
Definition lpt_is_empty (t : LinearProbeTable) : bool :=
  match lpt_items t with
  | [] => true
  | _ => false
  end.

(** Modelled from the spec: [keys()] and [values()], in the native order. *)
Definition lpt_keys (t : LinearProbeTable) : list string := (lpt_items t).*1.

Definition lpt_values (t : LinearProbeTable) : list V := (lpt_items t).*2.

(** Modelled from the spec: [array[position]] on the array of a nested
    table; an index outside [0 .. capacity - 1] raises. *)
Definition lpt_cell (arr : list (option (string * V))) (position : Z)
    : result (option (string * V)) :=
  if position <? 0 then Raise IndexError
  else match arr !! Z.to_nat position with
       | Some cell => Ok cell
       | None => Raise IndexError
       end.

(** Modelled from the spec: the scan of the nested [_linear_probe], the
    procedure of section 4.1 one level down: at most [capacity] cells from
    the hash position on, first fit for an insertion, exact match for a
    lookup. *)
Fixpoint lpt_probe_loop (fuel : nat) (key : string) (is_insert : bool)
    (arr : list (option (string * V))) (position : Z) : result Z :=
  match fuel with
  | O => Raise (if is_insert then FullError else KeyError)
  | S fuel' =>
      cell <- lpt_cell arr position ;;
      match cell with
      | None => if is_insert then Ok position else Raise KeyError
      | Some (k, _) =>
          if String.eqb k key then Ok position
          else lpt_probe_loop fuel' key is_insert arr
                 ((position + 1) mod Z.of_nat (length arr))
      end
  end.

(** Modelled from the spec: [_linear_probe(key, is_insert)] of the nested
    table.  Its hash is the function that [_linear_probe] of the two-level
    table installs when it creates the nested table,
    [hash_table.hash = lambda x: self.hash2(x, hash_table)]: [hash2] at the
    capacity the nested table has when it is probed. *)
Definition lpt_linear_probe (key : string) (is_insert : bool)
    (t : LinearProbeTable) : result Z :=
  position <- hash2 key t ;;
  lpt_probe_loop (length (lpt_array t)) key is_insert (lpt_array t) position.

(** [array[position] = cell] on the array of a nested table. *)
Definition lpt_store (position : Z) (cell : option (string * V))
    (t : LinearProbeTable) : LinearProbeTable :=
  {| lpt_sizes := lpt_sizes t; lpt_size_index := lpt_size_index t;
     lpt_array := <[Z.to_nat position := cell]> (lpt_array t) |}.

(** Modelled from the spec: the re-seating loop of the growth of a nested
    table, the loop of section 4.4 one level down. *)
Fixpoint lpt_rehash_loop (old_array : list (option (string * V)))
    (t : LinearProbeTable) : result LinearProbeTable :=
  match old_array with
  | [] => Ok t
  | None :: rest => lpt_rehash_loop rest t
  | Some (key, value) :: rest =>
      position <- lpt_linear_probe key true t ;;
      lpt_rehash_loop rest (lpt_store position (Some (key, value)) t)
  end.

(** Modelled from the spec: the growth of a nested table along its own
    schedule: a new array at the next capacity into which every entry is
    re-seated by an insert probe; nothing happens when the schedule has no
    next capacity. *)
Definition lpt_rehash (t : LinearProbeTable) : result LinearProbeTable :=
  match lpt_sizes t !! S (lpt_size_index t) with
  | None => Ok t
  | Some n =>
      lpt_rehash_loop (lpt_array t)
        {| lpt_sizes := lpt_sizes t; lpt_size_index := S (lpt_size_index t);
           lpt_array := ArrayR n |}
  end.

(** Modelled from the spec: [set(key, value)] inserts or overwrites; after
    the number of keys has changed the table grows when it exceeds half the
    capacity (section 4.2 one level down).  A [set] that raises leaves the
    table as it was. *)
Definition lpt_setitem (key : string) (data : V) (t : LinearProbeTable)
    : result LinearProbeTable :=
  position <- lpt_linear_probe key true t ;;
  cell <- lpt_cell (lpt_array t) position ;;
  let t' := lpt_store position (Some (key, data)) t in
  match cell with
  | Some _ => Ok t'
  | None => if 2 * lpt_len t' >? lpt_table_size t' then lpt_rehash t' else Ok t'
  end.

(** Modelled from the spec: the cluster repair of [delete], the walk of
    section 4.3 step 2 one level down; [None] when the given number of
    iterations does not reach an empty cell. *)
Fixpoint lpt_repair_loop (fuel : nat) (position : Z) (t : LinearProbeTable)
    : option (result LinearProbeTable) :=
  match lpt_cell (lpt_array t) position with
  | Raise e => Some (Raise e)
  | Ok None => Some (Ok t)
  | Ok (Some (k, v)) =>
      match fuel with
      | O => None
      | S fuel' =>
          let t1 := lpt_store position None t in
          match lpt_linear_probe k true t1 with
          | Raise e => Some (Raise e)
          | Ok newpos =>
              lpt_repair_loop fuel' ((position + 1) mod lpt_table_size t)
                (lpt_store newpos (Some (k, v)) t1)
          end
      end
  end.

(** Modelled from the spec: [delete(key)]: [KeyError] when the key is
    absent, otherwise the cell is cleared and the cluster behind it
    repaired. *)
Definition lpt_delitem (fuel : nat) (key : string) (t : LinearProbeTable)
    : option (result LinearProbeTable) :=
  match lpt_linear_probe key false t with
  | Raise e => Some (Raise e)
  | Ok position =>
      lpt_repair_loop fuel ((position + 1) mod lpt_table_size t)
        (lpt_store position None t)
  end.

(** ** The two-level table *)

Local Abbreviation entry := (string * LinearProbeTable)%type.

Record DoubleKeyTable : Type := mkDKT {
  TABLE_SIZES : list Z;
  internal_sizes : list Z;
  size_index : nat;
  array : list (option entry);
  count : Z
}.

Definition DEFAULT_TABLE_SIZES : list Z :=
  [5; 13; 29; 53; 97; 193; 389; 769; 1543; 3079; 6151; 12289; 24593; 49157;
   98317; 196613; 393241; 786433; 1572869].

(** [__init__(sizes, internal_sizes)]. *)
Definition init (sizes internal : option (list Z)) : result DoubleKeyTable :=
  let table_sizes := default DEFAULT_TABLE_SIZES sizes in
  let internal := default table_sizes internal in
  match table_sizes !! O with
  | None => Raise IndexError
  | Some n =>
      Ok {| TABLE_SIZES := table_sizes; internal_sizes := internal;
            size_index := O; array := ArrayR n; count := 0 |}
  end.

Definition table_size (t : DoubleKeyTable) : Z := Z.of_nat (length (array t)).

Definition len (t : DoubleKeyTable) : Z := count t.

Definition hash1 (t : DoubleKeyTable) (key : string) : result Z :=
  hash_str (table_size t) key.

Definition set_array (arr : list (option entry)) (t : DoubleKeyTable) : DoubleKeyTable :=
  {| TABLE_SIZES := TABLE_SIZES t; internal_sizes := internal_sizes t;
     size_index := size_index t; array := arr; count := count t |}.

Definition set_count (c : Z) (t : DoubleKeyTable) : DoubleKeyTable :=
  {| TABLE_SIZES := TABLE_SIZES t; internal_sizes := internal_sizes t;
     size_index := size_index t; array := array t; count := c |}.

Definition set_size_index (i : nat) (t : DoubleKeyTable) : DoubleKeyTable :=
  {| TABLE_SIZES := TABLE_SIZES t; internal_sizes := internal_sizes t;
     size_index := i; array := array t; count := count t |}.

(** *** Methods as state transformers that may raise *)

Definition M (A : Type) : Type := DoubleKeyTable -> DoubleKeyTable * result A.

Definition ret {A : Type} (a : A) : M A := fun t => (t, Ok a).

Definition raise {A : Type} (e : exn) : M A := fun t => (t, Raise e).

Definition bind {A B : Type} (m : M A) (k : A -> M B) : M B :=
  fun t =>
    match m t with
    | (t', Ok a) => k a t'
    | (t', Raise e) => (t', Raise e)
    end.

Notation "x <~ c1 ;; c2" := (bind c1 (fun x => c2))
  (at level 100, c1 at next level, right associativity).

Definition gets {A : Type} (f : DoubleKeyTable -> A) : M A := fun t => (t, Ok (f t)).

Definition modify (f : DoubleKeyTable -> DoubleKeyTable) : M unit := fun t => (f t, Ok tt).

Definition lift {A : Type} (f : DoubleKeyTable -> result A) : M A := fun t => (t, f t).

(** Modelled from the spec: [self.array[position]] on the slot array; an
    index outside [0 .. capacity - 1] raises. *)
Definition array_getitem (position : Z) : M (option entry) :=
  fun t =>
    if position <? 0 then (t, Raise IndexError)
    else match array t !! Z.to_nat position with
         | Some cell => (t, Ok cell)
         | None => (t, Raise IndexError)
         end.

(** Modelled from the spec: [self.array[position] = cell] on the slot
    array. *)
Definition array_setitem (position : Z) (cell : option entry) : M unit :=
  fun t =>
    if position <? 0 then (t, Raise IndexError)
    else if (Z.to_nat position <? length (array t))%nat
         then (set_array (<[Z.to_nat position := cell]> (array t)) t, Ok tt)
         else (t, Raise IndexError).

(** What [_linear_probe] returns: one position, or the pair of positions. *)
Inductive probe_pos : Set :=
  | Top (dkt_position : Z)
  | Both (dkt_position lpt_position : Z).

(** The [for _ in range(self.table_size)] loop of [_linear_probe].  The
    hash that the loop installs on a nested table it creates is the one
    [lpt_linear_probe] calls. *)
Fixpoint probe_loop (fuel : nat) (key1 : string) (key2 : option string)
    (is_insert : bool) (dkt_position : Z) : M probe_pos :=
  match fuel with
  | O => raise (if is_insert then FullError else KeyError)
  | S fuel' =>
      cell <~ array_getitem dkt_position ;;
      match cell with
      | None =>
          if negb is_insert then raise KeyError
          else match key2 with
               | None => ret (Top dkt_position)
               | Some k2 =>
                   sizes <~ gets internal_sizes ;;
                   hash_table <~ lift (fun _ => lpt_new sizes) ;;
                   _ <~ array_setitem dkt_position (Some (key1, hash_table)) ;;
                   lpt_position <~ lift (fun _ => lpt_linear_probe k2 is_insert hash_table) ;;
                   ret (Both dkt_position lpt_position)
               end
      | Some (k, hash_table) =>
          if String.eqb k key1 then
            match key2 with
            | None => ret (Top dkt_position)
            | Some k2 =>
                lpt_position <~ lift (fun _ => lpt_linear_probe k2 is_insert hash_table) ;;
                ret (Both dkt_position lpt_position)
            end
          else
            size <~ gets table_size ;;
            probe_loop fuel' key1 key2 is_insert ((dkt_position + 1) mod size)
      end
  end.

(** [_linear_probe(key1, key2, is_insert)]. *)
Definition linear_probe (key1 : string) (key2 : option string) (is_insert : bool)
    : M probe_pos :=
  dkt_position <~ lift (fun t => hash1 t key1) ;;
  size <~ gets table_size ;;
  probe_loop (Z.to_nat size) key1 key2 is_insert dkt_position.

(** The probe with no second key, as the callers that index the array with
    its result use it. *)
Definition linear_probe_top (key1 : string) (is_insert : bool) : M Z :=
  pos <~ linear_probe key1 None is_insert ;;
  match pos with
  | Top p => ret p
  | Both _ _ => raise TypeError
  end.

(** The probe with a second key, unpacked into its two positions. *)
Definition linear_probe_both (key1 key2 : string) (is_insert : bool) : M (Z * Z) :=
  pos <~ linear_probe key1 (Some key2) is_insert ;;
  match pos with
  | Both p q => ret (p, q)
  | Top _ => raise TypeError
  end.

(** [self.array[position]] where the code goes on to subscript the cell. *)
Definition array_entry (position : Z) : M entry :=
  cell <~ array_getitem position ;;
  match cell with
  | Some e => ret e
  | None => raise TypeError
  end.

(** [__getitem__(key)]. *)
Definition getitem (key : string * string) : M V :=
  pos <~ linear_probe_both key.1 key.2 false ;;
  e <~ array_entry pos.1 ;;
  cell <~ lift (fun _ => lpt_cell (lpt_array e.2) pos.2) ;;
  match cell with
  | Some (_, v) => ret v
  | None => raise TypeError
  end.

(** [__contains__(key)]: only [KeyError] is caught. *)
Definition contains (key : string * string) : M bool :=
  fun t =>
    match getitem key t with
    | (t', Ok _) => (t', Ok true)
    | (t', Raise KeyError) => (t', Ok false)
    | (t', Raise e) => (t', Raise e)
    end.

(** The [for tpl in old_array] loop of [_rehash]. *)
Fixpoint rehash_loop (old_array : list (option entry)) : M unit :=
  match old_array with
  | [] => ret tt
  | None :: rest => rehash_loop rest
  | Some (key, lpt) :: rest =>
      p <~ linear_probe_top key true ;;
      _ <~ array_setitem p (Some (key, lpt)) ;;
      rehash_loop rest
  end.

(** [_rehash()]. *)
Definition rehash : M unit :=
  old_array <~ gets array ;;
  _ <~ modify (fun t => set_size_index (S (size_index t)) t) ;;
  t <~ gets id ;;
  if (length (TABLE_SIZES t) <=? size_index t)%nat then ret tt
  else
    match TABLE_SIZES t !! size_index t with
    | None => raise IndexError
    | Some n =>
        _ <~ modify (set_array (ArrayR n)) ;;
        _ <~ modify (set_count 0) ;;
        rehash_loop old_array
    end.

(** [__setitem__(key, data)]. *)
Definition setitem (key : string * string) (data : V) : M unit :=
  let '(key1, key2) := key in
  pos <~ linear_probe_both key1 key2 true ;;
  e <~ array_entry pos.1 ;;
  let sub_table := e.2 in
  _ <~ (if lpt_is_empty sub_table
        then modify (fun t => set_count (count t + 1) t)
        else ret tt) ;;
  sub_table' <~ lift (fun _ => lpt_setitem key2 data sub_table) ;;
  _ <~ array_setitem pos.1 (Some (e.1, sub_table')) ;;
  t <~ gets id ;;
  if 2 * len t >? table_size t then rehash else ret tt.

(** The body of the [while self.array[curr_pos]] loop of [__delitem__]: the
    cell holds [(k, lpt)]; the result is the next [curr_pos]. *)
Definition repair_body (curr_pos : Z) (k : string) (lpt : LinearProbeTable) : M Z :=
  _ <~ array_setitem curr_pos None ;;
  newpos <~ linear_probe_top k true ;;
  _ <~ array_setitem newpos (Some (k, lpt)) ;;
  size <~ gets table_size ;;
  ret ((curr_pos + 1) mod size).

(** The [while self.array[curr_pos]] loop of [__delitem__]; [None] when the
    given number of iterations does not reach an empty cell. *)
Fixpoint repair_loop (fuel : nat) (curr_pos : Z) (t : DoubleKeyTable)
    : option (DoubleKeyTable * result unit) :=
  match array_getitem curr_pos t with
  | (t0, Raise e) => Some (t0, Raise e)
  | (t0, Ok None) => Some (t0, Ok tt)
  | (t0, Ok (Some (k, lpt))) =>
      match fuel with
      | O => None
      | S fuel' =>
          match repair_body curr_pos k lpt t0 with
          | (t1, Ok next) => repair_loop fuel' next t1
          | (t1, Raise e) => Some (t1, Raise e)
          end
      end
  end.

(** The first two statements of [__delitem__]: the position of the cell of
    the first key, and the entry it holds. *)
Definition delitem_locate (key : string * string) : M (Z * entry) :=
  pos <~ linear_probe_both key.1 key.2 false ;;
  e <~ array_entry pos.1 ;;
  ret (pos.1, e).

(** [__delitem__(key)] from the point where [del hash_table[key[1]]] has
    left the nested table [hash_table] in the cell [dkt_pos] up to the start
    of the repair walk: the position the walk starts from, or [None] when
    the nested table is not empty. *)
Definition delitem_clear (key : string * string) (dkt_pos : Z) (k : string)
    (hash_table : LinearProbeTable) : M (option Z) :=
  _ <~ array_setitem dkt_pos (Some (k, hash_table)) ;;
  if lpt_is_empty hash_table then
    curr_pos <~ linear_probe_top key.1 false ;;
    _ <~ array_setitem curr_pos None ;;
    _ <~ modify (fun t => set_count (count t - 1) t) ;;
    size <~ gets table_size ;;
    ret (Some ((curr_pos + 1) mod size))
  else ret None.

(** [__delitem__(key)] up to the start of the repair walk; the iterations
    allowed bound the repair walk of the nested table. *)
Definition delitem_vacate (fuel : nat) (key : string * string) (t : DoubleKeyTable)
    : option (DoubleKeyTable * result (option Z)) :=
  match delitem_locate key t with
  | (t0, Raise x) => Some (t0, Raise x)
  | (t0, Ok (dkt_pos, e)) =>
      match lpt_delitem fuel key.2 e.2 with
      | None => None
      | Some (Raise x) => Some (t0, Raise x)
      | Some (Ok hash_table) => Some (delitem_clear key dkt_pos e.1 hash_table t0)
      end
  end.

(** [__delitem__(key)]; [None] when the given number of iterations does not
    bring one of its two repair walks to an empty cell. *)
Definition delitem (fuel : nat) (key : string * string) (t : DoubleKeyTable)
    : option (DoubleKeyTable * result unit) :=
  match delitem_vacate fuel key t with
  | None => None
  | Some (t1, Ok (Some curr_pos)) => repair_loop fuel curr_pos t1
  | Some (t1, Ok None) => Some (t1, Ok tt)
  | Some (t1, Raise e) => Some (t1, Raise e)
  end.

(** The first keys of the occupied cells in index order. *)
Definition top_keys (arr : list (option entry)) : list string :=
  omap (fun cell : option entry => fst <$> cell) arr.

(** [keys(key)]. *)
Definition keys (key : option string) : M (list string) :=
  match key with
  | None => arr <~ gets array ;; ret (top_keys arr)
  | Some k =>
      p <~ linear_probe_top k false ;;
      tpl_entry <~ array_entry p ;;
      ret (lpt_keys tpl_entry.2)
  end.

(** The [for k in self.keys()] loop of [values] and [iter_values]. *)
Fixpoint values_loop (ks : list string) : M (list V) :=
  match ks with
  | [] => ret []
  | k :: rest =>
      p <~ linear_probe_top k false ;;
      e <~ array_entry p ;;
      vs <~ values_loop rest ;;
      ret (lpt_values e.2 ++ vs)
  end.

(** [values(key)]. *)
Definition values (key : option string) : M (list V) :=
  match key with
  | None => ks <~ keys None ;; values_loop ks
  | Some k =>
      p <~ linear_probe_top k false ;;
      tpl_entry <~ array_entry p ;;
      ret (lpt_values tpl_entry.2)
  end.

(** [s.keys()] on a [str]: the type has no such attribute. *)
Definition str_keys (s : string) : result (list string) := Raise AttributeError.

(** [iter_keys(key)], run to exhaustion: the list of what it yields, or the
    exception that ends the iteration. *)
Definition iter_keys (key : option string) : M (list string) :=
  match key with
  | None => arr <~ gets array ;; ret (top_keys arr)
  | Some k =>
      p <~ linear_probe_top k false ;;
      tpl_entry <~ array_entry p ;;
      lift (fun _ => str_keys tpl_entry.1)
  end.

(** [iter_values(key)], run to exhaustion. *)
Definition iter_values (key : option string) : M (list V) :=
  match key with
  | None => ks <~ keys None ;; values_loop ks
  | Some k =>
      p <~ linear_probe_top k false ;;
      tpl_entry <~ array_entry p ;;
      ret (lpt_values tpl_entry.2)
  end.

(** ** Clients and observations used by the statements *)

(** A client that performs the given insertions in order and stops at the
    first one that raises. *)
Fixpoint setitems (l : list ((string * string) * V)) : M unit :=
  match l with
  | [] => ret tt
  | (key, data) :: rest => _ <~ setitem key data ;; setitems rest
  end.

(** The number of occupied top-level cells. *)
Definition occupied (t : DoubleKeyTable) : Z :=
  Z.of_nat (length (top_keys (array t))).

(** The number of distinct first keys held by the array. *)
Definition distinct_first_keys (t : DoubleKeyTable) : Z :=
  Z.of_nat (length (remove_dups (top_keys (array t)))).

(** The capacity schedule has an entry after the current one. *)
Definition can_grow (t : DoubleKeyTable) : bool :=
  (S (size_index t) <? length (TABLE_SIZES t))%nat.

End Table.

Arguments LinearProbeTable : clear implicits.
Arguments DoubleKeyTable : clear implicits.
Arguments M : clear implicits.

Abbreviation entry V := (string * LinearProbeTable V)%type.


(** The table built by [DoubleKeyTable()] and by [DoubleKeyTable(sizes=[5])]. *)
Definition default_table : DoubleKeyTable Z :=
  {| TABLE_SIZES := DEFAULT_TABLE_SIZES; internal_sizes := DEFAULT_TABLE_SIZES;
     size_index := O; array := ArrayR 5; count := 0 |}.

Definition table_of_five : DoubleKeyTable Z :=
  {| TABLE_SIZES := [5]; internal_sizes := [5];
     size_index := O; array := ArrayR 5; count := 0 |}.

(** The nested table built by [LinearProbeTable([5])]. *)
Definition nested_of_five : LinearProbeTable Z :=
  {| lpt_sizes := [5]; lpt_size_index := O; lpt_array := ArrayR 5 |}.

(** The table built by [DoubleKeyTable(sizes=[1])]. *)
Definition table_of_one : DoubleKeyTable Z :=
  {| TABLE_SIZES := [1]; internal_sizes := [1];
     size_index := O; array := ArrayR 1; count := 0 |}.

(** The table built by [DoubleKeyTable(sizes=[13], internal_sizes=[1])]:
    every nested table has capacity 1. *)
Definition table_of_narrow_nested : DoubleKeyTable Z :=
  {| TABLE_SIZES := [13]; internal_sizes := [1];
     size_index := O; array := ArrayR 13; count := 0 |}.

Definition three_first_keys : list ((string * string) * Z) :=
  [(("a", "x"), 1); (("b", "x"), 2); (("c", "x"), 3)].

Definition seven_first_keys : list ((string * string) * Z) :=
  three_first_keys ++
  [(("d", "x"), 4); (("e", "x"), 5); (("f", "x"), 6); (("g", "x"), 7)].

(** The table [DoubleKeyTable(sizes=[5])] holds after its third insertion
    has stored its value and before the insertion calls [_rehash]. *)
Definition full_schedule_table : DoubleKeyTable Z :=
  {| TABLE_SIZES := [5]; internal_sizes := [5]; size_index := O;
     array := [None; None;
               Some ("a", {| lpt_sizes := [5]; lpt_size_index := O;
                             lpt_array := [Some ("x", 1); None; None; None; None] |});
               Some ("b", {| lpt_sizes := [5]; lpt_size_index := O;
                             lpt_array := [Some ("x", 2); None; None; None; None] |});
               Some ("c", {| lpt_sizes := [5]; lpt_size_index := O;
                             lpt_array := [Some ("x", 3); None; None; None; None] |})];
     count := 3 |}.

(** ** Definitions used by the proofs *)

(** The walk of [_linear_probe] over the first keys alone: where it stops. *)
Inductive scan_result : Set :=
  | Hit (p : Z)
  | Free (p : Z)
  | Exhausted
  | OutOfRange.

(** *** One array of keyed cells

    The top-level array holds [(first_key, nested_table)] entries and the
    array of a nested table holds [(second_key, value)] entries; the
    probing of both is described on arrays of cells [(key, content)]. *)

Section Cells.

Context {A : Type}.

(** Where the scan for [key1] stops when it starts at [pos] with [fuel]
    iterations left. *)
Fixpoint scan (arr : list (option (string * A))) (key1 : string) (fuel : nat) (pos : Z)
    : scan_result :=
  match fuel with
  | O => Exhausted
  | S fuel' =>
      if pos <? 0 then OutOfRange
      else match arr !! Z.to_nat pos with
           | None => OutOfRange
           | Some None => Free pos
           | Some (Some (k, _)) =>
               if String.eqb k key1 then Hit pos
               else scan arr key1 fuel' ((pos + 1) mod Z.of_nat (length arr))
           end
  end.

(** Circular distance from position [a] forward to position [b] in an array
    of [n] cells. *)
Definition disp (n a b : Z) : Z := (b - a) mod n.

(** The first key stored in cell [p], if the cell is occupied. *)
Definition key_at (arr : list (option (string * A))) (p : Z) : option string :=
  match arr !! Z.to_nat p with
  | Some (Some (k, _)) => Some k
  | _ => None
  end.

Definition free_at (arr : list (option (string * A))) (p : Z) : Prop :=
  arr !! Z.to_nat p = Some None.

Definition other_at (arr : list (option (string * A))) (key : string) (p : Z) : Prop :=
  exists k, key_at arr p = Some k /\ k <> key.

Definition occupied_at (arr : list (option (string * A))) (p : Z) : Prop :=
  exists k, key_at arr p = Some k.

(** The length of the probe path that ends in cell [p], for the cell's
    content: one more than the distance from the hash of its first key. *)
Definition cell_weight (n p : Z) (cell : option (string * A)) : Z :=
  match cell with
  | Some (k, _) =>
      match hash_str n k with
      | Ok h => disp n h p + 1
      | Raise _ => 1
      end
  | None => 0
  end.

Fixpoint weights_from (n off : Z) (arr : list (option (string * A))) : Z :=
  match arr with
  | [] => 0
  | cell :: rest => cell_weight n off cell + weights_from n (off + 1) rest
  end.

(** The sum of the probe-path lengths of all stored entries: the quantity
    that the repair walk of [__delitem__] decreases whenever it moves an
    entry. *)
Definition total_weight (arr : list (option (string * A))) : Z :=
  weights_from (Z.of_nat (length arr)) 0 arr.

(** No first key is held by two cells. *)
Definition distinct_keys (arr : list (option (string * A))) : Prop :=
  forall p q k,
    0 <= p < Z.of_nat (length arr) -> 0 <= q < Z.of_nat (length arr) ->
    key_at arr p = Some k -> key_at arr q = Some k -> p = q.

(** The probe for [k] reaches cell [p]: [k] hashes to a position from which
    every cell before [p] on the circle is occupied. *)
Definition path_clear (arr : list (option (string * A))) (k : string) (p : Z) : Prop :=
  exists h,
    hash_str (Z.of_nat (length arr)) k = Ok h /\
    forall q, 0 <= q < Z.of_nat (length arr) ->
      disp (Z.of_nat (length arr)) h q < disp (Z.of_nat (length arr)) h p ->
      occupied_at arr q.

(** Probe-sequence consistency: every stored first key is found again by a
    probe from its hash. *)
Definition probe_consistent (arr : list (option (string * A))) : Prop :=
  distinct_keys arr /\
  forall p k, 0 <= p < Z.of_nat (length arr) ->
    key_at arr p = Some k -> path_clear arr k p.

(** Some cell holds the key [k] with the content [x]. *)
Definition has_entry (arr : list (option (string * A))) (k : string)
    (x : A) : Prop :=
  exists i : nat, arr !! i = Some (Some (k, x)).

(** The state of the array while the repair walk of [__delitem__] stands at
    cell [c]: an entry whose probe path crosses a free cell lies in the run
    of occupied cells that starts at [c], and the free cell lies before
    [c]. *)
Definition repair_inv (arr : list (option (string * A))) (c : Z) : Prop :=
  distinct_keys arr /\
  forall p k, 0 <= p < Z.of_nat (length arr) -> key_at arr p = Some k ->
    exists h,
      hash_str (Z.of_nat (length arr)) k = Ok h /\
      forall e, 0 <= e < Z.of_nat (length arr) ->
        disp (Z.of_nat (length arr)) h e < disp (Z.of_nat (length arr)) h p ->
        free_at arr e ->
        (0 < disp (Z.of_nat (length arr)) e c <= disp (Z.of_nat (length arr)) e p) /\
        forall q, 0 <= q < Z.of_nat (length arr) ->
          disp (Z.of_nat (length arr)) c q <= disp (Z.of_nat (length arr)) c p ->
          occupied_at arr q.

End Cells.

(** *** The two-level table *)

Section Spec.

Context {V : Type}.

(** What [_linear_probe] returns, and the table it leaves, once its scan
    has stopped. *)
Definition probe_outcome (key1 : string) (key2 : option string) (is_insert : bool)
    (r : scan_result) (t : DoubleKeyTable V) : DoubleKeyTable V * result probe_pos :=
  match r with
  | Exhausted => (t, Raise (if is_insert then FullError else KeyError))
  | OutOfRange => (t, Raise IndexError)
  | Free p =>
      if is_insert then
        match key2 with
        | None => (t, Ok (Top p))
        | Some k2 =>
            match lpt_new (internal_sizes t) with
            | Raise e => (t, Raise e)
            | Ok hash_table =>
                (set_array (<[Z.to_nat p := Some (key1, hash_table)]> (array t)) t,
                 match lpt_linear_probe k2 is_insert hash_table with
                 | Ok q => Ok (Both p q)
                 | Raise e => Raise e
                 end)
            end
        end
      else (t, Raise KeyError)
  | Hit p =>
      match key2 with
      | None => (t, Ok (Top p))
      | Some k2 =>
          match array t !! Z.to_nat p with
          | Some (Some (_, hash_table)) =>
              (t, match lpt_linear_probe k2 is_insert hash_table with
                  | Ok q => Ok (Both p q)
                  | Raise e => Raise e
                  end)
          | _ => (t, Raise IndexError)
          end
      end
  end.

(** The position of a second key among the entries of a nested table, in
    their native order. *)
Fixpoint lpt_index (key : string) (items : list (string * V)) : option nat :=
  match items with
  | [] => None
  | (k, _) :: rest =>
      if String.eqb k key then Some O else S <$> lpt_index key rest
  end.

(** What the nested [_linear_probe] returns once its scan has stopped. *)
Definition lpt_probe_outcome (is_insert : bool) (r : scan_result) : result Z :=
  match r with
  | Hit p => Ok p
  | Free p => if is_insert then Ok p else Raise KeyError
  | Exhausted => Raise (if is_insert then FullError else KeyError)
  | OutOfRange => Raise IndexError
  end.

(** The cell holds the pair [key]: its first key is [key.1] and its nested
    table has an entry for [key.2]. *)
Definition holds_pair (key : string * string) (cell : option (entry V)) : bool :=
  match cell with
  | Some (k, lpt) =>
      String.eqb k key.1 &&
      match lpt_index key.2 (lpt_items lpt) with
      | Some _ => true
      | None => false
      end
  | None => false
  end.

(** Some cell of the array holds the pair. *)
Definition stored (key : string * string) (t : DoubleKeyTable V) : bool :=
  existsb (holds_pair key) (array t).

(** The hash of the second key returns on the nested table of every cell
    that holds the first key. *)
Definition hashes_second (key : string * string) (cell : option (entry V)) : bool :=
  match cell with
  | Some (k, lpt) =>
      if String.eqb k key.1 then
        match hash2 key.2 lpt with
        | Ok _ => true
        | Raise _ => false
        end
      else true
  | None => true
  end.

Definition second_hash_returns (key : string * string) (t : DoubleKeyTable V) : bool :=
  forallb (hashes_second key) (array t).

(** The cell is occupied by a first key other than [key1]. *)
Definition holds_other (key1 : string) (cell : option (entry V)) : bool :=
  match cell with
  | Some (k, _) => negb (String.eqb k key1)
  | None => false
  end.

(** Every cell of the array is occupied by a first key other than [key1]. *)
Definition all_other (key1 : string) (t : DoubleKeyTable V) : bool :=
  forallb (holds_other key1) (array t).

(** The value a nested table holds for a second key. *)
Fixpoint lpt_lookup (key : string) (items : list (string * V)) : option V :=
  match items with
  | [] => None
  | (k, v) :: rest => if String.eqb k key then Some v else lpt_lookup key rest
  end.

(** No cell holds an empty nested table. *)
Definition nested_nonempty (arr : list (option (entry V))) : Prop :=
  forall (i : nat) k lpt, arr !! i = Some (Some (k, lpt)) -> lpt_is_empty lpt = false.

(** Every nested table is probe-sequence consistent on its own array. *)
Definition nested_consistent (arr : list (option (entry V))) : Prop :=
  forall (i : nat) k lpt,
    arr !! i = Some (Some (k, lpt)) -> probe_consistent (lpt_array lpt).

(** The invariant of the tables left by completed operations. *)
Definition table_inv (t : DoubleKeyTable V) : Prop :=
  probe_consistent (array t) /\ nested_nonempty (array t) /\
  nested_consistent (array t).

(** The pair [key] is stored with the value [v]. *)
Definition maps_to (t : DoubleKeyTable V) (key : string * string) (v : V) : Prop :=
  exists lpt, has_entry (array t) key.1 lpt /\
    lpt_lookup key.2 (lpt_items lpt) = Some v.

(** The tables reached from a fresh table through calls of the public
    operations in which every insertion returned.  An insertion that raises
    after it has written leaves a table outside this set; [held] follows
    it. *)
Inductive reachable : DoubleKeyTable V -> Prop :=
  | reach_init sizes internal t :
      init sizes internal = Ok t -> reachable t
  | reach_set t key data t' :
      reachable t -> setitem key data t = (t', Ok tt) -> reachable t'
  | reach_del t fuel key t' r :
      reachable t -> delitem fuel key t = Some (t', r) -> reachable t'
  | reach_get t key t' r :
      reachable t -> getitem key t = (t', r) -> reachable t'
  | reach_contains t key t' r :
      reachable t -> contains key t = (t', r) -> reachable t'
  | reach_keys t key t' r :
      reachable t -> keys key t = (t', r) -> reachable t'
  | reach_values t key t' r :
      reachable t -> values key t = (t', r) -> reachable t'.

(** The tables a client can hold: a fresh table, and what any call of a
    public operation leaves behind, whether it returns or raises. *)
Inductive held : DoubleKeyTable V -> Prop :=
  | held_init sizes internal t :
      init sizes internal = Ok t -> held t
  | held_set t key data t' r :
      held t -> setitem key data t = (t', r) -> held t'
  | held_del t fuel key t' r :
      held t -> delitem fuel key t = Some (t', r) -> held t'
  | held_get t key t' r :
      held t -> getitem key t = (t', r) -> held t'
  | held_contains t key t' r :
      held t -> contains key t = (t', r) -> held t'
  | held_keys t key t' r :
      held t -> keys key t = (t', r) -> held t'
  | held_values t key t' r :
      held t -> values key t = (t', r) -> held t'.

(** The value of the last insertion of [key] in the list, if any. *)
Fixpoint last_set (l : list ((string * string) * V)) (key : string * string)
    : option V :=
  match l with
  | [] => None
  | (k, v) :: rest =>
      match last_set rest key with
      | Some v' => Some v'
      | None => if decide (k = key) then Some v else None
      end
  end.

(** The two tables agree on everything but the content of the array: the
    schedules, the size index, the count and the capacity. *)
Definition same_fields (t t' : DoubleKeyTable V) : Prop :=
  TABLE_SIZES t' = TABLE_SIZES t /\ internal_sizes t' = internal_sizes t /\
  size_index t' = size_index t /\ count t' = count t /\
  table_size t' = table_size t.

(** How a completed [__setitem__] that leaves the counter at [c] before its
    growth test moves the size index, the capacity and the counter. *)
Definition resize_step (t : DoubleKeyTable V) (c : Z) (t' : DoubleKeyTable V) : Prop :=
  if 2 * c >? table_size t then
    size_index t' = S (size_index t) /\
    match TABLE_SIZES t !! S (size_index t) with
    | Some n => table_size t' = Z.max 0 n /\ count t' = 0
    | None => table_size t' = table_size t /\ count t' = c
    end
  else
    size_index t' = size_index t /\ table_size t' = table_size t /\ count t' = c.

(** Every stored nested table has pairwise distinct second keys. *)
Definition nested_distinct (arr : list (option (entry V))) : Prop :=
  forall k lpt, has_entry arr k lpt -> NoDup (lpt_keys lpt).

End Spec.

Definition five_first_keys : list ((string * string) * Z) :=
  three_first_keys ++ [(("f", "x"), 4); (("k", "x"), 5)].

(** [DoubleKeyTable(sizes=[5])] after five insertions under five first
    keys: every cell is occupied. *)
Definition crowded_table : DoubleKeyTable Z :=
  (setitems five_first_keys table_of_five).1.

(** The scenario of the specification: two pairs under "Tim", one under
    "Amy", in a table of capacity 5. *)
Definition scenario_pairs : list ((string * string) * Z) :=
  [(("Tim", "Jen"), 1); (("Amy", "Ben"), 2); (("Tim", "Kat"), 3)].

Definition scenario_table : DoubleKeyTable Z :=
  (setitems scenario_pairs table_of_five).1.

(** The scenario before its last insertion: one pair under "Tim", one under
    "Amy". *)
Definition scenario_start : DoubleKeyTable Z :=
  (setitems [(("Tim", "Jen"), 1); (("Amy", "Ben"), 2)] table_of_five).1.

(** The scenario after [del table["Amy", "Ben"]], the only pair under
    "Amy"; the table is left as it is should the deletion not complete. *)
Definition scenario_without_amy : DoubleKeyTable Z :=
  match delitem 25 ("Amy", "Ben") scenario_table with
  | Some (t', _) => t'
  | None => scenario_table
  end.

(** * Properties *)

(** ** The hash functions *)

Lemma hash_loop_range (size : Z) (key : string) :
  2 <= size ->
  forall value a, 0 <= value < size ->
  exists h, hash_loop size key value a = Ok h /\ 0 <= h < size.
Proof.
  intros Hsize. induction key as [|c rest IH]; intros value a Hv; simpl.
  - exists value. split; [reflexivity | lia].
  - unfold py_mod.
    destruct (Z.eqb_spec size 0) as [?|_]; [lia|].
    destruct (Z.eqb_spec (size - 1) 0) as [?|_]; [lia|]. simpl.
    apply IH. apply Z.mod_pos_bound. lia.
Qed.

Lemma hash_str_range (size : Z) (key : string) :
  2 <= size -> exists h, hash_str size key = Ok h /\ 0 <= h < size.
Proof. intros Hsize. apply hash_loop_range; lia. Qed.

Lemma hash_loop_ok_range (size : Z) (key : string) :
  1 <= size ->
  forall value a h, 0 <= value < size ->
  hash_loop size key value a = Ok h -> 0 <= h < size.
Proof.
  intros Hsize. induction key as [|c rest IH]; intros value a h Hv; simpl.
  - intros [= <-]. lia.
  - unfold py_mod.
    destruct (Z.eqb_spec size 0) as [?|_]; [lia|].
    destruct (Z.eqb_spec (size - 1) 0) as [?|_]; [discriminate|]. simpl.
    apply IH. apply Z.mod_pos_bound. lia.
Qed.

Lemma hash_str_ok_range (size : Z) (key : string) (h : Z) :
  1 <= size -> hash_str size key = Ok h -> 0 <= h < size.
Proof. intros Hsize. apply hash_loop_ok_range; lia. Qed.

Lemma hash_str_size_one (key : string) :
  key <> EmptyString -> hash_str 1 key = Raise ZeroDivisionError.
Proof. destruct key as [|c rest]; [congruence | reflexivity]. Qed.

(** ** Positions on the circle *)

Lemma disp_cases (n a b : Z) :
  0 <= a < n -> 0 <= b < n ->
  (a <= b /\ disp n a b = b - a) \/ (b < a /\ disp n a b = b - a + n).
Proof.
  intros Ha Hb. unfold disp.
  destruct (Z_le_gt_dec a b) as [Hle|Hgt].
  - left. split; [lia|]. apply Z.mod_small. lia.
  - right. split; [lia|].
    transitivity ((b - a + 1 * n) mod n).
    + symmetry. apply Z.mod_add. lia.
    + rewrite Z.mod_small; lia.
Qed.

Lemma next_cases (n p : Z) :
  0 <= p < n ->
  (p + 1 < n /\ (p + 1) mod n = p + 1) \/ (p + 1 = n /\ (p + 1) mod n = 0).
Proof.
  intros Hp. destruct (Z_lt_ge_dec (p + 1) n) as [Hlt|Hge].
  - left. split; [lia|]. apply Z.mod_small. lia.
  - right. assert (p + 1 = n) as -> by lia. split; [reflexivity|].
    apply Z.mod_same. lia.
Qed.

Lemma next_range (n p : Z) : 0 <= p < n -> 0 <= (p + 1) mod n < n.
Proof. intros Hp. apply Z.mod_pos_bound. lia. Qed.

Ltac circ :=
  repeat match goal with
  | |- context [disp ?n ?a ?b] =>
      let d := fresh "d" in
      pose proof (disp_cases n a b);
      set (d := disp n a b) in *; clearbody d
  | H : context [disp ?n ?a ?b] |- _ =>
      let d := fresh "d" in
      pose proof (disp_cases n a b);
      set (d := disp n a b) in *; clearbody d
  | |- context [(?p + 1) mod ?n] =>
      let d := fresh "s" in
      pose proof (next_cases n p);
      set (d := (p + 1) mod n) in *; clearbody d
  | H : context [(?p + 1) mod ?n] |- _ =>
      let d := fresh "s" in
      pose proof (next_cases n p);
      set (d := (p + 1) mod n) in *; clearbody d
  end;
  lia.

(** ** Probing one array of keyed cells *)

Section CellTheory.

Context {A : Type}.

Implicit Types (arr : list (option (string * A))).

Lemma key_at_free arr p k : key_at arr p = Some k -> free_at arr p -> False.
Proof. unfold key_at, free_at. intros H1 H2. rewrite H2 in H1. discriminate. Qed.

Lemma scan_spec arr key fuel : forall pos,
  0 <= pos < Z.of_nat (length arr) ->
  match scan arr key fuel pos with
  | Hit p =>
      0 <= p < Z.of_nat (length arr) /\ key_at arr p = Some key /\
      disp (Z.of_nat (length arr)) pos p < Z.of_nat fuel /\
      forall q, 0 <= q < Z.of_nat (length arr) ->
        disp (Z.of_nat (length arr)) pos q < disp (Z.of_nat (length arr)) pos p ->
        other_at arr key q
  | Free p =>
      0 <= p < Z.of_nat (length arr) /\ free_at arr p /\
      disp (Z.of_nat (length arr)) pos p < Z.of_nat fuel /\
      forall q, 0 <= q < Z.of_nat (length arr) ->
        disp (Z.of_nat (length arr)) pos q < disp (Z.of_nat (length arr)) pos p ->
        other_at arr key q
  | Exhausted =>
      forall q, 0 <= q < Z.of_nat (length arr) ->
        disp (Z.of_nat (length arr)) pos q < Z.of_nat fuel -> other_at arr key q
  | OutOfRange => False
  end.
Proof.
  set (n := Z.of_nat (length arr)).
  induction fuel as [|fuel IH]; intros pos Hpos; simpl.
  - intros q Hq Hd. exfalso. circ.
  - destruct (Z.ltb_spec pos 0) as [?|_]; [lia|].
    destruct (arr !! Z.to_nat pos) as [[[k lpt]|]|] eqn:Hcell.
    + destruct (String.eqb_spec k key) as [->|Hk].
      * split; [lia|]. split; [unfold key_at; now rewrite Hcell|].
        split; [circ|]. intros q Hq Hd. exfalso. circ.
      * assert (Hother : other_at arr key pos).
        { exists k. unfold key_at. rewrite Hcell. auto. }
        specialize (IH ((pos + 1) mod n) (next_range n pos Hpos)).
        fold n.
        destruct (scan arr key fuel ((pos + 1) mod n)) as [p|p| |].
        -- destruct IH as (Hp & Hkey & Hd & Hq).
           assert (p <> pos).
           { intros ->. destruct Hother as (k' & Hk' & Hne). congruence. }
           split; [lia|]. split; [exact Hkey|]. split; [circ|].
           intros q Hqr Hqd. destruct (Z.eq_dec q pos) as [->|Hne]; [exact Hother|].
           apply Hq; [lia|]. circ.
        -- destruct IH as (Hp & Hfree & Hd & Hq).
           assert (p <> pos).
           { intros ->. destruct Hother as (k' & Hk' & Hne).
             eapply key_at_free; eauto. }
           split; [lia|]. split; [exact Hfree|]. split; [circ|].
           intros q Hqr Hqd. destruct (Z.eq_dec q pos) as [->|Hne]; [exact Hother|].
           apply Hq; [lia|]. circ.
        -- intros q Hqr Hqd. destruct (Z.eq_dec q pos) as [->|Hne]; [exact Hother|].
           apply IH; [lia|]. circ.
        -- exact IH.
    + split; [lia|]. split; [exact Hcell|]. split; [circ|].
      intros q Hq Hd. exfalso. circ.
    + apply lookup_ge_None in Hcell. lia.
Qed.

Lemma key_at_cell arr p k :
  0 <= p -> key_at arr p = Some k ->
  exists lpt, arr !! Z.to_nat p = Some (Some (k, lpt)).
Proof.
  unfold key_at. intros _ H.
  destruct (arr !! Z.to_nat p) as [[[k' lpt]|]|]; try discriminate.
  injection H as ->. eauto.
Qed.

Lemma cell_key_at arr p k lpt :
  arr !! Z.to_nat p = Some (Some (k, lpt)) -> key_at arr p = Some k.
Proof. unfold key_at. now intros ->. Qed.

Lemma free_not_other arr key p : free_at arr p -> other_at arr key p -> False.
Proof. intros Hf (k & Hk & _). eapply key_at_free; eauto. Qed.

Lemma free_at_insert_same arr p :
  0 <= p < Z.of_nat (length arr) -> free_at (<[Z.to_nat p := None]> arr) p.
Proof. intros Hp. unfold free_at. apply list_lookup_insert_eq. lia. Qed.

(** With an in-range hash and a free cell somewhere, the insert-mode scan
    stops at a free cell or at a cell holding the key. *)
Lemma scan_finds_with_free arr key h f :
  0 <= h < Z.of_nat (length arr) -> 0 <= f < Z.of_nat (length arr) ->
  free_at arr f ->
  exists p, 0 <= p < Z.of_nat (length arr) /\
    disp (Z.of_nat (length arr)) h p <= disp (Z.of_nat (length arr)) h f /\
    ((scan arr key (length arr) h = Free p /\ free_at arr p) \/
     (scan arr key (length arr) h = Hit p /\ key_at arr p = Some key)).
Proof.
  intros Hh Hf Hfree.
  pose proof (scan_spec arr key (length arr) h Hh) as Hs.
  destruct (scan arr key (length arr) h) as [p|p| |].
  - destruct Hs as (Hp & Hkey & _ & Hq). exists p. split; [lia|]. split; [|auto].
    destruct (Z_le_gt_dec (disp (Z.of_nat (length arr)) h p)
                (disp (Z.of_nat (length arr)) h f)) as [?|Hgt]; [assumption|].
    exfalso. eapply free_not_other; [exact Hfree|]. apply Hq; [lia|lia].
  - destruct Hs as (Hp & Hfr & _ & Hq). exists p. split; [lia|]. split; [|auto].
    destruct (Z_le_gt_dec (disp (Z.of_nat (length arr)) h p)
                (disp (Z.of_nat (length arr)) h f)) as [?|Hgt]; [assumption|].
    exfalso. eapply free_not_other; [exact Hfree|]. apply Hq; [lia|lia].
  - exfalso. eapply free_not_other; [exact Hfree|]. apply Hs; [lia|]. circ.
  - contradiction.
Qed.

Lemma disp_nonneg (n a b : Z) : 0 < n -> 0 <= disp n a b < n.
Proof. intros Hn. unfold disp. apply Z.mod_pos_bound. exact Hn. Qed.

Lemma cell_weight_nonneg (n p : Z) (cell : option (string * A)) :
  0 < n -> 0 <= cell_weight n p cell.
Proof.
  intros Hn. unfold cell_weight. destruct cell as [[k lpt]|]; [|lia].
  destruct (hash_str n k); [|lia]. pose proof (disp_nonneg n a p Hn). lia.
Qed.

Lemma cell_weight_key (n p : Z) (k : string) (lpt lpt' : A) :
  cell_weight n p (Some (k, lpt)) = cell_weight n p (Some (k, lpt')).
Proof. reflexivity. Qed.

Lemma weights_from_nonneg (n : Z) arr : forall off,
  0 < n -> 0 <= weights_from n off arr.
Proof.
  induction arr as [|cell rest IH]; intros off Hn; simpl; [lia|].
  pose proof (cell_weight_nonneg n off cell Hn). specialize (IH (off + 1) Hn). lia.
Qed.

Lemma weights_from_insert (n : Z) arr : forall off (i : nat) cell0 cell,
  arr !! i = Some cell0 ->
  weights_from n off (<[i := cell]> arr)
  = weights_from n off arr - cell_weight n (off + Z.of_nat i) cell0
    + cell_weight n (off + Z.of_nat i) cell.
Proof.
  induction arr as [|c rest IH]; intros off i cell0 cell Hi; [discriminate|].
  destruct i as [|i]; simpl in *.
  - injection Hi as ->. replace (off + Z.of_nat 0) with off by lia. lia.
  - rewrite (IH (off + 1) i cell0 cell Hi).
    replace (off + 1 + Z.of_nat i) with (off + Z.of_nat (S i)) by lia.
    lia.
Qed.

Lemma total_weight_insert arr (p : Z) cell0 cell :
  0 <= p -> arr !! Z.to_nat p = Some cell0 ->
  total_weight (<[Z.to_nat p := cell]> arr)
  = total_weight arr - cell_weight (Z.of_nat (length arr)) p cell0
    + cell_weight (Z.of_nat (length arr)) p cell.
Proof.
  intros Hp Hcell. unfold total_weight. rewrite length_insert.
  rewrite (weights_from_insert _ _ _ _ cell0 cell Hcell).
  rewrite Z2Nat.id by lia. reflexivity.
Qed.

Lemma total_weight_nonneg arr : 0 <= total_weight arr.
Proof.
  unfold total_weight. destruct arr as [|c rest]; [simpl; lia|].
  apply weights_from_nonneg. simpl. lia.
Qed.

(** Moving the entry of cell [c] to the cell the probe finds for it either
    puts it back where it was or decreases the total weight. *)
Lemma repair_move_weight arr (c p h : Z) (k : string) (lpt : A) :
  let n := Z.of_nat (length arr) in
  let arr2 := <[Z.to_nat c := None]> arr in
  0 <= c < n -> 0 <= p < n -> 0 <= h < n ->
  arr !! Z.to_nat c = Some (Some (k, lpt)) ->
  hash_str n k = Ok h ->
  disp n h p <= disp n h c ->
  free_at arr2 p \/ key_at arr2 p = Some k ->
  p <> c ->
  total_weight (<[Z.to_nat p := Some (k, lpt)]> arr2) < total_weight arr.
Proof.
  intros n arr2 Hc Hp Hh Hcell Hhash Hd Hat Hne.
  assert (Hlen : length arr2 = length arr) by apply length_insert.
  assert (H2 : total_weight arr2 = total_weight arr - cell_weight n c (Some (k, lpt))).
  { unfold arr2. rewrite (total_weight_insert _ _ _ None (proj1 Hc) Hcell).
    simpl. fold n. lia. }
  assert (Hwc : cell_weight n c (Some (k, lpt)) = disp n h c + 1).
  { unfold cell_weight. now rewrite Hhash. }
  assert (Hwp : cell_weight n p (Some (k, lpt)) = disp n h p + 1).
  { unfold cell_weight. now rewrite Hhash. }
  destruct Hat as [Hfree|Hkey].
  - rewrite (total_weight_insert _ _ _ (Some (k, lpt)) (proj1 Hp) Hfree).
    rewrite Hlen. fold n. simpl cell_weight at 1. rewrite H2, Hwc, Hwp.
    assert (disp n h p <> disp n h c) by (clear - Hc Hp Hh Hne; circ).
    lia.
  - destruct (key_at_cell _ _ _ (proj1 Hp) Hkey) as (lpt' & Hcell').
    rewrite (total_weight_insert _ _ _ (Some (k, lpt)) (proj1 Hp) Hcell').
    rewrite Hlen. fold n.
    rewrite (cell_weight_key n p k lpt' lpt). rewrite H2, Hwc.
    pose proof (disp_nonneg n h c ltac:(lia)). lia.
Qed.

Lemma key_at_insert arr p q cell :
  0 <= p < Z.of_nat (length arr) -> 0 <= q ->
  key_at (<[Z.to_nat p := cell]> arr) q
  = if Z.eq_dec q p then fst <$> cell else key_at arr q.
Proof.
  intros Hp Hq. unfold key_at. destruct (Z.eq_dec q p) as [->|Hne].
  - rewrite list_lookup_insert_eq by lia. now destruct cell as [[k lpt]|].
  - rewrite list_lookup_insert_ne by lia. reflexivity.
Qed.

Lemma free_at_insert_ne arr p q cell :
  q <> p -> 0 <= p -> 0 <= q ->
  free_at (<[Z.to_nat p := cell]> arr) q <-> free_at arr q.
Proof.
  intros Hne Hp Hq. unfold free_at. rewrite list_lookup_insert_ne by lia.
  reflexivity.
Qed.

Lemma cell_cases arr q :
  0 <= q < Z.of_nat (length arr) -> occupied_at arr q \/ free_at arr q.
Proof.
  intros Hq. unfold occupied_at, key_at, free_at.
  destruct (lookup_lt_is_Some_2 arr (Z.to_nat q)) as [cell Hcell]; [lia|].
  rewrite Hcell. destruct cell as [[k lpt]|]; eauto.
Qed.

Lemma occupied_not_free arr q : occupied_at arr q -> free_at arr q -> False.
Proof. intros (k & Hk) Hf. eapply key_at_free; eauto. Qed.

Lemma other_occupied arr key q : other_at arr key q -> occupied_at arr q.
Proof. intros (k & Hk & _). now exists k. Qed.

Lemma path_clear_range arr k p h :
  0 <= p < Z.of_nat (length arr) ->
  hash_str (Z.of_nat (length arr)) k = Ok h -> 0 <= h < Z.of_nat (length arr).
Proof. intros Hp Hh. eapply hash_str_ok_range; [lia | exact Hh]. Qed.

(** A stored first key is found by the scan from its hash. *)
Lemma scan_stored arr k p :
  probe_consistent arr ->
  0 <= p < Z.of_nat (length arr) -> key_at arr p = Some k ->
  exists h, hash_str (Z.of_nat (length arr)) k = Ok h /\
    0 <= h < Z.of_nat (length arr) /\
    scan arr k (length arr) h = Hit p.
Proof.
  intros [Hdist Hpath] Hp Hkey.
  destruct (Hpath p k Hp Hkey) as (h & Hh & Hclear).
  pose proof (path_clear_range _ _ _ _ Hp Hh) as Hhr.
  exists h. split; [exact Hh|]. split; [exact Hhr|].
  pose proof (scan_spec arr k (length arr) h Hhr) as Hs.
  destruct (scan arr k (length arr) h) as [p'|p'| |].
  - destruct Hs as (Hp' & Hkey' & _). f_equal. eapply Hdist; eauto.
  - exfalso. destruct Hs as (Hp' & Hfree & _ & Hq).
    destruct (Z_lt_ge_dec (disp (Z.of_nat (length arr)) h p)
                (disp (Z.of_nat (length arr)) h p')) as [Hlt|Hge].
    + destruct (Hq p Hp Hlt) as (k' & Hk' & Hne). congruence.
    + assert (p' <> p) by (intros ->; eapply key_at_free; eauto).
      apply (occupied_not_free arr p'); [|exact Hfree].
      apply Hclear; [exact Hp'|]. clear - Hp Hp' Hhr Hge H. circ.
  - exfalso. destruct (Hs p Hp) as (k' & Hk' & Hne); [|congruence].
    pose proof (disp_nonneg (Z.of_nat (length arr)) h p ltac:(lia)). lia.
  - contradiction.
Qed.

(** A first key that no cell holds is not hit. *)
Lemma scan_absent arr k h :
  (forall p, 0 <= p < Z.of_nat (length arr) -> key_at arr p <> Some k) ->
  0 <= h < Z.of_nat (length arr) ->
  (exists p, scan arr k (length arr) h = Free p /\
     0 <= p < Z.of_nat (length arr) /\ free_at arr p /\
     forall q, 0 <= q < Z.of_nat (length arr) ->
       disp (Z.of_nat (length arr)) h q < disp (Z.of_nat (length arr)) h p ->
       occupied_at arr q) \/
  scan arr k (length arr) h = Exhausted.
Proof.
  intros Habs Hh. pose proof (scan_spec arr k (length arr) h Hh) as Hs.
  destruct (scan arr k (length arr) h) as [p|p| |].
  - destruct Hs as (Hp & Hkey & _). exfalso. eapply Habs; eauto.
  - left. exists p. destruct Hs as (Hp & Hfree & _ & Hq).
    repeat split; try assumption; try lia.
    intros q Hqr Hqd. eapply other_occupied. eauto.
  - now right.
  - contradiction.
Qed.

(** Replacing cells without changing any first key keeps consistency. *)
Lemma probe_consistent_same_keys arr arr' :
  length arr' = length arr ->
  (forall q, 0 <= q -> key_at arr' q = key_at arr q) ->
  probe_consistent arr -> probe_consistent arr'.
Proof.
  intros Hlen Hkeys [Hdist Hpath]. split.
  - intros p q k Hp Hq Hkp Hkq. rewrite Hlen in Hp, Hq.
    rewrite Hkeys in Hkp, Hkq by lia. eapply Hdist; eauto.
  - intros p k Hp Hk. rewrite Hlen in Hp. rewrite Hkeys in Hk by lia.
    destruct (Hpath p k Hp Hk) as (h & Hh & Hclear).
    exists h. rewrite Hlen. split; [exact Hh|].
    intros q Hq Hd. destruct (Hclear q Hq Hd) as (k' & Hk').
    exists k'. now rewrite Hkeys by lia.
Qed.

Lemma probe_consistent_update arr p k lpt :
  0 <= p < Z.of_nat (length arr) -> key_at arr p = Some k ->
  probe_consistent arr -> probe_consistent (<[Z.to_nat p := Some (k, lpt)]> arr).
Proof.
  intros Hp Hk. apply probe_consistent_same_keys; [apply length_insert|].
  intros q Hq. rewrite key_at_insert by assumption.
  destruct (Z.eq_dec q p) as [->|]; [now rewrite Hk | reflexivity].
Qed.

(** Seating a new first key in the free cell its scan stops at keeps
    consistency. *)
Lemma probe_consistent_insert arr k h p lpt :
  probe_consistent arr ->
  (forall q, 0 <= q < Z.of_nat (length arr) -> key_at arr q <> Some k) ->
  hash_str (Z.of_nat (length arr)) k = Ok h ->
  0 <= p < Z.of_nat (length arr) -> free_at arr p ->
  (forall q, 0 <= q < Z.of_nat (length arr) ->
     disp (Z.of_nat (length arr)) h q < disp (Z.of_nat (length arr)) h p ->
     occupied_at arr q) ->
  probe_consistent (<[Z.to_nat p := Some (k, lpt)]> arr).
Proof.
  intros [Hdist Hpath] Habs Hh Hp Hfree Hclear.
  assert (Hocc : forall q, 0 <= q -> occupied_at arr q ->
            occupied_at (<[Z.to_nat p := Some (k, lpt)]> arr) q).
  { intros q Hq (k' & Hk'). unfold occupied_at.
    rewrite key_at_insert by assumption.
    destruct (Z.eq_dec q p); simpl; eauto. }
  split.
  - intros a b k' Ha Hb. rewrite length_insert in Ha, Hb.
    rewrite !key_at_insert by lia.
    destruct (Z.eq_dec a p) as [->|Hap], (Z.eq_dec b p) as [->|Hbp]; simpl;
      intros Hka Hkb; try reflexivity.
    + exfalso. apply (Habs b Hb). simpl in Hka. congruence.
    + exfalso. apply (Habs a Ha). simpl in Hkb. congruence.
    + eapply Hdist; eauto.
  - intros q k' Hq. rewrite length_insert in Hq.
    rewrite key_at_insert by lia. unfold path_clear. rewrite length_insert.
    destruct (Z.eq_dec q p) as [->|Hqp]; simpl.
    + intros [= <-]. exists h. split; [exact Hh|].
      intros q Hqr Hqd. apply Hocc; [lia|]. now apply Hclear.
    + intros Hk'. destruct (Hpath q k' Hq Hk') as (h' & Hh' & Hclear').
      exists h'. split; [exact Hh'|].
      intros e He Hed. apply Hocc; [lia|]. now apply Hclear'.
Qed.

Lemma entry_position arr (i : nat) k lpt :
  arr !! i = Some (Some (k, lpt)) ->
  0 <= Z.of_nat i < Z.of_nat (length arr) /\ key_at arr (Z.of_nat i) = Some k.
Proof.
  intros Hi. split.
  - apply lookup_lt_Some in Hi. lia.
  - unfold key_at. now rewrite Nat2Z.id, Hi.
Qed.

Lemma has_entry_unique arr k lpt lpt' :
  distinct_keys arr -> has_entry arr k lpt -> has_entry arr k lpt' -> lpt = lpt'.
Proof.
  intros Hdist (i & Hi) (j & Hj).
  destruct (entry_position _ _ _ _ Hi) as [Hir Hik].
  destruct (entry_position _ _ _ _ Hj) as [Hjr Hjk].
  assert (Z.of_nat i = Z.of_nat j) by (eapply Hdist; eauto).
  assert (i = j) by lia. subst j. congruence.
Qed.

Lemma has_entry_key_at arr k lpt :
  has_entry arr k lpt ->
  exists p, 0 <= p < Z.of_nat (length arr) /\ key_at arr p = Some k /\
    arr !! Z.to_nat p = Some (Some (k, lpt)).
Proof.
  intros (i & Hi). destruct (entry_position _ _ _ _ Hi) as [Hr Hk].
  exists (Z.of_nat i). rewrite Nat2Z.id. auto.
Qed.

Lemma key_at_has_entry arr p k :
  0 <= p -> key_at arr p = Some k -> exists lpt, has_entry arr k lpt.
Proof.
  intros Hp Hk. destruct (key_at_cell _ _ _ Hp Hk) as (lpt & Hcell).
  exists lpt, (Z.to_nat p). exact Hcell.
Qed.

Lemma has_entry_insert_free arr p k lpt k' lpt' :
  0 <= p < Z.of_nat (length arr) -> free_at arr p ->
  has_entry (<[Z.to_nat p := Some (k, lpt)]> arr) k' lpt'
  <-> has_entry arr k' lpt' \/ (k' = k /\ lpt' = lpt).
Proof.
  intros Hp Hfree. unfold has_entry. split.
  - intros (i & Hi). destruct (Nat.eq_dec i (Z.to_nat p)) as [->|Hne].
    + rewrite list_lookup_insert_eq in Hi by lia. right. injection Hi as <- <-. auto.
    + rewrite list_lookup_insert_ne in Hi by lia. left. eauto.
  - intros [(i & Hi)|[-> ->]].
    + exists i. rewrite list_lookup_insert_ne; [exact Hi|].
      intros <-. unfold free_at in Hfree. congruence.
    + exists (Z.to_nat p). apply list_lookup_insert_eq. lia.
Qed.

Lemma has_entry_update arr p k lpt0 lpt k' lpt' :
  distinct_keys arr ->
  0 <= p -> arr !! Z.to_nat p = Some (Some (k, lpt0)) ->
  has_entry (<[Z.to_nat p := Some (k, lpt)]> arr) k' lpt'
  <-> (k' = k /\ lpt' = lpt) \/ (k' <> k /\ has_entry arr k' lpt').
Proof.
  intros Hdist Hp Hcell.
  assert (Hlt : (Z.to_nat p < length arr)%nat) by (eapply lookup_lt_Some; eauto).
  unfold has_entry. split.
  - intros (i & Hi). destruct (Nat.eq_dec i (Z.to_nat p)) as [->|Hne].
    + rewrite list_lookup_insert_eq in Hi by lia. left. injection Hi as <- <-. auto.
    + rewrite list_lookup_insert_ne in Hi by lia. right. split; [|eauto].
      intros ->. apply Hne.
      destruct (entry_position _ _ _ _ Hi) as [Hir Hik].
      assert (Z.of_nat i = p); [|lia].
      eapply Hdist; eauto; [lia|]. eapply cell_key_at; eauto.
  - intros [[-> ->]|[Hne (i & Hi)]].
    + exists (Z.to_nat p). apply list_lookup_insert_eq. lia.
    + exists i. rewrite list_lookup_insert_ne; [exact Hi|].
      intros <-. congruence.
Qed.

Lemma key_at_replicate (n : nat) p : key_at (A:=A) (replicate n None) p = None.
Proof.
  unfold key_at. destruct (replicate n None !! Z.to_nat p) as [cell|] eqn:Hcell;
    [|reflexivity].
  apply lookup_replicate in Hcell as [-> _]. reflexivity.
Qed.

Lemma probe_consistent_empty (n : nat) :
  probe_consistent (A:=A) (replicate n None).
Proof.
  split.
  - intros p q k _ _ Hk. rewrite key_at_replicate in Hk. discriminate.
  - intros p k _ Hk. rewrite key_at_replicate in Hk. discriminate.
Qed.

Lemma key_at_vacate arr c q :
  0 <= c < Z.of_nat (length arr) -> 0 <= q ->
  key_at (<[Z.to_nat c := None]> arr) q
  = if Z.eq_dec q c then None else key_at arr q.
Proof. intros Hc Hq. now rewrite key_at_insert by assumption. Qed.

Lemma key_at_move arr c p k lpt q :
  0 <= c < Z.of_nat (length arr) -> 0 <= p < Z.of_nat (length arr) -> 0 <= q ->
  key_at (<[Z.to_nat p := Some (k, lpt)]> (<[Z.to_nat c := None]> arr)) q
  = if Z.eq_dec q p then Some k
    else if Z.eq_dec q c then None else key_at arr q.
Proof.
  intros Hc Hp Hq. rewrite key_at_insert by (rewrite ?length_insert; lia).
  destruct (Z.eq_dec q p); [reflexivity|]. now apply key_at_vacate.
Qed.

Lemma free_at_move arr c p k lpt q :
  0 <= c < Z.of_nat (length arr) -> 0 <= p < Z.of_nat (length arr) ->
  0 <= q < Z.of_nat (length arr) ->
  free_at (<[Z.to_nat p := Some (k, lpt)]> (<[Z.to_nat c := None]> arr)) q ->
  q <> p /\ (q = c \/ free_at arr q).
Proof.
  intros Hc Hp Hq. unfold free_at.
  destruct (Z.eq_dec q p) as [->|Hqp].
  - rewrite list_lookup_insert_eq by (rewrite length_insert; lia). discriminate.
  - rewrite list_lookup_insert_ne by lia. split; [exact Hqp|].
    destruct (Z.eq_dec q c) as [->|Hqc]; [now left|].
    rewrite list_lookup_insert_ne in H by lia. now right.
Qed.

Lemma repair_inv_start arr v k :
  probe_consistent arr ->
  0 <= v < Z.of_nat (length arr) -> key_at arr v = Some k ->
  repair_inv (<[Z.to_nat v := None]> arr) ((v + 1) mod Z.of_nat (length arr)).
Proof.
  intros [Hdist Hpath] Hv Hkv. unfold repair_inv. rewrite length_insert.
  set (n := Z.of_nat (length arr)) in *.
  split.
  - intros a b k0 Ha Hb. rewrite length_insert in Ha, Hb. fold n in Ha, Hb.
    rewrite !key_at_vacate by (fold n; lia).
    destruct (Z.eq_dec a v), (Z.eq_dec b v); try discriminate.
    apply Hdist; assumption.
  - intros p k0 Hp. rewrite key_at_vacate by (fold n; lia).
    destruct (Z.eq_dec p v) as [->|Hpv]; [discriminate|]. intros Hk0.
    destruct (Hpath p k0 Hp Hk0) as (h & Hh & Hclear). fold n in Hh, Hclear.
    exists h. split; [exact Hh|].
    assert (Hhr : 0 <= h < n) by (eapply hash_str_ok_range; [lia | exact Hh]).
    intros e He Hde Hfree.
    assert (e = v).
    { destruct (Z.eq_dec e v) as [|Hev]; [assumption|]. exfalso.
      apply free_at_insert_ne in Hfree; [|assumption|lia|lia].
      eapply occupied_not_free; [|exact Hfree]. now apply Hclear. }
    subst e. split; [clear - Hv Hp Hpv; circ|].
    intros q Hq Hdq.
    assert (Hqv : q <> v) by (clear - Hv Hp Hq Hpv Hdq; circ).
    assert (Hocc : occupied_at arr q).
    { destruct (Z.eq_dec q p) as [->|Hqp]; [now exists k0|].
      apply Hclear; [exact Hq|]. clear - Hv Hp Hq Hhr Hpv Hqv Hqp Hde Hdq. circ. }
    destruct Hocc as (kq & Hkq). exists kq.
    rewrite key_at_vacate by (fold n; lia).
    destruct (Z.eq_dec q v); [contradiction | exact Hkq].
Qed.

Lemma repair_inv_done arr c :
  repair_inv arr c -> 0 <= c < Z.of_nat (length arr) -> free_at arr c ->
  probe_consistent arr.
Proof.
  intros [Hdist Hinv] Hc Hfree. split; [exact Hdist|].
  intros p k Hp Hk. destruct (Hinv p k Hp Hk) as (h & Hh & Hgap).
  exists h. split; [exact Hh|]. intros q Hq Hd.
  destruct (cell_cases arr q Hq) as [Hocc|Hfq]; [exact Hocc|]. exfalso.
  destruct (Hgap q Hq Hd Hfq) as [_ Hrun].
  apply (occupied_not_free arr c); [|exact Hfree].
  apply Hrun; [exact Hc|].
  pose proof (disp_nonneg (Z.of_nat (length arr)) c p ltac:(lia)).
  clear - Hc Hp H. circ.
Qed.

Lemma repair_inv_step arr c k lpt h p :
  repair_inv arr c ->
  0 <= c < Z.of_nat (length arr) -> 0 <= p < Z.of_nat (length arr) ->
  arr !! Z.to_nat c = Some (Some (k, lpt)) ->
  hash_str (Z.of_nat (length arr)) k = Ok h ->
  free_at (<[Z.to_nat c := None]> arr) p ->
  (forall q, 0 <= q < Z.of_nat (length arr) ->
     disp (Z.of_nat (length arr)) h q < disp (Z.of_nat (length arr)) h p ->
     occupied_at (<[Z.to_nat c := None]> arr) q) ->
  repair_inv (<[Z.to_nat p := Some (k, lpt)]> (<[Z.to_nat c := None]> arr))
    ((c + 1) mod Z.of_nat (length arr)).
Proof.
  intros [Hdist Hinv] Hc Hp Hcell Hh Hfree Hclear.
  pose proof (cell_key_at _ _ _ _ Hcell) as Hkc.
  unfold repair_inv. rewrite !length_insert.
  set (n := Z.of_nat (length arr)) in *.
  assert (Hhr : 0 <= h < n) by (eapply hash_str_ok_range; [lia | exact Hh]).
  split.
  - intros a b k0 Ha Hb. rewrite !length_insert in Ha, Hb. fold n in Ha, Hb.
    rewrite !key_at_move by (fold n; lia).
    destruct (Z.eq_dec a p) as [->|Hap], (Z.eq_dec b p) as [->|Hbp];
      try reflexivity.
    + intros [= <-]. destruct (Z.eq_dec b c) as [->|Hbc]; [discriminate|].
      intros Hkb. exfalso. apply Hbc. apply (Hdist b c k); assumption.
    + destruct (Z.eq_dec a c) as [->|Hac]; [discriminate|].
      intros Hka [= <-]. exfalso. apply Hac. apply (Hdist a c k); assumption.
    + destruct (Z.eq_dec a c), (Z.eq_dec b c); try discriminate.
      apply Hdist; assumption.
  - intros q k0 Hq. rewrite key_at_move by (fold n; lia).
    destruct (Z.eq_dec q p) as [->|Hqp].
    + (* the entry that was moved: its path is clear *)
      intros [= <-]. exists h. split; [exact Hh|].
      intros e He Hde Hfe. exfalso.
      apply free_at_move in Hfe as [Hep Hfe]; try (fold n; lia).
      apply (occupied_not_free (<[Z.to_nat c := None]> arr) e).
      * now apply Hclear.
      * destruct Hfe as [->|Hfe].
        -- apply free_at_insert_same. fold n. lia.
        -- apply free_at_insert_ne; [|lia|lia|exact Hfe].
           intros ->. eapply key_at_free; eauto.
    + destruct (Z.eq_dec q c) as [->|Hqc]; [discriminate|]. intros Hk0.
      destruct (Hinv q k0 Hq Hk0) as (h0 & Hh0 & Hgap). fold n in Hh0, Hgap.
      assert (Hh0r : 0 <= h0 < n) by (eapply hash_str_ok_range; [lia | exact Hh0]).
      exists h0. split; [exact Hh0|].
      intros e He Hde Hfe.
      apply free_at_move in Hfe as [Hep Hfe]; try (fold n; lia).
      assert (Hkeep : forall x, 0 <= x < n -> x <> c -> occupied_at arr x ->
                occupied_at (<[Z.to_nat p := Some (k, lpt)]>
                               (<[Z.to_nat c := None]> arr)) x).
      { intros x Hx Hxc (kx & Hkx). unfold occupied_at.
        rewrite key_at_move by (fold n; lia).
        destruct (Z.eq_dec x p); [eauto|].
        destruct (Z.eq_dec x c); [contradiction | eauto]. }
      destruct Hfe as [->|Hfe].
      * (* the gap is the cell just vacated *)
        split; [clear - Hc Hq Hqc; circ|].
        intros x Hx Hdx.
        assert (Hxc : x <> c) by (clear - Hc Hq Hx Hqc Hdx; circ).
        apply Hkeep; [exact Hx | exact Hxc |].
        destruct (Z.eq_dec x q) as [->|Hxq]; [now exists k0|].
        destruct (cell_cases arr x Hx) as [Hocc|Hfx]; [exact Hocc|]. exfalso.
        assert (Hdxq : disp n h0 x < disp n h0 q)
          by (clear - Hc Hq Hx Hh0r Hqc Hxc Hxq Hde Hdx; circ).
        destruct (Hgap x Hx Hdxq Hfx) as [Hbound _].
        clear - Hc Hq Hx Hqc Hxc Hxq Hdx Hbound. circ.
      * (* the gap was there before *)
        assert (Hec : e <> c).
        { intros Heq. subst e. exact (key_at_free arr c k Hkc Hfe). }
        destruct (Hgap e He Hde Hfe) as [Hbound Hrun].
        split; [clear - Hc Hq He Hqc Hec Hbound; circ|].
        intros x Hx Hdx.
        assert (Hxc : x <> c) by (clear - Hc Hq Hx Hqc Hdx; circ).
        apply Hkeep; [exact Hx | exact Hxc |].
        apply Hrun; [exact Hx|]. clear - Hc Hq Hx Hqc Hxc Hdx. circ.
Qed.

Lemma has_entry_vacate arr c k lpt k' lpt' :
  distinct_keys arr ->
  0 <= c -> arr !! Z.to_nat c = Some (Some (k, lpt)) ->
  has_entry (<[Z.to_nat c := None]> arr) k' lpt'
  <-> k' <> k /\ has_entry arr k' lpt'.
Proof.
  intros Hdist Hc Hcell.
  assert (Hlt : (Z.to_nat c < length arr)%nat) by (eapply lookup_lt_Some; eauto).
  unfold has_entry. split.
  - intros (i & Hi). destruct (Nat.eq_dec i (Z.to_nat c)) as [->|Hne].
    + rewrite list_lookup_insert_eq in Hi by lia. discriminate.
    + rewrite list_lookup_insert_ne in Hi by lia. split; [|eauto].
      intros ->. apply Hne.
      destruct (entry_position _ _ _ _ Hi) as [Hir Hik].
      assert (Z.of_nat i = c); [|lia].
      eapply Hdist; eauto; [lia|]. eapply cell_key_at; eauto.
  - intros [Hne (i & Hi)]. exists i.
    rewrite list_lookup_insert_ne; [exact Hi|]. intros <-. congruence.
Qed.

End CellTheory.

(** ** The nested table *)

Section Nested.

Context {V : Type}.

Implicit Types (lpt : LinearProbeTable V) (items : list (string * V))
  (arr : list (option (string * V))).

Lemma lpt_index_lookup key items i :
  lpt_index key items = Some i ->
  exists k v, items !! i = Some (k, v) /\ lpt_lookup key items = Some v.
Proof.
  revert i. induction items as [|[k v] rest IH]; intros i; simpl; [discriminate|].
  destruct (String.eqb k key).
  - intros [= <-]. eauto.
  - destruct (lpt_index key rest) as [j|]; [|discriminate].
    intros [= <-]. destruct (IH j eq_refl) as (k' & v' & Hj & Hl). eauto.
Qed.

Lemma lpt_index_none key items :
  lpt_index key items = None -> lpt_lookup key items = None.
Proof.
  induction items as [|[k v] rest IH]; simpl; [reflexivity|].
  destruct (String.eqb k key); [discriminate|].
  destruct (lpt_index key rest); [discriminate | auto].
Qed.

Lemma lpt_is_empty_lookup lpt :
  lpt_is_empty lpt = false -> exists key v, lpt_lookup key (lpt_items lpt) = Some v.
Proof.
  unfold lpt_is_empty. destruct (lpt_items lpt) as [|[k v] rest]; [discriminate|].
  intros _. exists k, v. simpl. now rewrite String.eqb_refl.
Qed.

Lemma lpt_is_empty_no_lookup lpt key :
  lpt_is_empty lpt = true -> lpt_lookup key (lpt_items lpt) = None.
Proof.
  unfold lpt_is_empty. destruct (lpt_items lpt) as [|kv rest]; [reflexivity|].
  discriminate.
Qed.

Lemma lpt_lookup_elem key items v :
  lpt_lookup key items = Some v -> (key, v) ∈ items.
Proof.
  induction items as [|[k v'] rest IH]; simpl; [discriminate|].
  destruct (String.eqb_spec k key) as [->|Hk].
  - intros [= ->]. left.
  - intros H. right. auto.
Qed.

Lemma lpt_lookup_none key items :
  lpt_lookup key items = None <-> key ∉ items.*1.
Proof.
  induction items as [|[k v'] rest IH]; simpl.
  - split; [intros _; apply not_elem_of_nil | reflexivity].
  - rewrite not_elem_of_cons. destruct (String.eqb_spec k key) as [->|Hk].
    + split; [discriminate | intros [? _]; congruence].
    + rewrite IH. split; [intros ?; split; [congruence | assumption] | now intros [_ ?]].
Qed.

Lemma lpt_keys_lookup key lpt :
  key ∈ lpt_keys lpt <-> exists v, lpt_lookup key (lpt_items lpt) = Some v.
Proof.
  unfold lpt_keys. split.
  - intros Hin. destruct (lpt_lookup key (lpt_items lpt)) as [v|] eqn:Hl; [eauto|].
    apply lpt_lookup_none in Hl. contradiction.
  - intros (v & Hl). apply lpt_lookup_elem in Hl.
    apply list_elem_of_fmap. exists (key, v). auto.
Qed.

Lemma lpt_elem_lookup key items v :
  NoDup items.*1 -> (key, v) ∈ items -> lpt_lookup key items = Some v.
Proof.
  induction items as [|[k v'] rest IH]; simpl; intros Hnd Hin.
  - now apply elem_of_nil in Hin.
  - apply NoDup_cons in Hnd as [Hk Hnd].
    apply elem_of_cons in Hin as [[= <- <-]|Hin].
    + now rewrite String.eqb_refl.
    + destruct (String.eqb_spec k key) as [->|Hne]; [|auto].
      exfalso. apply Hk. apply list_elem_of_fmap. exists (key, v). auto.
Qed.

Lemma lpt_values_lookup v lpt :
  NoDup (lpt_keys lpt) ->
  v ∈ lpt_values lpt <-> exists key, lpt_lookup key (lpt_items lpt) = Some v.
Proof.
  intros Hnd. unfold lpt_values. split.
  - intros Hin. apply list_elem_of_fmap in Hin as ([k v'] & -> & Hin).
    exists k. now apply lpt_elem_lookup.
  - intros (key & Hl). apply lpt_lookup_elem in Hl.
    apply list_elem_of_fmap. exists (key, v). auto.
Qed.

(** *** Entries and cells *)

Lemma items_elem arr k v : (k, v) ∈ omap id arr <-> has_entry arr k v.
Proof.
  rewrite list_elem_of_omap. split.
  - intros (cell & Hin & Hcell). simpl in Hcell. subst cell.
    apply list_elem_of_lookup in Hin as (i & Hi). now exists i.
  - intros (i & Hi). exists (Some (k, v)). split; [|reflexivity].
    eapply list_elem_of_lookup_2; eauto.
Qed.

Lemma items_keys_cons (cell : option (string * V)) arr :
  (omap id (cell :: arr)).*1
  = match cell with
    | Some (k, _) => k :: (omap id arr).*1
    | None => (omap id arr).*1
    end.
Proof. destruct cell as [[k v]|]; reflexivity. Qed.

Lemma distinct_keys_items arr : distinct_keys arr -> NoDup (omap id arr).*1.
Proof.
  intros Hdist.
  assert (Hnat : forall (i j : nat) k v v',
            arr !! i = Some (Some (k, v)) -> arr !! j = Some (Some (k, v')) ->
            i = j).
  { intros i j k v v' Hi Hj.
    destruct (entry_position _ _ _ _ Hi) as [Hir Hik].
    destruct (entry_position _ _ _ _ Hj) as [Hjr Hjk].
    assert (Z.of_nat i = Z.of_nat j) by (eapply Hdist; eauto). lia. }
  clear Hdist. induction arr as [|cell rest IH]; [constructor|].
  rewrite items_keys_cons.
  assert (Hrest : NoDup (omap id rest).*1).
  { apply IH. intros i j k v v' Hi Hj.
    assert (S i = S j) by (eapply Hnat; eauto). lia. }
  destruct cell as [[k v]|]; [|exact Hrest].
  constructor; [|exact Hrest].
  intros Hin. apply list_elem_of_fmap in Hin as ([k' v'] & Hk & Hin).
  simpl in Hk. subst k'. apply items_elem in Hin as (j & Hj).
  assert (O = S j) by (eapply (Hnat O (S j)); eauto; reflexivity).
  discriminate.
Qed.

Lemma lpt_keys_NoDup lpt : distinct_keys (lpt_array lpt) -> NoDup (lpt_keys lpt).
Proof. apply distinct_keys_items. Qed.

(** In a table with distinct keys the value found for a key is the content
    of the cell that holds the key. *)
Lemma lpt_lookup_entry lpt k v :
  distinct_keys (lpt_array lpt) ->
  lpt_lookup k (lpt_items lpt) = Some v <-> has_entry (lpt_array lpt) k v.
Proof.
  intros Hdist. unfold lpt_items. rewrite <- items_elem. split.
  - apply lpt_lookup_elem.
  - apply lpt_elem_lookup. now apply distinct_keys_items.
Qed.

Lemma lpt_lookup_absent lpt k :
  lpt_lookup k (lpt_items lpt) = None <->
  forall q, 0 <= q -> key_at (lpt_array lpt) q <> Some k.
Proof.
  rewrite lpt_lookup_none. unfold lpt_items. split.
  - intros Hnot q Hq Hk. apply Hnot.
    destruct (key_at_cell _ _ _ Hq Hk) as (v & Hcell).
    apply list_elem_of_fmap. exists (k, v). split; [reflexivity|].
    apply items_elem. now exists (Z.to_nat q).
  - intros Habs Hin. apply list_elem_of_fmap in Hin as ([k' v] & Hk & Hin).
    simpl in Hk. subst k'. apply items_elem in Hin as (i & Hi).
    apply (Habs (Z.of_nat i)); [lia|].
    apply (cell_key_at _ _ _ v). now rewrite Nat2Z.id.
Qed.

(** *** The nested probe *)

Lemma lpt_cell_lookup arr p (cell : option (string * V)) :
  0 <= p -> arr !! Z.to_nat p = Some cell -> lpt_cell arr p = Ok cell.
Proof.
  unfold lpt_cell. intros Hp Hcell.
  destruct (Z.ltb_spec p 0) as [?|_]; [lia|]. now rewrite Hcell.
Qed.

Lemma lpt_probe_loop_scan key is_insert arr fuel : forall pos,
  lpt_probe_loop fuel key is_insert arr pos
  = lpt_probe_outcome is_insert (scan arr key fuel pos).
Proof.
  induction fuel as [|fuel IH]; intros pos; simpl; [reflexivity|].
  unfold lpt_cell. destruct (pos <? 0); [reflexivity|].
  destruct (arr !! Z.to_nat pos) as [[[k v]|]|]; simpl; try reflexivity.
  destruct (String.eqb k key); [reflexivity | apply IH].
Qed.

Lemma lpt_linear_probe_scan lpt key is_insert h :
  hash2 key lpt = Ok h ->
  lpt_linear_probe key is_insert lpt
  = lpt_probe_outcome is_insert
      (scan (lpt_array lpt) key (length (lpt_array lpt)) h).
Proof.
  intros Hh. unfold lpt_linear_probe. rewrite Hh. simpl.
  apply lpt_probe_loop_scan.
Qed.

Lemma lpt_linear_probe_hash_raises lpt key is_insert e :
  hash2 key lpt = Raise e -> lpt_linear_probe key is_insert lpt = Raise e.
Proof. intros Hh. unfold lpt_linear_probe. now rewrite Hh. Qed.

Lemma hash2_range lpt key h :
  hash2 key lpt = Ok h -> 1 <= lpt_table_size lpt -> 0 <= h < lpt_table_size lpt.
Proof. intros Hh Hn. eapply hash_str_ok_range; eauto. Qed.

(** The probe for a stored key stops at its cell, in both modes. *)
Lemma lpt_probe_stored lpt p k v is_insert :
  probe_consistent (lpt_array lpt) ->
  0 <= p -> lpt_array lpt !! Z.to_nat p = Some (Some (k, v)) ->
  lpt_linear_probe k is_insert lpt = Ok p.
Proof.
  intros Hcons Hp Hcell.
  assert (Hr : 0 <= p < Z.of_nat (length (lpt_array lpt))).
  { apply lookup_lt_Some in Hcell. lia. }
  destruct (scan_stored (lpt_array lpt) k p Hcons Hr (cell_key_at _ _ _ _ Hcell))
    as (h & Hh & _ & Hscan).
  rewrite (lpt_linear_probe_scan lpt k is_insert h Hh), Hscan. reflexivity.
Qed.

(** What a probe that returns has found. *)
Lemma lpt_probe_ok lpt key is_insert p :
  lpt_linear_probe key is_insert lpt = Ok p ->
  0 <= p < lpt_table_size lpt /\
  exists h, hash2 key lpt = Ok h /\ 0 <= h < lpt_table_size lpt /\
    ((scan (lpt_array lpt) key (length (lpt_array lpt)) h = Hit p /\
      key_at (lpt_array lpt) p = Some key) \/
     (scan (lpt_array lpt) key (length (lpt_array lpt)) h = Free p /\
      is_insert = true /\ free_at (lpt_array lpt) p /\
      forall q, 0 <= q < lpt_table_size lpt ->
        disp (lpt_table_size lpt) h q < disp (lpt_table_size lpt) h p ->
        other_at (lpt_array lpt) key q)).
Proof.
  intros Hprobe.
  destruct (hash2 key lpt) as [h|e] eqn:Hh.
  2:{ rewrite (lpt_linear_probe_hash_raises _ _ _ _ Hh) in Hprobe. discriminate. }
  rewrite (lpt_linear_probe_scan _ _ _ _ Hh) in Hprobe.
  destruct (lpt_array lpt) as [|c0 rest] eqn:Harr;
    [simpl in Hprobe; destruct is_insert; discriminate|].
  rewrite <- Harr in *.
  assert (Hn : 1 <= lpt_table_size lpt).
  { unfold lpt_table_size. rewrite Harr. simpl. lia. }
  pose proof (hash2_range _ _ _ Hh Hn) as Hr. unfold lpt_table_size in *.
  pose proof (scan_spec (lpt_array lpt) key (length (lpt_array lpt)) h Hr) as Hs.
  destruct (scan (lpt_array lpt) key (length (lpt_array lpt)) h) as [q|q| |]
    eqn:Hscan; simpl in Hprobe; try discriminate.
  - injection Hprobe as ->. destruct Hs as (Hp & Hkey & _).
    split; [exact Hp|]. exists h. split; [reflexivity|]. split; [exact Hr|].
    left. split; [exact Hscan | exact Hkey].
  - destruct is_insert; [|discriminate]. injection Hprobe as ->.
    destruct Hs as (Hp & Hfree & _ & Hq).
    split; [exact Hp|]. exists h. split; [reflexivity|]. split; [exact Hr|].
    right. split; [exact Hscan|]. auto.
Qed.

(** The lookup probe for a key that no cell holds raises [KeyError] once
    its hash has returned. *)
Lemma lpt_probe_absent lpt key h :
  lpt_lookup key (lpt_items lpt) = None ->
  hash2 key lpt = Ok h ->
  lpt_linear_probe key false lpt = Raise KeyError.
Proof.
  intros Habs Hh. rewrite (lpt_linear_probe_scan _ _ _ _ Hh).
  destruct (lpt_array lpt) as [|c0 rest] eqn:Harr; [reflexivity|].
  rewrite <- Harr in *.
  assert (Hn : 1 <= lpt_table_size lpt).
  { unfold lpt_table_size. rewrite Harr. simpl. lia. }
  pose proof (hash2_range _ _ _ Hh Hn) as Hr. unfold lpt_table_size in *.
  pose proof (scan_spec (lpt_array lpt) key (length (lpt_array lpt)) h Hr) as Hs.
  destruct (scan (lpt_array lpt) key (length (lpt_array lpt)) h) as [q|q| |];
    simpl; try reflexivity; [|contradiction].
  destruct Hs as (Hq & Hkey & _). exfalso.
  apply (proj1 (lpt_lookup_absent lpt key) Habs q (proj1 Hq) Hkey).
Qed.

(** The second-key probe followed by the read of the value cell, as
    [__getitem__] performs them, in a consistent nested table. *)
Lemma lpt_probe_read key lpt :
  probe_consistent (lpt_array lpt) ->
  match lpt_lookup key (lpt_items lpt) with
  | Some v =>
      exists q, lpt_linear_probe key false lpt = Ok q /\
        lpt_cell (lpt_array lpt) q = Ok (Some (key, v))
  | None =>
      exists e, lpt_linear_probe key false lpt = Raise e /\
        (forall h, hash2 key lpt = Ok h -> e = KeyError)
  end.
Proof.
  intros Hcons. destruct (lpt_lookup key (lpt_items lpt)) as [v|] eqn:Hl.
  - apply (lpt_lookup_entry lpt key v (proj1 Hcons)) in Hl.
    destruct (has_entry_key_at _ _ _ Hl) as (p & Hp & _ & Hcell).
    exists p. split.
    + apply (lpt_probe_stored lpt p key v false Hcons (proj1 Hp) Hcell).
    + apply lpt_cell_lookup; [lia | exact Hcell].
  - destruct (hash2 key lpt) as [h|e] eqn:Hh.
    + exists KeyError. split; [|reflexivity].
      eapply lpt_probe_absent; eauto.
    + exists e. split; [|discriminate].
      now apply lpt_linear_probe_hash_raises.
Qed.

(** *** Insertion into a nested table *)

Lemma lpt_new_inv sizes lpt :
  lpt_new sizes = Ok lpt ->
  exists n, sizes !! O = Some n /\
    lpt = {| lpt_sizes := sizes; lpt_size_index := O; lpt_array := ArrayR n |}.
Proof.
  unfold lpt_new. destruct (sizes !! O) as [n|]; [|discriminate].
  intros [= <-]. eauto.
Qed.

Lemma items_replicate (n : nat) : omap id (replicate n (@None (string * V))) = [].
Proof. induction n as [|n IH]; [reflexivity | exact IH]. Qed.

Lemma lpt_new_empty sizes lpt :
  lpt_new sizes = Ok lpt ->
  probe_consistent (lpt_array lpt) /\ lpt_is_empty lpt = true /\
  lpt_items lpt = [] /\ lpt_sizes lpt = sizes.
Proof.
  intros Hnew. apply lpt_new_inv in Hnew as (n & _ & ->). simpl.
  split; [apply probe_consistent_empty|].
  unfold lpt_is_empty, lpt_items, ArrayR. simpl. rewrite items_replicate. auto.
Qed.

Lemma items_cons (cell : option (string * V)) arr :
  omap id (cell :: arr)
  = match cell with
    | Some kv => kv :: omap id arr
    | None => omap id arr
    end.
Proof. destruct cell; reflexivity. Qed.

Lemma items_insert_free arr : forall (i : nat) (kv : string * V),
  arr !! i = Some None ->
  length (omap id (<[i := Some kv]> arr)) = S (length (omap id arr)).
Proof.
  induction arr as [|cell rest IH]; intros i kv Hi; [discriminate|].
  destruct i as [|i]; simpl in Hi.
  - injection Hi as ->. reflexivity.
  - change (<[S i := Some kv]> (cell :: rest)) with (cell :: <[i := Some kv]> rest).
    specialize (IH i kv Hi). rewrite !items_cons.
    destruct cell as [kv'|]; simpl; now rewrite IH.
Qed.

(** A key that the insert probe does not hit is held by no cell of a
    consistent array. *)
Lemma scan_free_absent arr key h p :
  probe_consistent arr ->
  hash_str (Z.of_nat (length arr)) key = Ok h ->
  scan arr key (length arr) h = Free p ->
  forall q, 0 <= q < Z.of_nat (length arr) -> key_at arr q <> Some key.
Proof.
  intros Hcons Hh Hscan q Hq Hk.
  destruct (scan_stored arr key q Hcons Hq Hk) as (h' & Hh' & _ & Hhit).
  congruence.
Qed.

(** Storing an entry in the cell its insert probe returns. *)
Lemma lpt_store_result lpt key data p :
  probe_consistent (lpt_array lpt) ->
  lpt_linear_probe key true lpt = Ok p ->
  let arr' := <[Z.to_nat p := Some (key, data)]> (lpt_array lpt) in
  probe_consistent arr' /\
  (forall k v, has_entry arr' k v <->
     (k = key /\ v = data) \/ (k <> key /\ has_entry (lpt_array lpt) k v)) /\
  (free_at (lpt_array lpt) p ->
     forall q, 0 <= q < lpt_table_size lpt -> key_at (lpt_array lpt) q <> Some key).
Proof.
  intros Hcons Hprobe arr'.
  destruct (lpt_probe_ok _ _ _ _ Hprobe)
    as (Hp & h & Hh & Hhr & [[Hscan Hkey]|(Hscan & _ & Hfree & Hclear)]).
  - destruct (key_at_cell _ _ _ (proj1 Hp) Hkey) as (v0 & Hcell).
    split; [|split].
    + apply probe_consistent_update; assumption.
    + intros k v. unfold arr'.
      apply (has_entry_update (lpt_array lpt) p key v0 (key, data).2 k v
               (proj1 Hcons) (proj1 Hp) Hcell).
    + intros Hfree. exfalso. eapply key_at_free; eauto.
  - unfold lpt_table_size in *.
    pose proof (scan_free_absent (lpt_array lpt) key h p Hcons Hh Hscan) as Habs.
    split; [|split].
    + apply (probe_consistent_insert (lpt_array lpt) key h p data Hcons Habs Hh Hp Hfree).
      intros q Hq Hd. eapply other_occupied. now apply Hclear.
    + intros k v. unfold arr'.
      rewrite (has_entry_insert_free (lpt_array lpt) p key data k v Hp Hfree).
      split.
      * intros [He|[-> ->]]; [|now left].
        destruct (string_dec k key) as [->|Hk]; [|now right].
        exfalso. destruct (has_entry_key_at _ _ _ He) as (q & Hq & Hkq & _).
        now apply (Habs q Hq).
      * intros [[-> ->]|[_ He]]; auto.
    + intros _. exact Habs.
Qed.

(** The re-seating loop of the growth keeps consistency and adds exactly
    the old entries. *)
Lemma lpt_rehash_loop_result old : forall lpt lpt',
  probe_consistent (lpt_array lpt) ->
  NoDup (omap id old).*1 ->
  (forall k, k ∈ (omap id old).*1 ->
     forall q, 0 <= q < lpt_table_size lpt -> key_at (lpt_array lpt) q <> Some k) ->
  lpt_rehash_loop old lpt = Ok lpt' ->
  probe_consistent (lpt_array lpt') /\
  (forall k v, has_entry (lpt_array lpt') k v <->
     has_entry (lpt_array lpt) k v \/ Some (k, v) ∈ old) /\
  lpt_sizes lpt' = lpt_sizes lpt /\ lpt_size_index lpt' = lpt_size_index lpt /\
  lpt_table_size lpt' = lpt_table_size lpt.
Proof.
  induction old as [|cell rest IH]; intros lpt lpt' Hcons Hnd Hfresh Hloop.
  - injection Hloop as <-. split; [exact Hcons|]. split; [|auto].
    intros k v. split; [auto|]. intros [?|Hin]; [assumption|].
    now apply elem_of_nil in Hin.
  - rewrite items_keys_cons in Hnd, Hfresh.
    destruct cell as [[k v]|]; simpl in Hloop.
    + destruct (lpt_linear_probe k true lpt) as [p|e] eqn:Hprobe; [|discriminate].
      simpl in Hloop.
      apply NoDup_cons in Hnd as [Hnotin Hnd].
      destruct (lpt_probe_ok _ _ _ _ Hprobe)
        as (Hp & h & Hh & Hhr & [[Hscan Hkey]|(Hscan & _ & Hfree & Hclear)]).
      { exfalso. apply (Hfresh k ltac:(left) p Hp Hkey). }
      destruct (lpt_store_result lpt k v p Hcons Hprobe) as (Hcons1 & Hent1 & _).
      destruct (IH (lpt_store p (Some (k, v)) lpt) lpt')
        as (Hcons' & Hentries & F1 & F2 & F3).
      * exact Hcons1.
      * exact Hnd.
      * intros k' Hin q Hq. unfold lpt_table_size in *. simpl in Hq |- *.
        rewrite length_insert in Hq.
        rewrite key_at_insert by lia.
        destruct (Z.eq_dec q p) as [->|Hqp]; simpl.
        -- intros [= ->]. contradiction.
        -- apply Hfresh; [now right | exact Hq].
      * exact Hloop.
      * split; [exact Hcons'|]. split.
        -- intros k' v'. rewrite Hentries. simpl.
           rewrite (has_entry_insert_free (lpt_array lpt) p k v k' v')
             by (unfold lpt_table_size in Hp; assumption).
           rewrite elem_of_cons. split.
           ++ intros [[?|[-> ->]]|?]; auto.
           ++ intros [?|[[= -> ->]|?]]; auto.
        -- split; [exact F1|]. split; [exact F2|]. rewrite F3.
           unfold lpt_table_size. simpl. now rewrite length_insert.
    + destruct (IH lpt lpt' Hcons Hnd Hfresh Hloop) as (Hcons' & Hentries & F).
      split; [exact Hcons'|]. split; [|exact F].
      intros k' v'. rewrite Hentries, elem_of_cons. split.
      * intros [?|?]; auto.
      * intros [?|[?|?]]; auto. discriminate.
Qed.

Lemma lpt_rehash_result lpt lpt' :
  probe_consistent (lpt_array lpt) ->
  lpt_rehash lpt = Ok lpt' ->
  probe_consistent (lpt_array lpt') /\
  (forall k v, has_entry (lpt_array lpt') k v <-> has_entry (lpt_array lpt) k v) /\
  lpt_sizes lpt' = lpt_sizes lpt.
Proof.
  intros Hcons Hre. unfold lpt_rehash in Hre.
  destruct (lpt_sizes lpt !! S (lpt_size_index lpt)) as [n|].
  2:{ injection Hre as <-. split; [exact Hcons|]. split; [reflexivity|reflexivity]. }
  apply lpt_rehash_loop_result in Hre as (Hcons' & Hentries & F1 & _); simpl.
  - split; [exact Hcons'|]. split; [|exact F1].
    intros k v. rewrite Hentries. simpl. split.
    + intros [(i & Hi)|Hin].
      * unfold ArrayR in Hi. apply lookup_replicate in Hi as [? _]. discriminate.
      * apply list_elem_of_lookup in Hin as (i & Hi). now exists i.
    + intros (i & Hi). right. eapply list_elem_of_lookup_2; eauto.
  - apply probe_consistent_empty.
  - apply distinct_keys_items, Hcons.
  - intros k _ q _. unfold ArrayR. rewrite key_at_replicate. discriminate.
Qed.

(** A completed [set] keeps consistency, stores its entry and keeps every
    other entry. *)
Lemma lpt_setitem_entries key data lpt lpt' :
  probe_consistent (lpt_array lpt) ->
  lpt_setitem key data lpt = Ok lpt' ->
  probe_consistent (lpt_array lpt') /\
  (forall k v, has_entry (lpt_array lpt') k v <->
     (k = key /\ v = data) \/ (k <> key /\ has_entry (lpt_array lpt) k v)) /\
  lpt_sizes lpt' = lpt_sizes lpt.
Proof.
  intros Hcons Hset. unfold lpt_setitem in Hset.
  destruct (lpt_linear_probe key true lpt) as [p|e] eqn:Hprobe; [|discriminate].
  simpl in Hset.
  destruct (lpt_cell (lpt_array lpt) p) as [cell|e]; [|discriminate]. simpl in Hset.
  destruct (lpt_store_result lpt key data p Hcons Hprobe) as (Hcons1 & Hent1 & _).
  assert (Hplain : lpt_store p (Some (key, data)) lpt = lpt' ->
            probe_consistent (lpt_array lpt') /\
            (forall k v, has_entry (lpt_array lpt') k v <->
               (k = key /\ v = data) \/ (k <> key /\ has_entry (lpt_array lpt) k v)) /\
            lpt_sizes lpt' = lpt_sizes lpt).
  { intros <-. split; [exact Hcons1|]. split; [exact Hent1 | reflexivity]. }
  destruct cell as [kv|].
  - injection Hset as Hset. now apply Hplain.
  - destruct (2 * lpt_len (lpt_store p (Some (key, data)) lpt)
              >? lpt_table_size (lpt_store p (Some (key, data)) lpt)).
    + destruct (lpt_rehash_result (lpt_store p (Some (key, data)) lpt) lpt'
                  Hcons1 Hset) as (Hcons' & Hentries & F).
      split; [exact Hcons'|]. split; [|exact F].
      intros k v. rewrite Hentries. apply Hent1.
    + injection Hset as Hset. now apply Hplain.
Qed.

Lemma lpt_setitem_spec key data lpt lpt' :
  probe_consistent (lpt_array lpt) ->
  lpt_setitem key data lpt = Ok lpt' ->
  probe_consistent (lpt_array lpt') /\
  lpt_lookup key (lpt_items lpt') = Some data /\
  (forall key', key' <> key ->
     lpt_lookup key' (lpt_items lpt') = lpt_lookup key' (lpt_items lpt)) /\
  lpt_is_empty lpt' = false /\ lpt_sizes lpt' = lpt_sizes lpt.
Proof.
  intros Hcons Hset.
  destruct (lpt_setitem_entries key data lpt lpt' Hcons Hset) as (Hcons' & Hent & F).
  assert (Hkey : lpt_lookup key (lpt_items lpt') = Some data).
  { apply (lpt_lookup_entry lpt' key data (proj1 Hcons')). apply Hent. now left. }
  split; [exact Hcons'|]. split; [exact Hkey|]. split; [|split; [|exact F]].
  - intros key' Hne.
    destruct (lpt_lookup key' (lpt_items lpt)) as [v|] eqn:Hl.
    + apply (lpt_lookup_entry lpt' key' v (proj1 Hcons')). apply Hent. right.
      split; [exact Hne|]. now apply (lpt_lookup_entry lpt key' v (proj1 Hcons)).
    + destruct (lpt_lookup key' (lpt_items lpt')) as [v|] eqn:Hl'; [|reflexivity].
      apply (lpt_lookup_entry lpt' key' v (proj1 Hcons')) in Hl'.
      apply Hent in Hl' as [[? _]|[_ He]]; [contradiction|].
      apply (lpt_lookup_entry lpt key' v (proj1 Hcons)) in He. congruence.
  - destruct (lpt_is_empty lpt') eqn:Hempty; [|reflexivity].
    rewrite (lpt_is_empty_no_lookup lpt' key Hempty) in Hkey. discriminate.
Qed.

(** Overwriting the value of a stored key always completes. *)
Lemma lpt_setitem_overwrite key data lpt v :
  probe_consistent (lpt_array lpt) ->
  lpt_lookup key (lpt_items lpt) = Some v ->
  exists lpt', lpt_setitem key data lpt = Ok lpt'.
Proof.
  intros Hcons Hl.
  apply (lpt_lookup_entry lpt key v (proj1 Hcons)) in Hl.
  destruct (has_entry_key_at _ _ _ Hl) as (p & Hp & _ & Hcell).
  unfold lpt_setitem.
  rewrite (lpt_probe_stored lpt p key v true Hcons (proj1 Hp) Hcell). simpl.
  rewrite (lpt_cell_lookup _ _ _ (proj1 Hp) Hcell). simpl. eauto.
Qed.

(** The first insertion into a new nested table of capacity at least 2
    completes. *)
Lemma lpt_setitem_new sizes lpt0 key data :
  lpt_new sizes = Ok lpt0 -> 2 <= lpt_table_size lpt0 ->
  exists lpt', lpt_setitem key data lpt0 = Ok lpt'.
Proof.
  intros Hnew Hsize. apply lpt_new_inv in Hnew as (n & _ & ->).
  unfold lpt_table_size in Hsize. simpl in Hsize.
  destruct (hash_str_range _ key Hsize) as (h & Hh & Hr).
  set (lpt0 := {| lpt_sizes := sizes; lpt_size_index := O;
                  lpt_array := ArrayR (A:=string * V) n |}).
  assert (Hcell : lpt_array lpt0 !! Z.to_nat h = Some None).
  { simpl. unfold ArrayR in *. apply lookup_replicate. split; [reflexivity|].
    rewrite length_replicate in Hr. lia. }
  assert (Hprobe : lpt_linear_probe key true lpt0 = Ok h).
  { rewrite (lpt_linear_probe_scan lpt0 key true h Hh).
    destruct (length (lpt_array lpt0)) as [|m] eqn:Hlen.
    { simpl in Hlen. rewrite Hlen in Hr. lia. }
    simpl scan. destruct (Z.ltb_spec h 0) as [?|_]; [lia|].
    simpl in Hcell. now rewrite Hcell. }
  unfold lpt_setitem. rewrite Hprobe. cbn [rbind].
  rewrite (lpt_cell_lookup _ _ _ (proj1 Hr) Hcell). cbn [rbind].
  assert (Hlen : lpt_len (lpt_store h (Some (key, data)) lpt0) = 1).
  { unfold lpt_len, lpt_items, lpt_store, lpt0. cbn [lpt_array].
    rewrite (items_insert_free (ArrayR n) (Z.to_nat h) (key, data) Hcell).
    unfold ArrayR. now rewrite items_replicate. }
  rewrite Hlen.
  assert (Hcap : lpt_table_size (lpt_store h (Some (key, data)) lpt0)
                 = Z.of_nat (length (ArrayR (A:=string * V) n))).
  { unfold lpt_table_size. simpl. now rewrite length_insert. }
  rewrite Hcap.
  destruct (Z.gtb_spec (2 * 1) (Z.of_nat (length (ArrayR (A:=string * V) n))));
    [lia | eauto].
Qed.

(** *** Deletion from a nested table *)

Lemma lpt_repair_loop_free fuel c lpt :
  0 <= c -> free_at (lpt_array lpt) c -> lpt_repair_loop fuel c lpt = Some (Ok lpt).
Proof.
  intros Hc Hfree. destruct fuel; simpl;
    now rewrite (lpt_cell_lookup _ _ _ Hc Hfree).
Qed.

Lemma lpt_repair_loop_step fuel c lpt k v :
  0 <= c -> lpt_array lpt !! Z.to_nat c = Some (Some (k, v)) ->
  lpt_repair_loop (S fuel) c lpt
  = match lpt_linear_probe k true (lpt_store c None lpt) with
    | Raise e => Some (Raise e)
    | Ok newpos =>
        lpt_repair_loop fuel ((c + 1) mod lpt_table_size lpt)
          (lpt_store newpos (Some (k, v)) (lpt_store c None lpt))
    end.
Proof. intros Hc Hcell. simpl. now rewrite (lpt_cell_lookup _ _ _ Hc Hcell). Qed.

(** What the probe of one iteration of the repair walk returns. *)
Lemma lpt_repair_probe_cases lpt c k :
  0 <= c < lpt_table_size lpt ->
  let n := lpt_table_size lpt in
  let arr2 := <[Z.to_nat c := None]> (lpt_array lpt) in
  (exists e, hash_str n k = Raise e /\
     lpt_linear_probe k true (lpt_store c None lpt) = Raise e) \/
  (exists h p, hash_str n k = Ok h /\ 0 <= h < n /\ 0 <= p < n /\
     disp n h p <= disp n h c /\
     ((scan arr2 k (length arr2) h = Free p /\ free_at arr2 p) \/
      (scan arr2 k (length arr2) h = Hit p /\ key_at arr2 p = Some k)) /\
     lpt_linear_probe k true (lpt_store c None lpt) = Ok p).
Proof.
  intros Hc n arr2. unfold lpt_table_size in Hc.
  assert (Hlen : length arr2 = length (lpt_array lpt)) by apply length_insert.
  assert (Hsize : lpt_table_size (lpt_store c None lpt) = n).
  { unfold lpt_table_size, n. simpl. now rewrite length_insert. }
  destruct (hash_str n k) as [h|e] eqn:Hh.
  - right.
    assert (Hhr : 0 <= h < n).
    { eapply hash_str_ok_range; [|exact Hh]. unfold n, lpt_table_size. lia. }
    assert (Hfree : free_at arr2 c) by (apply free_at_insert_same; exact Hc).
    destruct (scan_finds_with_free arr2 k h c) as (p & Hp & Hd & Hscan).
    { rewrite Hlen. exact Hhr. }
    { rewrite Hlen. exact Hc. }
    { exact Hfree. }
    rewrite Hlen in Hp, Hd. fold (lpt_table_size lpt) in Hp, Hd. fold n in Hp, Hd.
    exists h, p. repeat (split; [first [reflexivity | assumption | lia]|]).
    assert (Hh2 : hash2 k (lpt_store c None lpt) = Ok h).
    { unfold hash2. now rewrite Hsize. }
    rewrite (lpt_linear_probe_scan _ _ _ _ Hh2).
    change (lpt_array (lpt_store c None lpt)) with arr2.
    destruct Hscan as [[-> _]|[-> _]]; reflexivity.
  - left. exists e. split; [reflexivity|].
    apply lpt_linear_probe_hash_raises. unfold hash2. now rewrite Hsize.
Qed.

(** From a state with a free cell the walk reaches an empty cell (or
    raises) within finitely many iterations. *)
Lemma lpt_repair_loop_terminates (m : nat) : forall lpt c f,
  total_weight (lpt_array lpt) <= Z.of_nat m ->
  0 <= c < lpt_table_size lpt -> 0 <= f < lpt_table_size lpt ->
  free_at (lpt_array lpt) f ->
  exists fuel out, lpt_repair_loop fuel c lpt = Some out.
Proof.
  induction m as [m IHm] using lt_wf_ind. intros lpt c f Hw Hc Hf Hfree.
  remember (Z.to_nat (disp (lpt_table_size lpt) c f)) as d eqn:Hd.
  revert c Hc Hd. induction d as [|d IHd]; intros c Hc Hd.
  - assert (c = f).
    { pose proof (disp_nonneg (lpt_table_size lpt) c f ltac:(lia)). circ. }
    subst c. exists O. eexists. apply lpt_repair_loop_free; [lia | exact Hfree].
  - destruct (lookup_lt_is_Some_2 (lpt_array lpt) (Z.to_nat c)) as [cell Hcell].
    { unfold lpt_table_size in Hc. lia. }
    destruct cell as [[k v]|].
    2:{ exists O. eexists. apply lpt_repair_loop_free; [lia | exact Hcell]. }
    destruct (lpt_repair_probe_cases lpt c k Hc)
      as [(e & _ & Hprobe)|(h & p & Hhash & Hh & Hp & Hdisp & Hscan & Hprobe)].
    + exists 1%nat. eexists. rewrite (lpt_repair_loop_step _ _ _ _ _ (proj1 Hc) Hcell).
      rewrite Hprobe. reflexivity.
    + assert (Hcf : c <> f).
      { intros ->. unfold free_at in Hfree. congruence. }
      destruct (Z.eq_dec p c) as [->|Hpc].
      * (* the entry goes back to its cell *)
        assert (Ht1 : lpt_store c (Some (k, v)) (lpt_store c None lpt) = lpt).
        { unfold lpt_store. simpl.
          rewrite list_insert_insert_eq, list_insert_id by exact Hcell.
          now destruct lpt. }
        destruct (IHd ((c + 1) mod lpt_table_size lpt)) as (fuel & out & Hrun).
        { apply next_range. exact Hc. }
        { pose proof (disp_nonneg (lpt_table_size lpt) c f ltac:(lia)).
          pose proof (disp_nonneg (lpt_table_size lpt)
                        ((c + 1) mod lpt_table_size lpt) f ltac:(lia)).
          assert (disp (lpt_table_size lpt) ((c + 1) mod lpt_table_size lpt) f
                  = disp (lpt_table_size lpt) c f - 1) by (clear - Hc Hf Hcf; circ).
          lia. }
        exists (S fuel), out.
        rewrite (lpt_repair_loop_step _ _ _ _ _ (proj1 Hc) Hcell).
        now rewrite Hprobe, Ht1.
      * (* the entry moves: the total weight decreases *)
        set (lpt3 := lpt_store p (Some (k, v)) (lpt_store c None lpt)).
        assert (Hlen3 : lpt_table_size lpt3 = lpt_table_size lpt).
        { unfold lpt3, lpt_table_size. simpl. now rewrite !length_insert. }
        assert (Hlt : total_weight (lpt_array lpt3) < total_weight (lpt_array lpt)).
        { unfold lpt_table_size in *.
          apply (repair_move_weight (lpt_array lpt) c p h k v); try assumption.
          destruct Hscan as [[_ ?]|[_ ?]]; auto. }
        assert (Hfree3 : free_at (lpt_array lpt3) c).
        { unfold free_at, lpt3. simpl. rewrite list_lookup_insert_ne by lia.
          apply list_lookup_insert_eq. unfold lpt_table_size in Hc. lia. }
        destruct (IHm (Z.to_nat (total_weight (lpt_array lpt3)))
                    ltac:(pose proof (total_weight_nonneg (lpt_array lpt3)); lia)
                    lpt3 ((c + 1) mod lpt_table_size lpt) c)
          as (fuel & out & Hrun).
        { pose proof (total_weight_nonneg (lpt_array lpt3)). lia. }
        { rewrite Hlen3. apply next_range. exact Hc. }
        { rewrite Hlen3. exact Hc. }
        { exact Hfree3. }
        exists (S fuel), out.
        rewrite (lpt_repair_loop_step _ _ _ _ _ (proj1 Hc) Hcell).
        now rewrite Hprobe.
Qed.

Lemma lpt_repair_loop_more_fuel fuel : forall c lpt out,
  lpt_repair_loop fuel c lpt = Some out ->
  forall fuel', (fuel <= fuel')%nat -> lpt_repair_loop fuel' c lpt = Some out.
Proof.
  induction fuel as [|fuel IH]; intros c lpt out Hrun fuel' Hle.
  - destruct fuel' as [|fuel']; [exact Hrun|].
    simpl in *. destruct (lpt_cell (lpt_array lpt) c) as [[[k v]|]|e];
      try exact Hrun. discriminate.
  - destruct fuel' as [|fuel']; [lia|].
    simpl in *. destruct (lpt_cell (lpt_array lpt) c) as [[[k v]|]|e];
      try exact Hrun.
    destruct (lpt_linear_probe k true (lpt_store c None lpt)) as [p|e];
      [|exact Hrun].
    apply IH; [exact Hrun | lia].
Qed.

(** The walk ends without raising in a consistent table that holds the
    entries it started with. *)
Lemma lpt_repair_loop_result fuel : forall c lpt r,
  repair_inv (lpt_array lpt) c ->
  0 <= c < lpt_table_size lpt ->
  lpt_repair_loop fuel c lpt = Some r ->
  exists lpt', r = Ok lpt' /\ probe_consistent (lpt_array lpt') /\
    (forall k v, has_entry (lpt_array lpt') k v <-> has_entry (lpt_array lpt) k v) /\
    lpt_sizes lpt' = lpt_sizes lpt /\ lpt_table_size lpt' = lpt_table_size lpt.
Proof.
  induction fuel as [|fuel IH]; intros c lpt r Hinv Hc Hrun.
  - simpl in Hrun.
    destruct (lookup_lt_is_Some_2 (lpt_array lpt) (Z.to_nat c)) as [cell Hcell].
    { unfold lpt_table_size in Hc. lia. }
    rewrite (lpt_cell_lookup _ _ _ (proj1 Hc) Hcell) in Hrun.
    destruct cell as [[k v]|]; [discriminate|].
    injection Hrun as <-. exists lpt. split; [reflexivity|].
    split; [|split; [reflexivity | auto]].
    eapply repair_inv_done; eauto.
  - destruct (lookup_lt_is_Some_2 (lpt_array lpt) (Z.to_nat c)) as [cell Hcell].
    { unfold lpt_table_size in Hc. lia. }
    destruct cell as [[k v]|].
    2:{ rewrite (lpt_repair_loop_free _ _ _ (proj1 Hc) Hcell) in Hrun.
        injection Hrun as <-. exists lpt. split; [reflexivity|].
        split; [|split; [reflexivity | auto]].
        eapply repair_inv_done; eauto. }
    rewrite (lpt_repair_loop_step _ _ _ _ _ (proj1 Hc) Hcell) in Hrun.
    pose proof (cell_key_at _ _ _ _ Hcell) as Hkc.
    destruct (proj2 Hinv c k Hc Hkc) as (h0 & Hh0 & _).
    destruct (lpt_repair_probe_cases lpt c k Hc)
      as [(e & He & _)|(h & p & Hh & Hhr & Hp & _ & Hscan & Hprobe)].
    { unfold lpt_table_size in He. congruence. }
    rewrite Hprobe in Hrun.
    set (arr2 := <[Z.to_nat c := None]> (lpt_array lpt)) in *.
    assert (Hlen2 : length arr2 = length (lpt_array lpt)) by apply length_insert.
    unfold lpt_table_size in Hc, Hhr, Hp, Hh.
    assert (Hfree : free_at arr2 p /\
              forall q, 0 <= q < Z.of_nat (length (lpt_array lpt)) ->
                disp (Z.of_nat (length (lpt_array lpt))) h q
                < disp (Z.of_nat (length (lpt_array lpt))) h p ->
                occupied_at arr2 q).
    { destruct Hscan as [[Hs Hfp]|[Hs Hkp]].
      - split; [exact Hfp|].
        pose proof (scan_spec arr2 k (length arr2) h) as Hspec.
        rewrite Hs, Hlen2 in Hspec. destruct (Hspec Hhr) as (_ & _ & _ & Hq).
        intros q Hq1 Hq2. eapply other_occupied. now apply Hq.
      - exfalso. unfold arr2 in Hkp.
        rewrite key_at_vacate in Hkp by lia.
        destruct (Z.eq_dec p c) as [|Hpc]; [discriminate|].
        apply Hpc. apply (proj1 Hinv p c k); assumption. }
    destruct Hfree as [Hfp Hclear].
    destruct (IH ((c + 1) mod lpt_table_size lpt)
                (lpt_store p (Some (k, v)) (lpt_store c None lpt)) r)
      as (lpt' & Hr & Hcons' & Hentries & F1 & F2).
    + simpl. unfold lpt_table_size.
      apply (repair_inv_step (lpt_array lpt) c k v h p); assumption.
    + unfold lpt_table_size. simpl. rewrite !length_insert. apply next_range, Hc.
    + exact Hrun.
    + exists lpt'. split; [exact Hr|]. split; [exact Hcons'|]. split.
      2:{ split; [exact F1|]. rewrite F2. unfold lpt_table_size. simpl.
          now rewrite !length_insert. }
      intros k' v'. rewrite Hentries. simpl. fold arr2.
      rewrite (has_entry_insert_free arr2 p k v k' v')
        by (rewrite ?Hlen2; assumption).
      unfold arr2.
      rewrite (has_entry_vacate (lpt_array lpt) c k v k' v' (proj1 Hinv)
                 (proj1 Hc) Hcell).
      split.
      * intros [[_ ?]|[-> ->]]; [assumption | now exists (Z.to_nat c)].
      * intros Hentry. destruct (string_dec k' k) as [->|Hk]; [|auto].
        right. split; [reflexivity|].
        eapply has_entry_unique; [apply Hinv | exact Hentry | now exists (Z.to_nat c)].
Qed.

Lemma lpt_delitem_more_fuel fuel key lpt out :
  lpt_delitem fuel key lpt = Some out ->
  forall fuel', (fuel <= fuel')%nat -> lpt_delitem fuel' key lpt = Some out.
Proof.
  unfold lpt_delitem. destruct (lpt_linear_probe key false lpt) as [p|e]; [|auto].
  apply lpt_repair_loop_more_fuel.
Qed.

(** A completed [delete] keeps consistency, removes its key and keeps every
    other entry. *)
Lemma lpt_delitem_entries fuel key lpt lpt' :
  probe_consistent (lpt_array lpt) ->
  lpt_delitem fuel key lpt = Some (Ok lpt') ->
  probe_consistent (lpt_array lpt') /\
  (forall k v, has_entry (lpt_array lpt') k v <->
     k <> key /\ has_entry (lpt_array lpt) k v) /\
  lpt_sizes lpt' = lpt_sizes lpt.
Proof.
  intros Hcons Hdel. unfold lpt_delitem in Hdel.
  destruct (lpt_linear_probe key false lpt) as [p|e] eqn:Hprobe; [|discriminate].
  destruct (lpt_probe_ok _ _ _ _ Hprobe)
    as (Hp & h & Hh & Hhr & [[Hscan Hkey]|(_ & Hins & _)]); [|discriminate].
  destruct (key_at_cell _ _ _ (proj1 Hp) Hkey) as (v0 & Hcell).
  unfold lpt_table_size in Hp.
  destruct (lpt_repair_loop_result fuel ((p + 1) mod lpt_table_size lpt)
              (lpt_store p None lpt) (Ok lpt'))
    as (lpt2 & [= <-] & Hcons' & Hentries & F1 & _).
  - simpl. unfold lpt_table_size.
    apply (repair_inv_start (lpt_array lpt) p key Hcons Hp Hkey).
  - unfold lpt_table_size. simpl. rewrite length_insert. apply next_range. exact Hp.
  - exact Hdel.
  - split; [exact Hcons'|]. split; [|exact F1].
    intros k v. rewrite Hentries. simpl.
    apply (has_entry_vacate (lpt_array lpt) p key v0 k v (proj1 Hcons) (proj1 Hp) Hcell).
Qed.

(** [delete] keeps the capacity, and the hash of the deleted key returns on
    the table it leaves. *)
Lemma lpt_delitem_size fuel key lpt lpt' :
  probe_consistent (lpt_array lpt) ->
  lpt_delitem fuel key lpt = Some (Ok lpt') ->
  lpt_table_size lpt' = lpt_table_size lpt /\
  exists h, hash2 key lpt' = Ok h.
Proof.
  intros Hcons Hdel. unfold lpt_delitem in Hdel.
  destruct (lpt_linear_probe key false lpt) as [p|e] eqn:Hprobe; [|discriminate].
  destruct (lpt_probe_ok _ _ _ _ Hprobe)
    as (Hp & h & Hh & Hhr & [[Hscan Hkey]|(_ & Hins & _)]); [|discriminate].
  unfold lpt_table_size in Hp.
  destruct (lpt_repair_loop_result fuel ((p + 1) mod lpt_table_size lpt)
              (lpt_store p None lpt) (Ok lpt'))
    as (lpt2 & [= <-] & _ & _ & _ & Hsize).
  - simpl. unfold lpt_table_size.
    apply (repair_inv_start (lpt_array lpt) p key Hcons Hp Hkey).
  - unfold lpt_table_size. simpl. rewrite length_insert. apply next_range. exact Hp.
  - exact Hdel.
  - assert (Hs : lpt_table_size lpt' = lpt_table_size lpt).
    { rewrite Hsize. unfold lpt_table_size. simpl. now rewrite length_insert. }
    split; [exact Hs|]. exists h. unfold hash2 in *. now rewrite Hs.
Qed.

Lemma lpt_delitem_spec fuel key lpt lpt' :
  probe_consistent (lpt_array lpt) ->
  lpt_delitem fuel key lpt = Some (Ok lpt') ->
  probe_consistent (lpt_array lpt') /\
  lpt_lookup key (lpt_items lpt') = None /\
  (forall key', key' <> key ->
     lpt_lookup key' (lpt_items lpt') = lpt_lookup key' (lpt_items lpt)) /\
  lpt_sizes lpt' = lpt_sizes lpt.
Proof.
  intros Hcons Hdel.
  destruct (lpt_delitem_entries fuel key lpt lpt' Hcons Hdel) as (Hcons' & Hent & F).
  split; [exact Hcons'|]. split; [|split; [|exact F]].
  - destruct (lpt_lookup key (lpt_items lpt')) as [v|] eqn:Hl; [|reflexivity].
    apply (lpt_lookup_entry lpt' key v (proj1 Hcons')) in Hl.
    apply Hent in Hl as [Hne _]. contradiction.
  - intros key' Hne.
    destruct (lpt_lookup key' (lpt_items lpt)) as [v|] eqn:Hl.
    + apply (lpt_lookup_entry lpt' key' v (proj1 Hcons')). apply Hent.
      split; [exact Hne|]. now apply (lpt_lookup_entry lpt key' v (proj1 Hcons)).
    + destruct (lpt_lookup key' (lpt_items lpt')) as [v|] eqn:Hl'; [|reflexivity].
      apply (lpt_lookup_entry lpt' key' v (proj1 Hcons')) in Hl'.
      apply Hent in Hl' as [_ He].
      apply (lpt_lookup_entry lpt key' v (proj1 Hcons)) in He. congruence.
Qed.

(** A call of [delete] returns or raises within finitely many iterations of
    its repair walk, whatever the table. *)
Lemma lpt_delitem_returns key lpt :
  exists fuel out,
    forall fuel', (fuel <= fuel')%nat -> lpt_delitem fuel' key lpt = Some out.
Proof.
  unfold lpt_delitem.
  destruct (lpt_linear_probe key false lpt) as [p|e] eqn:Hprobe.
  2:{ exists O. eexists. reflexivity. }
  destruct (lpt_probe_ok _ _ _ _ Hprobe) as (Hp & _).
  set (lpt1 := lpt_store p None lpt).
  assert (Hsize : lpt_table_size lpt1 = lpt_table_size lpt).
  { unfold lpt1, lpt_table_size. simpl. now rewrite length_insert. }
  destruct (lpt_repair_loop_terminates (Z.to_nat (total_weight (lpt_array lpt1)))
              lpt1 ((p + 1) mod lpt_table_size lpt) p) as (fuel & out & Hrun).
  - pose proof (total_weight_nonneg (lpt_array lpt1)). lia.
  - rewrite Hsize. apply next_range. exact Hp.
  - rewrite Hsize. exact Hp.
  - apply free_at_insert_same. exact Hp.
  - exists fuel, out. intros fuel' Hle.
    eapply lpt_repair_loop_more_fuel; eauto.
Qed.

(** Deleting a stored key from a consistent table completes, given enough
    iterations for the repair walk. *)
Lemma lpt_delitem_stored key lpt v :
  probe_consistent (lpt_array lpt) ->
  lpt_lookup key (lpt_items lpt) = Some v ->
  exists fuel lpt',
    forall fuel', (fuel <= fuel')%nat -> lpt_delitem fuel' key lpt = Some (Ok lpt').
Proof.
  intros Hcons Hl.
  apply (lpt_lookup_entry lpt key v (proj1 Hcons)) in Hl.
  destruct (has_entry_key_at _ _ _ Hl) as (p & Hp & Hkey & Hcell).
  destruct (lpt_delitem_returns key lpt) as (fuel & out & Hout).
  pose proof (Hout fuel (le_n fuel)) as Hrun.
  unfold lpt_delitem in Hrun.
  rewrite (lpt_probe_stored lpt p key v false Hcons (proj1 Hp) Hcell) in Hrun.
  destruct (lpt_repair_loop_result fuel ((p + 1) mod lpt_table_size lpt)
              (lpt_store p None lpt) out) as (lpt' & -> & _).
  - simpl. unfold lpt_table_size.
    apply (repair_inv_start (lpt_array lpt) p key Hcons Hp Hkey).
  - unfold lpt_table_size. simpl. rewrite length_insert. apply next_range. exact Hp.
  - exact Hrun.
  - exists fuel, lpt'. exact Hout.
Qed.

End Nested.

Ltac munfold :=
  unfold repair_body, linear_probe_top, linear_probe_both, array_entry, bind,
    ret, raise, gets, modify, lift in *.

(** ** The hash functions of the two-level table *)

(** C10.  With a capacity of at least 2, [hash1] returns a position of the
    top-level array and [hash2] a position below the nested table's
    capacity, for every key; a table built from a schedule that starts with
    capacity 1 raises [ZeroDivisionError] on every non-empty key. *)
Theorem hash_positions_in_bounds {V : Type} (t : DoubleKeyTable V)
    (sub_table : LinearProbeTable V) (key : string) :
  (2 <= table_size t ->
     exists h, hash1 t key = Ok h /\ 0 <= h < table_size t) /\
  (2 <= lpt_table_size sub_table ->
     exists h, hash2 key sub_table = Ok h /\ 0 <= h < lpt_table_size sub_table) /\
  (forall rest internal (t1 : DoubleKeyTable V),
     init (Some (1 :: rest)) internal = Ok t1 -> key <> EmptyString ->
     hash1 t1 key = Raise ZeroDivisionError).
Proof.
  split; [|split].
  - apply hash_str_range.
  - apply hash_str_range.
  - intros rest internal t1 Hinit Hkey. unfold init in Hinit. simpl in Hinit.
    injection Hinit as <-. unfold hash1, table_size. simpl.
    now apply hash_str_size_one.
Qed.

Lemma hash_positions_in_bounds_witness :
  (exists h, hash1 table_of_five "Tim" = Ok h /\ 0 <= h < 5) /\
  (exists h, hash2 "Jen" (nested_of_five) = Ok h /\ 0 <= h < 5) /\
  hash1 {| TABLE_SIZES := [1]; internal_sizes := [1]; size_index := O;
           array := ArrayR (A:=entry Z) 1; count := 0 |} "Tim"
    = Raise ZeroDivisionError.
Proof.
  destruct (hash_positions_in_bounds table_of_five (nested_of_five) "Tim")
    as (H1 & _ & H3).
  destruct (hash_positions_in_bounds table_of_five (nested_of_five) "Jen")
    as (_ & H2 & _).
  split; [|split].
  - apply H1. vm_compute. discriminate.
  - apply H2. vm_compute. discriminate.
  - apply (H3 [] None); [reflexivity | discriminate].
Defined.

(** ** Counting after a resize *)

(** C1.  Evaluation on a concrete run: three insertions under three
    first keys into the default table all return, the third one resizes the
    array to capacity 13, and afterwards three cells are occupied by three
    distinct first keys while [len()] is 0, because [_rehash] resets the
    counter and re-seats the entries without counting them. *)
Theorem len_after_resize_is_zero :
  let '(t, r) := setitems three_first_keys default_table in
  r = Ok tt /\ table_size t = 13 /\
  occupied t = 3 /\ distinct_first_keys t = 3 /\ len t = 0.
Proof. vm_compute. repeat split. Qed.

(** C2.  Evaluation on a concrete run: seven insertions under seven
    first keys into the default table all return; the array then has
    capacity 13 with seven occupied cells, more than half of it, although
    the schedule still offers larger capacities: the counter restarted from
    zero at the resize, so the growth test sees 4. *)
Theorem load_exceeds_half_after_resize :
  let '(t, r) := setitems seven_first_keys default_table in
  r = Ok tt /\ table_size t = 13 /\ occupied t = 7 /\
  2 * occupied t > table_size t /\ can_grow t = true /\ len t = 4.
Proof. vm_compute. repeat split. Qed.

(** ** Keys under one first key *)

(** C5.  Evaluation on a concrete table: with ("Tim", "Jen") stored,
    iterating [iter_keys("Tim")] raises [AttributeError], because the
    generator asks the first key (a [str]) for its keys; [keys("Tim")], which
    reads the nested table of the same cell, returns the second keys. *)
Theorem iter_keys_present_key_raises :
  let t := (setitem ("Tim", "Jen") 1 table_of_five).1 in
  iter_keys (Some "Tim") t = (t, Raise AttributeError) /\
  keys (Some "Tim") t = (t, Ok ["Jen"]) /\
  iter_keys (Some "Amy") t = (t, Raise KeyError).
Proof. vm_compute. repeat split. Qed.

(** ** Resizing with an exhausted schedule *)

(** C6, as stated, fails: the count is above half the capacity and the
    schedule has no further entry, yet the resize attempt changes the
    state. *)
Lemma exhausted_rehash_changes_state :
  2 * len full_schedule_table > table_size full_schedule_table /\
  can_grow full_schedule_table = false /\
  (rehash full_schedule_table).1 <> full_schedule_table /\
  setitems three_first_keys table_of_five = rehash full_schedule_table.
Proof.
  vm_compute. repeat split; try discriminate.
Qed.

(** C6, amended.  When no schedule entry remains after the current one,
    [_rehash] returns without raising and leaves the array (so the capacity)
    and the count as they were; the size index is advanced by one. *)
Theorem exhausted_rehash_keeps_array_and_count {V : Type} (t : DoubleKeyTable V) :
  can_grow t = false ->
  rehash t = (set_size_index (S (size_index t)) t, Ok tt) /\
  array (rehash t).1 = array t /\
  table_size (rehash t).1 = table_size t /\
  count (rehash t).1 = count t /\
  size_index (rehash t).1 = S (size_index t).
Proof.
  intros Hgrow. unfold can_grow in Hgrow.
  apply Nat.ltb_ge in Hgrow.
  assert (Hre : rehash t = (set_size_index (S (size_index t)) t, Ok tt)).
  { unfold rehash. munfold. unfold id. simpl.
    destruct (Nat.leb_spec (length (TABLE_SIZES t)) (S (size_index t))) as [_|?];
      [reflexivity | lia]. }
  rewrite Hre. repeat split.
Qed.

Lemma exhausted_rehash_keeps_array_and_count_witness :
  rehash full_schedule_table
    = (set_size_index 1 full_schedule_table, Ok tt) /\
  array (rehash full_schedule_table).1 = array full_schedule_table /\
  table_size (rehash full_schedule_table).1 = table_size full_schedule_table /\
  count (rehash full_schedule_table).1 = count full_schedule_table /\
  size_index (rehash full_schedule_table).1 = 1%nat.
Proof.
  apply (exhausted_rehash_keeps_array_and_count full_schedule_table).
  reflexivity.
Defined.

Section Probe.

Context {V : Type}.

Implicit Types (t : DoubleKeyTable V) (arr : list (option (entry V))).

Lemma probe_loop_scan key1 key2 is_insert fuel : forall pos t,
  probe_loop fuel key1 key2 is_insert pos t
  = probe_outcome key1 key2 is_insert (scan (array t) key1 fuel pos) t.
Proof.
  induction fuel as [|fuel IH]; intros pos t; simpl.
  - reflexivity.
  - unfold bind at 1. unfold array_getitem.
    destruct (pos <? 0) eqn:Hneg; [reflexivity|].
    destruct (array t !! Z.to_nat pos) as [[[k lpt]|]|] eqn:Hcell; simpl.
    + destruct (String.eqb k key1) eqn:Hk.
      * destruct key2 as [k2|]; simpl; [|reflexivity].
        munfold. rewrite Hcell. destruct (lpt_linear_probe k2 is_insert lpt); reflexivity.
      * munfold. apply IH.
    + destruct is_insert; simpl; [|reflexivity].
      destruct key2 as [k2|]; [|reflexivity].
      munfold. destruct (lpt_new (internal_sizes t)) as [ht|e]; [|reflexivity].
      unfold array_setitem. rewrite Hneg.
      apply lookup_lt_Some in Hcell.
      destruct (Nat.ltb_spec (Z.to_nat pos) (length (array t))); [|lia].
      simpl. destruct (lpt_linear_probe k2 true ht); reflexivity.
    + reflexivity.
Qed.

End Probe.

(** ** Operations that fail *)

Section Failures.

Context {V : Type}.

Implicit Types (t : DoubleKeyTable V) (arr : list (option (entry V))).

Lemma linear_probe_scan t key1 key2 is_insert h :
  hash1 t key1 = Ok h ->
  linear_probe key1 key2 is_insert t
  = probe_outcome key1 key2 is_insert
      (scan (array t) key1 (length (array t)) h) t.
Proof.
  intros Hh. unfold linear_probe. munfold. rewrite Hh.
  rewrite probe_loop_scan. unfold table_size. now rewrite Nat2Z.id.
Qed.

Lemma hash1_range t key h :
  hash1 t key = Ok h -> 1 <= table_size t -> 0 <= h < table_size t.
Proof. intros Hh Hn. eapply hash_str_ok_range; eauto. Qed.

Lemma second_hash_at t key p lpt :
  second_hash_returns key t = true ->
  array t !! Z.to_nat p = Some (Some (key.1, lpt)) ->
  exists h2, hash2 key.2 lpt = Ok h2.
Proof.
  unfold second_hash_returns. rewrite forallb_forall. intros Hall Hcell.
  specialize (Hall (Some (key.1, lpt))).
  assert (Hin : In (Some (key.1, lpt)) (array t)).
  { apply list_elem_of_In. eapply list_elem_of_lookup_2; eauto. }
  specialize (Hall Hin). simpl in Hall. rewrite String.eqb_refl in Hall.
  destruct (hash2 key.2 lpt) as [h2|e]; [eauto | discriminate].
Qed.

Lemma stored_false_at t key p lpt :
  stored key t = false ->
  array t !! Z.to_nat p = Some (Some (key.1, lpt)) ->
  lpt_lookup key.2 (lpt_items lpt) = None.
Proof.
  intros Hst Hcell.
  destruct (lpt_index key.2 (lpt_items lpt)) as [i|] eqn:Hi;
    [|now apply lpt_index_none].
  exfalso. unfold stored in Hst.
  assert (Hex : existsb (holds_pair key) (array t) = true).
  { apply existsb_exists. exists (Some (key.1, lpt)). split.
    - apply list_elem_of_In. eapply list_elem_of_lookup_2; eauto.
    - simpl. rewrite String.eqb_refl, Hi. reflexivity. }
  congruence.
Qed.

(** The scan of a table with no cell holding [key] never finds a nested
    table with an entry for [key.2]. *)
Lemma probe_absent_pair t key h :
  stored key t = false ->
  second_hash_returns key t = true ->
  hash1 t key.1 = Ok h ->
  linear_probe key.1 (Some key.2) false t = (t, Raise KeyError).
Proof.
  intros Hst Hsec Hh. rewrite (linear_probe_scan _ _ _ _ _ Hh).
  destruct (array t) as [|c0 arr0] eqn:Harr; [reflexivity|].
  rewrite <- Harr.
  assert (Hn : 1 <= table_size t).
  { unfold table_size. rewrite Harr. simpl. lia. }
  pose proof (hash1_range _ _ _ Hh Hn) as Hr. unfold table_size in Hr.
  pose proof (scan_spec (array t) key.1 (length (array t)) h Hr) as Hs.
  destruct (scan (array t) key.1 (length (array t)) h) as [p|p| |];
    simpl; try reflexivity; [|contradiction].
  destruct Hs as (Hp & Hkey & _).
  destruct (key_at_cell _ _ _ (proj1 Hp) Hkey) as (lpt & Hcell).
  rewrite Hcell.
  destruct (second_hash_at t key p lpt Hsec Hcell) as (h2 & Hh2).
  now rewrite (lpt_probe_absent lpt key.2 h2 (stored_false_at t key p lpt Hst Hcell) Hh2).
Qed.

Lemma linear_probe_hash_raises t key1 key2 is_insert e :
  hash1 t key1 = Raise e -> linear_probe key1 key2 is_insert t = (t, Raise e).
Proof. intros Hh. unfold linear_probe. munfold. now rewrite Hh. Qed.

(** A lookup-mode probe for a pair that no cell holds raises and changes
    nothing, whatever the table. *)
Lemma probe_absent_raises t key :
  stored key t = false ->
  exists e, linear_probe key.1 (Some key.2) false t = (t, Raise e).
Proof.
  intros Hst. destruct (hash1 t key.1) as [h|e] eqn:Hh.
  2:{ exists e. now apply linear_probe_hash_raises. }
  rewrite (linear_probe_scan _ _ _ _ _ Hh).
  destruct (array t) as [|c0 arr0] eqn:Harr; [simpl; eauto|].
  rewrite <- Harr.
  assert (Hn : 1 <= table_size t).
  { unfold table_size. rewrite Harr. simpl. lia. }
  pose proof (hash1_range _ _ _ Hh Hn) as Hr. unfold table_size in Hr.
  pose proof (scan_spec (array t) key.1 (length (array t)) h Hr) as Hs.
  destruct (scan (array t) key.1 (length (array t)) h) as [p|p| |];
    simpl; eauto.
  destruct Hs as (Hp & Hkey & _).
  destruct (key_at_cell _ _ _ (proj1 Hp) Hkey) as (lpt & Hcell).
  rewrite Hcell.
  pose proof (stored_false_at t key p lpt Hst Hcell) as Hl.
  destruct (hash2 key.2 lpt) as [h2|e2] eqn:Hh2.
  - rewrite (lpt_probe_absent lpt key.2 h2 Hl Hh2). eauto.
  - rewrite (lpt_linear_probe_hash_raises lpt key.2 false e2 Hh2). eauto.
Qed.

Lemma getitem_absent t key h :
  stored key t = false -> second_hash_returns key t = true ->
  hash1 t key.1 = Ok h ->
  getitem key t = (t, Raise KeyError).
Proof.
  intros Hst Hsec Hh. unfold getitem. munfold.
  now rewrite (probe_absent_pair _ _ _ Hst Hsec Hh).
Qed.

Lemma delitem_absent t key h fuel :
  stored key t = false -> second_hash_returns key t = true ->
  hash1 t key.1 = Ok h ->
  delitem fuel key t = Some (t, Raise KeyError).
Proof.
  intros Hst Hsec Hh. unfold delitem, delitem_vacate, delitem_locate. munfold.
  now rewrite (probe_absent_pair _ _ _ Hst Hsec Hh).
Qed.

Lemma all_other_at t key1 p :
  all_other key1 t = true -> 0 <= p < table_size t -> other_at (array t) key1 p.
Proof.
  unfold all_other, table_size. intros Hall Hp.
  destruct (lookup_lt_is_Some_2 (array t) (Z.to_nat p)) as [cell Hcell]; [lia|].
  rewrite forallb_forall in Hall.
  specialize (Hall cell). 
  assert (Hin : In cell (array t)).
  { apply list_elem_of_In. eapply list_elem_of_lookup_2; eauto. }
  specialize (Hall Hin). destruct cell as [[k lpt]|]; simpl in Hall; [|discriminate].
  exists k. split; [unfold key_at; now rewrite Hcell|].
  intros ->. rewrite String.eqb_refl in Hall. discriminate.
Qed.

Lemma setitem_full t key data h :
  all_other key.1 t = true -> hash1 t key.1 = Ok h ->
  setitem key data t = (t, Raise FullError).
Proof.
  intros Hall Hh. destruct key as [key1 key2]. simpl in *.
  unfold setitem. munfold.
  rewrite (linear_probe_scan _ _ _ _ _ Hh).
  destruct (array t) as [|c0 arr0] eqn:Harr; [reflexivity|].
  rewrite <- Harr.
  assert (Hn : 1 <= table_size t).
  { unfold table_size. rewrite Harr. simpl. lia. }
  pose proof (hash1_range _ _ _ Hh Hn) as Hr. unfold table_size in Hr.
  pose proof (scan_spec (array t) key1 (length (array t)) h Hr) as Hs.
  destruct (scan (array t) key1 (length (array t)) h) as [p|p| |];
    simpl; try reflexivity; try contradiction.
  - destruct Hs as (Hp & Hkey & _).
    destruct (all_other_at t key1 p Hall Hp) as (k & Hk & Hne). congruence.
  - destruct Hs as (Hp & Hfree & _).
    destruct (all_other_at t key1 p Hall Hp) as (k & Hk & Hne).
    exfalso. eapply key_at_free; eauto.
Qed.



End Failures.


(** ** One iteration of the repair walk *)

Section RepairBody.

Context {V : Type}.

Implicit Types (t : DoubleKeyTable V) (arr : list (option (entry V))).

Lemma array_setitem_ok t p cell :
  0 <= p < table_size t ->
  array_setitem p cell t = (set_array (<[Z.to_nat p := cell]> (array t)) t, Ok tt).
Proof.
  unfold table_size, array_setitem. intros Hp.
  destruct (Z.ltb_spec p 0) as [?|_]; [lia|].
  destruct (Nat.ltb_spec (Z.to_nat p) (length (array t))); [reflexivity | lia].
Qed.

Lemma array_getitem_lookup t p cell :
  0 <= p -> array t !! Z.to_nat p = Some cell -> array_getitem p t = (t, Ok cell).
Proof.
  unfold array_getitem. intros Hp Hcell.
  destruct (Z.ltb_spec p 0) as [?|_]; [lia|]. now rewrite Hcell.
Qed.

Lemma table_size_set_array arr t :
  table_size (set_array arr t) = Z.of_nat (length arr).
Proof. reflexivity. Qed.

Lemma set_array_self t : set_array (array t) t = t.
Proof. now destruct t. Qed.

Lemma linear_probe_top_scan t key1 is_insert h :
  hash1 t key1 = Ok h ->
  linear_probe_top key1 is_insert t
  = match scan (array t) key1 (length (array t)) h with
    | Hit p => (t, Ok p)
    | Free p => if is_insert then (t, Ok p) else (t, Raise KeyError)
    | Exhausted => (t, Raise (if is_insert then FullError else KeyError))
    | OutOfRange => (t, Raise IndexError)
    end.
Proof.
  intros Hh. unfold linear_probe_top, bind at 1.
  rewrite (linear_probe_scan _ _ _ _ _ Hh).
  destruct (scan (array t) key1 (length (array t)) h); simpl; try reflexivity.
  destruct is_insert; reflexivity.
Qed.

Lemma linear_probe_top_hash_raises t key1 is_insert e :
  hash1 t key1 = Raise e -> linear_probe_top key1 is_insert t = (t, Raise e).
Proof. intros Hh. unfold linear_probe_top, linear_probe. munfold. now rewrite Hh. Qed.

Lemma repair_body_hash_raises t c k lpt e :
  0 <= c < table_size t ->
  hash_str (table_size t) k = Raise e ->
  repair_body c k lpt t
  = (set_array (<[Z.to_nat c := None]> (array t)) t, Raise e).
Proof.
  intros Hc Hh. unfold repair_body, bind at 1.
  rewrite (array_setitem_ok _ _ _ Hc). unfold bind at 1.
  rewrite (linear_probe_top_hash_raises _ _ _ e); [reflexivity|].
  unfold hash1. now rewrite table_size_set_array, length_insert.
Qed.

Lemma repair_body_found t c k lpt h p :
  0 <= c < table_size t ->
  hash_str (table_size t) k = Ok h ->
  0 <= p < table_size t ->
  let arr2 := <[Z.to_nat c := None]> (array t) in
  scan arr2 k (length arr2) h = Free p \/ scan arr2 k (length arr2) h = Hit p ->
  repair_body c k lpt t
  = (set_array (<[Z.to_nat p := Some (k, lpt)]> arr2) t,
     Ok ((c + 1) mod table_size t)).
Proof.
  intros Hc Hh Hp arr2 Hscan. unfold repair_body, bind at 1.
  rewrite (array_setitem_ok _ _ _ Hc). fold arr2.
  assert (Hlen : length arr2 = length (array t)) by apply length_insert.
  assert (Hn2 : table_size (set_array arr2 t) = table_size t).
  { rewrite table_size_set_array, Hlen. reflexivity. }
  assert (Hh1 : hash1 (set_array arr2 t) k = Ok h).
  { unfold hash1. now rewrite Hn2. }
  unfold bind at 1. rewrite (linear_probe_top_scan _ _ _ _ Hh1).
  change (array (set_array arr2 t)) with arr2.
  assert (Hset : array_setitem p (Some (k, lpt)) (set_array arr2 t)
                 = (set_array (<[Z.to_nat p := Some (k, lpt)]> arr2) t, Ok tt)).
  { rewrite array_setitem_ok; [reflexivity|]. rewrite Hn2. exact Hp. }
  assert (Hsz : table_size (set_array (<[Z.to_nat p := Some (k, lpt)]> arr2) t)
                = table_size t).
  { rewrite table_size_set_array, length_insert, Hlen. reflexivity. }
  destruct Hscan as [Hs|Hs]; rewrite Hs; unfold bind at 1; rewrite Hset;
    munfold; rewrite Hsz; reflexivity.
Qed.

(** What one iteration of the repair walk does to an occupied cell. *)
Lemma repair_body_cases t c k lpt :
  0 <= c < table_size t ->
  let n := table_size t in
  let arr2 := <[Z.to_nat c := None]> (array t) in
  (exists e, hash_str n k = Raise e /\
     repair_body c k lpt t = (set_array arr2 t, Raise e)) \/
  (exists h p, hash_str n k = Ok h /\ 0 <= h < n /\ 0 <= p < n /\
     disp n h p <= disp n h c /\
     ((scan arr2 k (length arr2) h = Free p /\ free_at arr2 p) \/
      (scan arr2 k (length arr2) h = Hit p /\ key_at arr2 p = Some k)) /\
     repair_body c k lpt t
     = (set_array (<[Z.to_nat p := Some (k, lpt)]> arr2) t, Ok ((c + 1) mod n))).
Proof.
  intros Hc n arr2.
  assert (Hlen : length arr2 = length (array t)) by apply length_insert.
  destruct (hash_str n k) as [h|e] eqn:Hh.
  - right.
    assert (Hhr : 0 <= h < n).
    { eapply hash_str_ok_range; [|exact Hh]. unfold n in *. lia. }
    assert (Hfree : free_at arr2 c) by (apply free_at_insert_same; exact Hc).
    destruct (scan_finds_with_free arr2 k h c) as (p & Hp & Hd & Hscan).
    { rewrite Hlen. exact Hhr. }
    { rewrite Hlen. exact Hc. }
    { exact Hfree. }
    rewrite Hlen in Hp, Hd. fold (table_size t) in Hp, Hd. fold n in Hp, Hd.
    exists h, p. repeat (split; [first [reflexivity | assumption | lia]|]).
    apply (repair_body_found t c k lpt h p); try assumption.
    destruct Hscan as [[Hs _]|[Hs _]]; auto.
  - left. exists e. split; [reflexivity|].
    now apply repair_body_hash_raises.
Qed.

End RepairBody.

(** ** Termination of the repair walk *)

Section RepairTermination.

Context {V : Type}.

Implicit Types (t : DoubleKeyTable V) (arr : list (option (entry V))).

Lemma repair_loop_free fuel c t :
  0 <= c -> free_at (array t) c -> repair_loop fuel c t = Some (t, Ok tt).
Proof.
  intros Hc Hfree. destruct fuel; simpl;
    now rewrite (array_getitem_lookup _ _ _ Hc Hfree).
Qed.

Lemma repair_loop_step fuel c t k lpt :
  0 <= c -> array t !! Z.to_nat c = Some (Some (k, lpt)) ->
  repair_loop (S fuel) c t
  = match repair_body c k lpt t with
    | (t1, Ok next) => repair_loop fuel next t1
    | (t1, Raise e) => Some (t1, Raise e)
    end.
Proof. intros Hc Hcell. simpl. now rewrite (array_getitem_lookup _ _ _ Hc Hcell). Qed.

(** From a state with a free cell the walk reaches an empty cell (or
    raises) within finitely many iterations. *)
Lemma repair_loop_terminates (m : nat) : forall t c f,
  total_weight (array t) <= Z.of_nat m ->
  0 <= c < table_size t -> 0 <= f < table_size t ->
  free_at (array t) f ->
  exists fuel out, repair_loop fuel c t = Some out.
Proof.
  induction m as [m IHm] using lt_wf_ind. intros t c f Hw Hc Hf Hfree.
  remember (Z.to_nat (disp (table_size t) c f)) as d eqn:Hd.
  revert c Hc Hd. induction d as [|d IHd]; intros c Hc Hd.
  - assert (c = f).
    { pose proof (disp_nonneg (table_size t) c f ltac:(lia)). circ. }
    subst c. exists O. eexists. apply repair_loop_free; [lia | exact Hfree].
  - destruct (lookup_lt_is_Some_2 (array t) (Z.to_nat c)) as [cell Hcell].
    { unfold table_size in Hc. lia. }
    destruct cell as [[k lpt]|].
    2:{ exists O. eexists. apply repair_loop_free; [lia | exact Hcell]. }
    destruct (repair_body_cases t c k lpt Hc)
      as [(e & _ & Hbody)|(h & p & Hhash & Hh & Hp & Hdisp & Hscan & Hbody)].
    + exists 1%nat. eexists. rewrite (repair_loop_step _ _ _ _ _ (proj1 Hc) Hcell).
      rewrite Hbody. reflexivity.
    + assert (Hcf : c <> f).
      { intros ->. unfold free_at in Hfree. congruence. }
      destruct (Z.eq_dec p c) as [->|Hpc].
      * (* the entry goes back to its cell *)
        assert (Ht1 : set_array (<[Z.to_nat c := Some (k, lpt)]>
                                   (<[Z.to_nat c := None]> (array t))) t = t).
        { rewrite list_insert_insert_eq, list_insert_id by exact Hcell.
          apply set_array_self. }
        rewrite Ht1 in Hbody.
        destruct (IHd ((c + 1) mod table_size t)) as (fuel & out & Hrun).
        { apply next_range. exact Hc. }
        { pose proof (disp_nonneg (table_size t) c f ltac:(lia)).
          pose proof (disp_nonneg (table_size t) ((c + 1) mod table_size t) f
                        ltac:(lia)).
          assert (disp (table_size t) ((c + 1) mod table_size t) f
                  = disp (table_size t) c f - 1) by (clear - Hc Hf Hcf; circ).
          lia. }
        exists (S fuel), out.
        rewrite (repair_loop_step _ _ _ _ _ (proj1 Hc) Hcell). now rewrite Hbody.
      * (* the entry moves: the total weight decreases *)
        set (arr3 := <[Z.to_nat p := Some (k, lpt)]>
                       (<[Z.to_nat c := None]> (array t))) in *.
        assert (Hlen3 : length arr3 = length (array t)).
        { unfold arr3. now rewrite !length_insert. }
        assert (Hlt : total_weight arr3 < total_weight (array t)).
        { apply (repair_move_weight (array t) c p h k lpt); try assumption.
          destruct Hscan as [[_ ?]|[_ ?]]; auto. }
        assert (Hfree3 : free_at arr3 c).
        { unfold free_at, arr3. rewrite list_lookup_insert_ne by lia.
          apply list_lookup_insert_eq. unfold table_size in Hc. lia. }
        destruct (IHm (Z.to_nat (total_weight arr3))
                    ltac:(pose proof (total_weight_nonneg arr3); lia)
                    (set_array arr3 t) ((c + 1) mod table_size t) c)
          as (fuel & out & Hrun).
        { simpl. pose proof (total_weight_nonneg arr3). lia. }
        { rewrite table_size_set_array, Hlen3. apply next_range. exact Hc. }
        { rewrite table_size_set_array, Hlen3. exact Hc. }
        { exact Hfree3. }
        exists (S fuel), out.
        rewrite (repair_loop_step _ _ _ _ _ (proj1 Hc) Hcell). now rewrite Hbody.
Qed.

Lemma repair_loop_more_fuel fuel : forall c t out,
  repair_loop fuel c t = Some out ->
  forall fuel', (fuel <= fuel')%nat -> repair_loop fuel' c t = Some out.
Proof.
  induction fuel as [|fuel IH]; intros c t out Hrun fuel' Hle.
  - destruct fuel' as [|fuel']; [exact Hrun|].
    simpl in *. destruct (array_getitem c t) as [t0 [[[k lpt]|]|e]];
      try exact Hrun. discriminate.
  - destruct fuel' as [|fuel']; [lia|].
    simpl in *. destruct (array_getitem c t) as [t0 [[[k lpt]|]|e]];
      try exact Hrun.
    destruct (repair_body c k lpt t0) as [t1 [next|e]]; [|exact Hrun].
    apply IH; [exact Hrun | lia].
Qed.

End RepairTermination.

(** ** Inversion of the monadic steps *)

Section Inversion.

Context {V : Type}.

Implicit Types (t : DoubleKeyTable V) (arr : list (option (entry V))).

Lemma bind_ok_inv {A B : Type} (m : M V A) (k : A -> M V B) t t' b :
  bind m k t = (t', Ok b) ->
  exists t1 a, m t = (t1, Ok a) /\ k a t1 = (t', Ok b).
Proof.
  unfold bind. destruct (m t) as [t1 [a|e]]; [eauto | discriminate].
Qed.

Lemma array_setitem_ok_inv t p cell t' u :
  array_setitem p cell t = (t', Ok u) ->
  0 <= p < table_size t /\
  t' = set_array (<[Z.to_nat p := cell]> (array t)) t.
Proof.
  unfold array_setitem, table_size.
  destruct (Z.ltb_spec p 0); [discriminate|].
  destruct (Nat.ltb_spec (Z.to_nat p) (length (array t))); [|discriminate].
  intros [= <-]. split; [lia | reflexivity].
Qed.

Lemma delitem_clear_start t key p k hash_table t1 c :
  delitem_clear key p k hash_table t = (t1, Ok (Some c)) ->
  0 <= c < table_size t1 /\
  exists f, 0 <= f < table_size t1 /\ free_at (array t1) f.
Proof.
  unfold delitem_clear. intros H.
  apply bind_ok_inv in H as (td & u & _ & H).
  destruct (lpt_is_empty hash_table); [|discriminate].
  apply bind_ok_inv in H as (te & curr_pos & _ & H).
  apply bind_ok_inv in H as (tf & u' & Hset & H).
  apply array_setitem_ok_inv in Hset as (Hp & ->).
  munfold. injection H as <- <-.
  change (array (set_count (count te - 1)
            (set_array (<[Z.to_nat curr_pos:=None]> (array te)) te)))
    with (<[Z.to_nat curr_pos:=None]> (array te)).
  change (table_size (set_count (count te - 1)
            (set_array (<[Z.to_nat curr_pos:=None]> (array te)) te)))
    with (Z.of_nat (length (<[Z.to_nat curr_pos:=None]> (array te)))).
  rewrite length_insert. fold (table_size te).
  split; [apply next_range; exact Hp|].
  exists curr_pos. split; [exact Hp|].
  apply free_at_insert_same. exact Hp.
Qed.

Lemma delitem_vacate_start fuel t key t1 c :
  delitem_vacate fuel key t = Some (t1, Ok (Some c)) ->
  0 <= c < table_size t1 /\
  exists f, 0 <= f < table_size t1 /\ free_at (array t1) f.
Proof.
  unfold delitem_vacate. intros H.
  destruct (delitem_locate key t) as [t0 [[p e]|x]]; [|discriminate].
  destruct (lpt_delitem fuel key.2 e.2) as [[ht|x]|]; try discriminate.
  injection H as H. eapply delitem_clear_start; eauto.
Qed.

Lemma delitem_vacate_more_fuel fuel t key out :
  delitem_vacate fuel key t = Some out ->
  forall fuel', (fuel <= fuel')%nat -> delitem_vacate fuel' key t = Some out.
Proof.
  unfold delitem_vacate. intros H fuel' Hle.
  destruct (delitem_locate key t) as [t0 [[p e]|x]]; [|exact H].
  destruct (lpt_delitem fuel key.2 e.2) as [r|] eqn:Hdel; [|discriminate].
  now rewrite (lpt_delitem_more_fuel _ _ _ _ Hdel fuel' Hle).
Qed.

Lemma delitem_vacate_returns t key :
  exists fuel out,
    forall fuel', (fuel <= fuel')%nat -> delitem_vacate fuel' key t = Some out.
Proof.
  unfold delitem_vacate.
  destruct (delitem_locate key t) as [t0 [[p e]|x]].
  2:{ exists O. eexists. reflexivity. }
  destruct (lpt_delitem_returns key.2 e.2) as (fuel & r & Hr).
  exists fuel.
  destruct r as [ht|x]; eexists; intros fuel' Hle; rewrite (Hr fuel' Hle);
    reflexivity.
Qed.

Lemma delitem_more_fuel fuel t key out :
  delitem fuel key t = Some out ->
  forall fuel', (fuel <= fuel')%nat -> delitem fuel' key t = Some out.
Proof.
  unfold delitem. intros H fuel' Hle.
  destruct (delitem_vacate fuel key t) as [[t1 r]|] eqn:Hvac; [|discriminate].
  rewrite (delitem_vacate_more_fuel _ _ _ _ Hvac fuel' Hle).
  destruct r as [[c|]|e]; try exact H.
  eapply repair_loop_more_fuel; eauto.
Qed.

(** A call of [__delitem__] returns or raises within finitely many
    iterations of its repair walks, whatever the table. *)
Lemma delitem_returns (t : DoubleKeyTable V) (key : string * string) :
  exists fuel out,
    forall fuel', (fuel <= fuel')%nat -> delitem fuel' key t = Some out.
Proof.
  destruct (delitem_vacate_returns t key) as (fuel1 & [t1 r] & Hvac).
  assert (Hrun : exists fuel out, delitem fuel key t = Some out).
  { destruct r as [[c|]|e].
    - destruct (delitem_vacate_start _ _ _ _ _ (Hvac fuel1 (le_n _)))
        as (Hc & f & Hf & Hfree).
      destruct (repair_loop_terminates (Z.to_nat (total_weight (array t1))) t1 c f)
        as (fuel2 & out & Hrun); try assumption.
      { pose proof (total_weight_nonneg (array t1)). lia. }
      exists (Nat.max fuel1 fuel2), out. unfold delitem.
      rewrite (Hvac _ (Nat.le_max_l fuel1 fuel2)).
      eapply repair_loop_more_fuel; [exact Hrun | apply Nat.le_max_r].
    - exists fuel1. eexists. unfold delitem. rewrite (Hvac _ (le_n _)). reflexivity.
    - exists fuel1. eexists. unfold delitem. rewrite (Hvac _ (le_n _)). reflexivity. }
  destruct Hrun as (fuel & out & Hrun).
  exists fuel, out. intros fuel' Hle. eapply delitem_more_fuel; eauto.
Qed.

End Inversion.

(** ** Lookups in a consistent table *)

Section Lookup.

Context {V : Type}.

Implicit Types (t : DoubleKeyTable V) (arr : list (option (entry V)))
  (lpt : LinearProbeTable V).

(** The probe for a stored first key stops at its cell and changes
    nothing. *)
Lemma linear_probe_stored t p k lpt key2 is_insert :
  probe_consistent (array t) ->
  0 <= p -> array t !! Z.to_nat p = Some (Some (k, lpt)) ->
  linear_probe k key2 is_insert t
  = (t, match key2 with
        | None => Ok (Top p)
        | Some k2 =>
            match lpt_linear_probe k2 is_insert lpt with
            | Ok q => Ok (Both p q)
            | Raise e => Raise e
            end
        end).
Proof.
  intros Hcons Hp Hcell.
  assert (Hr : 0 <= p < Z.of_nat (length (array t))).
  { apply lookup_lt_Some in Hcell. lia. }
  destruct (scan_stored (array t) k p Hcons Hr (cell_key_at _ _ _ _ Hcell))
    as (h & Hh & _ & Hscan).
  rewrite (linear_probe_scan t k key2 is_insert h Hh), Hscan. simpl.
  destruct key2 as [k2|]; [|reflexivity]. now rewrite Hcell.
Qed.

Lemma array_entry_lookup t p e :
  0 <= p -> array t !! Z.to_nat p = Some (Some e) -> array_entry p t = (t, Ok e).
Proof.
  intros Hp Hcell. unfold array_entry, bind.
  now rewrite (array_getitem_lookup _ _ _ Hp Hcell).
Qed.

Lemma nested_consistent_entry arr k lpt :
  nested_consistent arr -> has_entry arr k lpt -> probe_consistent (lpt_array lpt).
Proof. intros Hnc (i & Hi). eapply Hnc; eauto. Qed.

(** [__getitem__] on a first key that some cell holds reads that cell's
    nested table. *)
Lemma getitem_located t key lpt :
  table_inv t -> has_entry (array t) key.1 lpt ->
  match lpt_lookup key.2 (lpt_items lpt) with
  | Some v => getitem key t = (t, Ok v)
  | None =>
      exists e, getitem key t = (t, Raise e) /\
        (forall h, hash2 key.2 lpt = Ok h -> e = KeyError)
  end.
Proof.
  intros (Hcons & _ & Hnc) Hentry.
  pose proof (nested_consistent_entry _ _ _ Hnc Hentry) as Hlc.
  destruct (has_entry_key_at _ _ _ Hentry) as (p & Hp & _ & Hcell).
  pose proof (linear_probe_stored t p key.1 lpt (Some key.2) false Hcons
                (proj1 Hp) Hcell) as Hprobe.
  cbv beta iota in Hprobe.
  pose proof (lpt_probe_read key.2 lpt Hlc) as Hread.
  destruct (lpt_lookup key.2 (lpt_items lpt)) as [v|].
  - destruct Hread as (q & Hq & Hread). rewrite Hq in Hprobe.
    unfold getitem, linear_probe_both. unfold bind at 1. unfold bind at 1.
    rewrite Hprobe. simpl.
    unfold bind at 1. rewrite (array_entry_lookup _ _ _ (proj1 Hp) Hcell).
    simpl. unfold bind, lift. now rewrite Hread.
  - destruct Hread as (e & Hq & He). rewrite Hq in Hprobe.
    exists e. split; [|exact He].
    unfold getitem, linear_probe_both. unfold bind at 1. unfold bind at 1.
    now rewrite Hprobe.
Qed.

Lemma getitem_maps_to t key v :
  table_inv t -> maps_to t key v -> getitem key t = (t, Ok v).
Proof.
  intros Hinv (lpt & Hentry & Hl).
  pose proof (getitem_located t key lpt Hinv Hentry) as Hget.
  now rewrite Hl in Hget.
Qed.

Lemma getitem_ok_maps_to t key t' v :
  table_inv t -> getitem key t = (t', Ok v) ->
  t' = t /\ maps_to t key v.
Proof.
  intros Hinv Hget. pose proof Hget as Hget0.
  unfold getitem, linear_probe_both in Hget.
  destruct (hash1 t key.1) as [h|e] eqn:Hh.
  2:{ unfold linear_probe in Hget. munfold. rewrite Hh in Hget. discriminate. }
  unfold bind at 1 in Hget. unfold bind at 1 in Hget.
  rewrite (linear_probe_scan _ _ _ _ _ Hh) in Hget.
  destruct (array t) as [|c0 rest] eqn:Harr; [discriminate|]. rewrite <- Harr in *.
  assert (Hn : 1 <= table_size t).
  { unfold table_size. rewrite Harr. simpl. lia. }
  pose proof (hash1_range _ _ _ Hh Hn) as Hr. unfold table_size in Hr.
  pose proof (scan_spec (array t) key.1 (length (array t)) h Hr) as Hs.
  destruct (scan (array t) key.1 (length (array t)) h) as [p|p| |];
    simpl in Hget; try discriminate.
  destruct Hs as (Hp & Hkey & _).
  destruct (key_at_cell _ _ _ (proj1 Hp) Hkey) as (lpt & Hcell).
  assert (Hentry : has_entry (array t) key.1 lpt) by (now exists (Z.to_nat p)).
  pose proof (getitem_located t key lpt Hinv Hentry) as Hloc.
  destruct (lpt_lookup key.2 (lpt_items lpt)) as [v'|] eqn:Hl.
  - rewrite Hloc in Hget0. injection Hget0 as <- <-. split; [reflexivity|].
    exists lpt. split; [exact Hentry | exact Hl].
  - destruct Hloc as (e & Hloc & _). rewrite Hloc in Hget0. discriminate.
Qed.

End Lookup.

(** ** Read-only operations *)

Section ReadOnly.

Context {V : Type}.

Implicit Types (t : DoubleKeyTable V) (arr : list (option (entry V)))
  (lpt : LinearProbeTable V).

Lemma probe_outcome_lookup_state key1 key2 r t :
  (probe_outcome key1 key2 false r t).1 = t.
Proof.
  destruct r as [p|p| |]; simpl; try reflexivity.
  destruct key2 as [k2|]; [|reflexivity].
  destruct (array t !! Z.to_nat p) as [[[k lpt]|]|]; reflexivity.
Qed.

Lemma linear_probe_lookup_state t key1 key2 :
  (linear_probe key1 key2 false t).1 = t.
Proof.
  destruct (hash1 t key1) as [h|e] eqn:Hh.
  - rewrite (linear_probe_scan _ _ _ _ _ Hh). apply probe_outcome_lookup_state.
  - unfold linear_probe. munfold. now rewrite Hh.
Qed.

Lemma bind_state {A B : Type} (m : M V A) (k : A -> M V B) t :
  (m t).1 = t -> (forall a, (k a t).1 = t) -> (bind m k t).1 = t.
Proof.
  unfold bind. destruct (m t) as [t1 [a|e]]; simpl; intros ->; auto.
Qed.

Lemma array_getitem_state t p : (array_getitem p t).1 = t.
Proof.
  unfold array_getitem. destruct (p <? 0); [reflexivity|].
  destruct (array t !! Z.to_nat p); reflexivity.
Qed.

Lemma array_entry_state t p : (array_entry p t).1 = t.
Proof.
  unfold array_entry. apply bind_state; [apply array_getitem_state|].
  intros [e|]; reflexivity.
Qed.

Lemma linear_probe_top_lookup_state t key1 : (linear_probe_top key1 false t).1 = t.
Proof.
  unfold linear_probe_top. apply bind_state; [apply linear_probe_lookup_state|].
  intros [p|p q]; reflexivity.
Qed.

Lemma linear_probe_both_lookup_state t key1 key2 :
  (linear_probe_both key1 key2 false t).1 = t.
Proof.
  unfold linear_probe_both. apply bind_state; [apply linear_probe_lookup_state|].
  intros [p|p q]; reflexivity.
Qed.

Lemma getitem_state t key : (getitem key t).1 = t.
Proof.
  unfold getitem. apply bind_state; [apply linear_probe_both_lookup_state|].
  intros pos. apply bind_state; [apply array_entry_state|].
  intros e. apply bind_state; [reflexivity|].
  intros [[k v]|]; reflexivity.
Qed.

Lemma contains_state t key : (contains key t).1 = t.
Proof.
  unfold contains. pose proof (getitem_state t key) as H.
  destruct (getitem key t) as [t1 [v|[]]]; exact H.
Qed.

Lemma keys_state t key : (keys key t).1 = t.
Proof.
  destruct key as [k|]; simpl.
  - apply bind_state; [apply linear_probe_top_lookup_state|].
    intros p. apply bind_state; [apply array_entry_state|]. reflexivity.
  - reflexivity.
Qed.

Lemma values_loop_state ks : forall t, (values_loop ks t).1 = t.
Proof.
  induction ks as [|k rest IH]; intros t; simpl; [reflexivity|].
  apply bind_state; [apply linear_probe_top_lookup_state|].
  intros p. apply bind_state; [apply array_entry_state|].
  intros e. apply bind_state; [apply IH|]. reflexivity.
Qed.

Lemma values_state t key : (values key t).1 = t.
Proof.
  destruct key as [k|]; simpl.
  - apply bind_state; [apply linear_probe_top_lookup_state|].
    intros p. apply bind_state; [apply array_entry_state|]. reflexivity.
  - apply bind_state; [apply (keys_state t None)|].
    intros ks. apply values_loop_state.
Qed.

End ReadOnly.

(** ** Insertion before the resize *)

Section Insertion.

Context {V : Type}.

Implicit Types (t : DoubleKeyTable V) (arr : list (option (entry V)))
  (lpt : LinearProbeTable V).

Lemma linear_probe_both_inv t key1 key2 is_insert ta pos :
  linear_probe_both key1 key2 is_insert t = (ta, Ok pos) ->
  linear_probe key1 (Some key2) is_insert t = (ta, Ok (Both pos.1 pos.2)).
Proof.
  unfold linear_probe_both, bind.
  destruct (linear_probe key1 (Some key2) is_insert t) as [t1 [[p|p q]|e]];
    simpl; try discriminate.
  unfold ret. now intros [= <- <-].
Qed.

Lemma array_entry_inv t p t' e :
  array_entry p t = (t', Ok e) ->
  t' = t /\ 0 <= p /\ array t !! Z.to_nat p = Some (Some e).
Proof.
  unfold array_entry, bind, array_getitem.
  destruct (Z.ltb_spec p 0); [discriminate|].
  destruct (array t !! Z.to_nat p) as [[e'|]|]; simpl; try discriminate.
  unfold ret. intros [= <- <-]. auto.
Qed.

Lemma lift_inv {A : Type} (f : DoubleKeyTable V -> result A) t t' a :
  lift f t = (t', Ok a) -> t' = t /\ f t = Ok a.
Proof. unfold lift. intros [= <- ->]. auto. Qed.

(** Where an insert-mode probe with a second key stops: at the cell that
    holds the first key, or at the free cell that ends its probe path, which
    then holds a fresh nested table. *)
Lemma probe_insert_result t key1 key2 ta pos :
  probe_consistent (array t) ->
  linear_probe_both key1 key2 true t = (ta, Ok pos) ->
  exists lpt0,
    0 <= pos.1 < table_size t /\
    ta = set_array (<[Z.to_nat pos.1 := Some (key1, lpt0)]> (array t)) t /\
    (array t !! Z.to_nat pos.1 = Some (Some (key1, lpt0)) \/
     (free_at (array t) pos.1 /\ lpt_new (internal_sizes t) = Ok lpt0 /\
      (forall q, 0 <= q < table_size t -> key_at (array t) q <> Some key1) /\
      exists h, hash_str (table_size t) key1 = Ok h /\
        forall q, 0 <= q < table_size t ->
          disp (table_size t) h q < disp (table_size t) h pos.1 ->
          occupied_at (array t) q)).
Proof.
  intros Hcons Hprobe. apply linear_probe_both_inv in Hprobe.
  destruct pos as [p q0]. simpl in *.
  destruct (hash1 t key1) as [h|e] eqn:Hh.
  2:{ unfold linear_probe in Hprobe. munfold. rewrite Hh in Hprobe. discriminate. }
  rewrite (linear_probe_scan _ _ _ _ _ Hh) in Hprobe.
  destruct (array t) as [|c0 rest] eqn:Harr; [discriminate|]. rewrite <- Harr in *.
  assert (Hn : 1 <= table_size t).
  { unfold table_size. rewrite Harr. simpl. lia. }
  pose proof (hash1_range _ _ _ Hh Hn) as Hr. unfold table_size in Hr.
  pose proof (scan_spec (array t) key1 (length (array t)) h Hr) as Hs.
  destruct (scan (array t) key1 (length (array t)) h) as [p'|p'| |] eqn:Hscan;
    simpl in Hprobe; try discriminate.
  - destruct Hs as (Hp & Hkey & _).
    destruct (key_at_cell _ _ _ (proj1 Hp) Hkey) as (lpt & Hcell).
    rewrite Hcell in Hprobe.
    destruct (lpt_linear_probe key2 true lpt) as [q|e]; [|discriminate].
    injection Hprobe as <- <- <-.
    exists lpt. split; [exact Hp|]. split; [|now left].
    rewrite list_insert_id by exact Hcell. symmetry. apply set_array_self.
  - destruct Hs as (Hp & Hfree & _ & Hq).
    destruct (lpt_new (internal_sizes t)) as [ht|e] eqn:Hnew; [|discriminate].
    destruct (lpt_linear_probe key2 true ht) as [q|e]; [|discriminate].
    injection Hprobe as <- <- <-.
    exists ht. split; [exact Hp|].
    split; [reflexivity|]. right. split; [exact Hfree|]. split; [reflexivity|].
    split.
    + intros q' Hq' Hk.
      destruct (scan_stored (array t) key1 q' Hcons Hq' Hk) as (h' & Hh' & _ & Hs').
      unfold hash1, table_size in Hh. rewrite Hh in Hh'. injection Hh' as <-.
      congruence.
    + exists h. split; [exact Hh|].
      intros q' Hq' Hd. eapply other_occupied. apply Hq; eauto.
Qed.

(** The state of [__setitem__] when it reaches its growth test. *)
Lemma setitem_store t key1 key2 data t' :
  table_inv t ->
  setitem (key1, key2) data t = (t', Ok tt) ->
  exists p lpt0 sub_table c,
    0 <= p < table_size t /\
    probe_consistent (lpt_array lpt0) /\
    lpt_setitem key2 data lpt0 = Ok sub_table /\
    (array t !! Z.to_nat p = Some (Some (key1, lpt0)) \/
     (free_at (array t) p /\ lpt_new (internal_sizes t) = Ok lpt0 /\
      (forall q, 0 <= q < table_size t -> key_at (array t) q <> Some key1) /\
      exists h, hash_str (table_size t) key1 = Ok h /\
        forall q, 0 <= q < table_size t ->
          disp (table_size t) h q < disp (table_size t) h p ->
          occupied_at (array t) q)) /\
    let tm := set_count c
                (set_array (<[Z.to_nat p := Some (key1, sub_table)]> (array t)) t) in
    (if 2 * len tm >? table_size tm then rehash tm else (tm, Ok tt)) = (t', Ok tt).
Proof.
  intros (Hcons & Hne & Hnc) Hset. unfold setitem in Hset.
  apply bind_ok_inv in Hset as (ta & pos & Hprobe & Hset).
  apply bind_ok_inv in Hset as (tb & e & Hentry & Hset).
  apply bind_ok_inv in Hset as (tc & u & Hcount & Hset).
  apply bind_ok_inv in Hset as (td & sub_table & Hsub & Hset).
  apply bind_ok_inv in Hset as (te & u' & Hstore & Hset).
  apply bind_ok_inv in Hset as (tf & tg & Hget & Hset).
  destruct (probe_insert_result _ _ _ _ _ Hcons Hprobe) as (lpt0 & Hp & Hta & Hcase).
  apply array_entry_inv in Hentry as (-> & _ & Hcell).
  assert (He : e = (key1, lpt0)).
  { rewrite Hta in Hcell. simpl in Hcell.
    rewrite list_lookup_insert_eq in Hcell by (unfold table_size in Hp; lia).
    congruence. }
  subst e. simpl in *.
  apply lift_inv in Hsub as (-> & Hsub).
  assert (Htc : exists c, tc = set_count c ta).
  { destruct (lpt_is_empty lpt0); munfold; injection Hcount as <- _; eauto.
    exists (count ta). now destruct ta. }
  destruct Htc as (c & ->).
  apply array_setitem_ok_inv in Hstore as (_ & ->).
  unfold gets, id in Hget. injection Hget as <- <-.
  exists pos.1, lpt0, sub_table, c. split; [exact Hp|]. split.
  { destruct Hcase as [Hc|(_ & Hnew & _)].
    - eapply Hnc; eauto.
    - apply (lpt_new_empty _ _ Hnew). }
  split; [exact Hsub|].
  split; [exact Hcase|]. cbv zeta.
  rewrite Hta in Hset. simpl in Hset.
  rewrite list_insert_insert_eq in Hset.
  set (tm := set_count c
               (set_array (<[Z.to_nat pos.1 := Some (key1, sub_table)]> (array t)) t)).
  assert (Hset' : (if 2 * len tm >? table_size tm then rehash else ret tt) tm
                  = (t', Ok tt)) by exact Hset.
  change (2 * c) with (2 * len tm).
  destruct (2 * len tm >? table_size tm); exact Hset'.
Qed.

End Insertion.

(** ** Entries under updates of one cell *)

Section Entries.

Context {V : Type}.

Implicit Types (t : DoubleKeyTable V) (arr : list (option (entry V)))
  (lpt : LinearProbeTable V).

Lemma nested_nonempty_insert arr (i : nat) k lpt :
  nested_nonempty arr -> lpt_is_empty lpt = false ->
  nested_nonempty (<[i := Some (k, lpt)]> arr).
Proof.
  intros Hne Hlpt j k' lpt' Hj. destruct (Nat.eq_dec j i) as [->|Hji].
  - destruct (Nat.lt_ge_cases i (length arr)) as [Hlt|Hge].
    + rewrite list_lookup_insert_eq in Hj by lia. congruence.
    + rewrite list_insert_ge in Hj by lia. eapply Hne; eauto.
  - rewrite list_lookup_insert_ne in Hj by lia. eapply Hne; eauto.
Qed.

Lemma nested_nonempty_vacate arr (i : nat) :
  nested_nonempty arr -> nested_nonempty (<[i := None]> arr).
Proof.
  intros Hne j k' lpt' Hj. destruct (Nat.eq_dec j i) as [->|Hji].
  - destruct (Nat.lt_ge_cases i (length arr)) as [Hlt|Hge].
    + rewrite list_lookup_insert_eq in Hj by lia. discriminate.
    + rewrite list_insert_ge in Hj by lia. eapply Hne; eauto.
  - rewrite list_lookup_insert_ne in Hj by lia. eapply Hne; eauto.
Qed.

Lemma nested_consistent_insert arr (i : nat) k lpt :
  nested_consistent arr -> probe_consistent (lpt_array lpt) ->
  nested_consistent (<[i := Some (k, lpt)]> arr).
Proof.
  intros Hnc Hlpt j k' lpt' Hj. destruct (Nat.eq_dec j i) as [->|Hji].
  - destruct (Nat.lt_ge_cases i (length arr)) as [Hlt|Hge].
    + rewrite list_lookup_insert_eq in Hj by lia. congruence.
    + rewrite list_insert_ge in Hj by lia. eapply Hnc; eauto.
  - rewrite list_lookup_insert_ne in Hj by lia. eapply Hnc; eauto.
Qed.

Lemma nested_consistent_vacate arr (i : nat) :
  nested_consistent arr -> nested_consistent (<[i := None]> arr).
Proof.
  intros Hnc j k' lpt' Hj. destruct (Nat.eq_dec j i) as [->|Hji].
  - destruct (Nat.lt_ge_cases i (length arr)) as [Hlt|Hge].
    + rewrite list_lookup_insert_eq in Hj by lia. discriminate.
    + rewrite list_insert_ge in Hj by lia. eapply Hnc; eauto.
  - rewrite list_lookup_insert_ne in Hj by lia. eapply Hnc; eauto.
Qed.

(** The array that [__setitem__] leaves before its growth test is
    consistent, and differs from the old one in the stored pair only. *)
Lemma store_result arr p key1 key2 data lpt0 sub_table :
  probe_consistent arr -> nested_nonempty arr -> nested_consistent arr ->
  0 <= p < Z.of_nat (length arr) ->
  probe_consistent (lpt_array lpt0) ->
  lpt_setitem key2 data lpt0 = Ok sub_table ->
  (arr !! Z.to_nat p = Some (Some (key1, lpt0)) \/
   (free_at arr p /\ lpt_items lpt0 = [] /\
    (forall q, 0 <= q < Z.of_nat (length arr) -> key_at arr q <> Some key1) /\
    exists h, hash_str (Z.of_nat (length arr)) key1 = Ok h /\
      forall q, 0 <= q < Z.of_nat (length arr) ->
        disp (Z.of_nat (length arr)) h q < disp (Z.of_nat (length arr)) h p ->
        occupied_at arr q)) ->
  let arr' := <[Z.to_nat p := Some (key1, sub_table)]> arr in
  probe_consistent arr' /\ nested_nonempty arr' /\ nested_consistent arr' /\
  has_entry arr' key1 sub_table /\
  (forall k lpt, k <> key1 -> has_entry arr' k lpt <-> has_entry arr k lpt) /\
  (forall k2 v, k2 <> key2 ->
     lpt_lookup k2 (lpt_items sub_table) = Some v <->
     exists lpt, has_entry arr key1 lpt /\ lpt_lookup k2 (lpt_items lpt) = Some v).
Proof.
  intros Hcons Hne Hnc Hp Hlc Hsub Hcase arr'.
  destruct (lpt_setitem_spec _ _ _ _ Hlc Hsub)
    as (Hlc' & Hsame & Hother & Hnonempty & _).
  assert (Hentry : has_entry arr' key1 sub_table).
  { exists (Z.to_nat p). apply list_lookup_insert_eq. lia. }
  assert (Hne' : nested_nonempty arr') by (now apply nested_nonempty_insert).
  assert (Hnc' : nested_consistent arr') by (now apply nested_consistent_insert).
  destruct Hcase as [Hcell|(Hfree & Hnew & Habs & h & Hh & Hclear)].
  - split; [|split; [exact Hne'|split; [exact Hnc'|split; [exact Hentry|split]]]].
    + apply probe_consistent_update; try assumption. eapply cell_key_at; eauto.
    + intros k lpt Hk. unfold arr'.
      rewrite (has_entry_update arr p key1 lpt0 sub_table k lpt (proj1 Hcons)
                 (proj1 Hp) Hcell).
      split; [intros [[? _]|[_ ?]]; [contradiction | assumption] | auto].
    + intros k2 v Hk2. rewrite (Hother k2 Hk2). split.
      * intros Hl. exists lpt0. split; [now exists (Z.to_nat p) | exact Hl].
      * intros (lpt & Hlpt & Hl).
        assert (lpt = lpt0); [|now subst].
        eapply has_entry_unique; [apply Hcons | exact Hlpt | now exists (Z.to_nat p)].
  - split; [|split; [exact Hne'|split; [exact Hnc'|split; [exact Hentry|split]]]].
    + eapply probe_consistent_insert; eauto.
    + intros k lpt Hk. unfold arr'.
      rewrite (has_entry_insert_free arr p key1 sub_table k lpt Hp Hfree).
      split; [intros [?|[? _]]; [assumption | contradiction] | auto].
    + intros k2 v Hk2. rewrite (Hother k2 Hk2).
      assert (Hnone : lpt_lookup k2 (lpt_items lpt0) = None) by (now rewrite Hnew).
      rewrite Hnone. split; [discriminate|].
      intros (lpt & Hlpt & _). exfalso.
      destruct (has_entry_key_at _ _ _ Hlpt) as (q & Hq & Hkq & _).
      eapply Habs; eauto.
Qed.

End Entries.

(** ** Resizing *)

Section Resize.

Context {V : Type}.

Implicit Types (t : DoubleKeyTable V) (arr : list (option (entry V)))
  (lpt : LinearProbeTable V).

Lemma top_keys_cons (cell : option (entry V)) arr :
  top_keys (cell :: arr)
  = match cell with
    | Some (k, _) => k :: top_keys arr
    | None => top_keys arr
    end.
Proof. destruct cell as [[k lpt]|]; reflexivity. Qed.

Lemma elem_of_top_keys arr k :
  k ∈ top_keys arr <-> exists lpt, has_entry arr k lpt.
Proof.
  unfold top_keys. rewrite list_elem_of_omap. split.
  - intros (cell & Hin & Hk). destruct cell as [[k' lpt]|]; [|discriminate].
    simpl in Hk. injection Hk as ->.
    apply list_elem_of_lookup in Hin as (i & Hi). exists lpt, i. exact Hi.
  - intros (lpt & i & Hi). exists (Some (k, lpt)). split; [|reflexivity].
    eapply list_elem_of_lookup_2; eauto.
Qed.

Lemma distinct_keys_NoDup arr : distinct_keys arr -> NoDup (top_keys arr).
Proof.
  intros Hdist.
  assert (Hnat : forall (i j : nat) k lpt lpt',
            arr !! i = Some (Some (k, lpt)) -> arr !! j = Some (Some (k, lpt')) ->
            i = j).
  { intros i j k lpt lpt' Hi Hj.
    destruct (entry_position _ _ _ _ Hi) as [Hir Hik].
    destruct (entry_position _ _ _ _ Hj) as [Hjr Hjk].
    assert (Z.of_nat i = Z.of_nat j) by (eapply Hdist; eauto). lia. }
  clear Hdist. induction arr as [|cell rest IH]; [constructor|].
  rewrite top_keys_cons.
  assert (Hrest : NoDup (top_keys rest)).
  { apply IH. intros i j k lpt lpt' Hi Hj.
    assert (S i = S j) by (eapply Hnat; eauto). lia. }
  destruct cell as [[k lpt]|]; [|exact Hrest].
  constructor; [|exact Hrest].
  intros Hin. apply elem_of_top_keys in Hin as (lpt' & j & Hj).
  assert (O = S j) by (eapply (Hnat O (S j)); eauto; reflexivity).
  discriminate.
Qed.

Lemma nested_nonempty_empty (n : nat) : nested_nonempty (V:=V) (replicate n None).
Proof.
  intros i k lpt Hi. apply lookup_replicate in Hi as [Hi _]. discriminate.
Qed.

(** An insert-mode probe with no second key for a first key that no cell
    holds stops at the free cell that ends its probe path and changes
    nothing. *)
Lemma probe_top_insert_absent t key1 ta p :
  (forall q, 0 <= q < table_size t -> key_at (array t) q <> Some key1) ->
  linear_probe_top key1 true t = (ta, Ok p) ->
  ta = t /\ 0 <= p < table_size t /\ free_at (array t) p /\
  exists h, hash_str (table_size t) key1 = Ok h /\
    forall q, 0 <= q < table_size t ->
      disp (table_size t) h q < disp (table_size t) h p ->
      occupied_at (array t) q.
Proof.
  intros Habs Hprobe.
  destruct (hash1 t key1) as [h|e] eqn:Hh.
  2:{ rewrite (linear_probe_top_hash_raises _ _ _ _ Hh) in Hprobe. discriminate. }
  rewrite (linear_probe_top_scan _ _ _ _ Hh) in Hprobe.
  destruct (array t) as [|c0 rest] eqn:Harr; [discriminate|]. rewrite <- Harr in *.
  assert (Hn : 1 <= table_size t).
  { unfold table_size. rewrite Harr. simpl. lia. }
  pose proof (hash1_range _ _ _ Hh Hn) as Hr. unfold table_size in Hr.
  destruct (scan_absent (array t) key1 h Habs Hr)
    as [(p' & Hscan & Hp' & Hfree & Hclear)|Hscan]; rewrite Hscan in Hprobe;
    [|discriminate].
  injection Hprobe as <- <-.
  split; [reflexivity|]. split; [exact Hp'|]. split; [exact Hfree|].
  exists h. split; [exact Hh | exact Hclear].
Qed.

Lemma rehash_loop_result old : forall t t',
  probe_consistent (array t) -> nested_nonempty (array t) ->
  NoDup (top_keys old) ->
  (forall k lpt, Some (k, lpt) ∈ old -> lpt_is_empty lpt = false) ->
  (forall k, k ∈ top_keys old ->
     forall q, 0 <= q < table_size t -> key_at (array t) q <> Some k) ->
  rehash_loop old t = (t', Ok tt) ->
  probe_consistent (array t') /\ nested_nonempty (array t') /\
  (forall k lpt,
     has_entry (array t') k lpt <-> has_entry (array t) k lpt \/ Some (k, lpt) ∈ old).
Proof.
  induction old as [|cell rest IH]; intros t t' Hcons Hne Hnd Hold Hfresh Hloop.
  - injection Hloop as <-. split; [exact Hcons|]. split; [exact Hne|].
    intros k lpt. split; [auto|]. intros [?|Hin]; [assumption|].
    now apply elem_of_nil in Hin.
  - rewrite top_keys_cons in Hnd, Hfresh.
    destruct cell as [[k lpt]|]; simpl in Hloop.
    + apply bind_ok_inv in Hloop as (ta & p & Hprobe & Hloop).
      apply bind_ok_inv in Hloop as (tb & u & Hstore & Hloop).
      destruct (probe_top_insert_absent t k ta p) as (-> & Hp & Hfree & h & Hh & Hclear);
        [apply Hfresh; left | exact Hprobe |].
      apply array_setitem_ok_inv in Hstore as (_ & ->).
      apply NoDup_cons in Hnd as [Hnotin Hnd].
      destruct (IH (set_array (<[Z.to_nat p := Some (k, lpt)]> (array t)) t) t')
        as (Hcons' & Hne' & Hentries).
      * apply (probe_consistent_insert (array t) k h p lpt Hcons); try assumption.
        apply Hfresh. left.
      * apply nested_nonempty_insert; [exact Hne|]. apply (Hold k lpt). left.
      * exact Hnd.
      * intros k' lpt' Hin. apply (Hold k' lpt'). now right.
      * intros k' Hin q Hq. simpl in Hq |- *.
        rewrite table_size_set_array, length_insert in Hq.
        rewrite key_at_insert by (unfold table_size in Hp; lia).
        destruct (Z.eq_dec q p) as [->|Hqp]; simpl.
        -- intros [= ->]. contradiction.
        -- apply Hfresh; [now right | exact Hq].
      * exact Hloop.
      * split; [exact Hcons'|]. split; [exact Hne'|].
        intros k' lpt'. rewrite Hentries. simpl.
        rewrite (has_entry_insert_free (array t) p k lpt k' lpt' Hp Hfree).
        rewrite elem_of_cons. split.
        -- intros [[?|[-> ->]]|?]; auto.
        -- intros [?|[[= -> ->]|?]]; auto.
    + destruct (IH t t' Hcons Hne Hnd
                  (fun k' lpt' Hin => Hold k' lpt' ltac:(right; exact Hin))
                  Hfresh Hloop) as (Hcons' & Hne' & Hentries).
      split; [exact Hcons'|]. split; [exact Hne'|].
      intros k' lpt'. rewrite Hentries, elem_of_cons. split.
      * intros [?|?]; auto.
      * intros [?|[?|?]]; auto. discriminate.
Qed.

Lemma nested_consistent_entries arr arr' :
  (forall k lpt, has_entry arr' k lpt -> has_entry arr k lpt) ->
  nested_consistent arr -> nested_consistent arr'.
Proof.
  intros Hsub Hnc i k lpt Hi.
  destruct (Hsub k lpt ltac:(now exists i)) as (j & Hj). eapply Hnc; eauto.
Qed.

(** A completed [_rehash] of a consistent table leaves a consistent table
    with the same entries. *)
Lemma rehash_result t t' :
  table_inv t -> rehash t = (t', Ok tt) ->
  table_inv t' /\
  (forall k lpt, has_entry (array t') k lpt <-> has_entry (array t) k lpt).
Proof.
  intros (Hcons & Hne & Hnc) Hre. unfold rehash in Hre. munfold. unfold id in Hre.
  simpl in Hre.
  destruct (Nat.leb_spec (length (TABLE_SIZES t)) (S (size_index t))).
  - injection Hre as <-. simpl. split; [exact (conj Hcons (conj Hne Hnc))|]. reflexivity.
  - destruct (TABLE_SIZES t !! S (size_index t)) as [n|]; [|discriminate].
    destruct (rehash_loop_result (array t)
                (set_count 0 (set_array (ArrayR n)
                                (set_size_index (S (size_index t)) t))) t')
      as (Hcons' & Hne' & Hentries).
    + apply probe_consistent_empty.
    + apply nested_nonempty_empty.
    + apply distinct_keys_NoDup, Hcons.
    + intros k lpt Hin. apply list_elem_of_lookup in Hin as (i & Hi).
      eapply Hne; eauto.
    + intros k _ q _. simpl. unfold ArrayR. rewrite key_at_replicate. discriminate.
    + exact Hre.
    + assert (Hent : forall k lpt,
                has_entry (array t') k lpt <-> has_entry (array t) k lpt).
      { intros k lpt. rewrite Hentries. simpl. split.
        * intros [(i & Hi)|Hin].
          -- unfold ArrayR in Hi. apply lookup_replicate in Hi as [Hi _]. discriminate.
          -- apply list_elem_of_lookup in Hin as (i & Hi). now exists i.
        * intros (i & Hi). right. eapply list_elem_of_lookup_2; eauto. }
      split; [|exact Hent].
      split; [exact Hcons'|]. split; [exact Hne'|].
      apply (nested_consistent_entries (array t)); [|exact Hnc].
      intros k lpt. apply Hent.
Qed.

End Resize.

(** ** Deletion *)

Section Deletion.

Context {V : Type}.

Implicit Types (t : DoubleKeyTable V) (arr : list (option (entry V)))
  (lpt : LinearProbeTable V).

(** The walk ends without raising in a consistent table that holds the
    entries it started with. *)
Lemma repair_loop_result fuel : forall c t t' r,
  repair_inv (array t) c -> nested_nonempty (array t) ->
  nested_consistent (array t) ->
  0 <= c < table_size t ->
  repair_loop fuel c t = Some (t', r) ->
  r = Ok tt /\ table_inv t' /\
  (forall k lpt, has_entry (array t') k lpt <-> has_entry (array t) k lpt) /\
  table_size t' = table_size t.
Proof.
  induction fuel as [|fuel IH]; intros c t t' r Hinv Hne Hnc Hc Hrun.
  - simpl in Hrun.
    destruct (lookup_lt_is_Some_2 (array t) (Z.to_nat c)) as [cell Hcell].
    { unfold table_size in Hc. lia. }
    rewrite (array_getitem_lookup _ _ _ (proj1 Hc) Hcell) in Hrun.
    destruct cell as [[k lpt]|]; [discriminate|].
    injection Hrun as <- <-. split; [reflexivity|].
    split; [|split; reflexivity]. split; [|exact (conj Hne Hnc)].
    eapply repair_inv_done; eauto.
  - destruct (lookup_lt_is_Some_2 (array t) (Z.to_nat c)) as [cell Hcell].
    { unfold table_size in Hc. lia. }
    destruct cell as [[k lpt]|].
    2:{ rewrite (repair_loop_free _ _ _ (proj1 Hc) Hcell) in Hrun.
        injection Hrun as <- <-. split; [reflexivity|].
        split; [|split; reflexivity]. split; [|exact (conj Hne Hnc)].
        eapply repair_inv_done; eauto. }
    rewrite (repair_loop_step _ _ _ _ _ (proj1 Hc) Hcell) in Hrun.
    pose proof (cell_key_at _ _ _ _ Hcell) as Hkc.
    destruct (proj2 Hinv c k Hc Hkc) as (h0 & Hh0 & _).
    destruct (repair_body_cases t c k lpt Hc)
      as [(e & He & _)|(h & p & Hh & Hhr & Hp & _ & Hscan & Hbody)].
    { unfold table_size in He. congruence. }
    rewrite Hbody in Hrun.
    set (arr2 := <[Z.to_nat c := None]> (array t)) in *.
    assert (Hlen2 : length arr2 = length (array t)) by apply length_insert.
    assert (Hfree : free_at arr2 p /\
              forall q, 0 <= q < table_size t ->
                disp (table_size t) h q < disp (table_size t) h p ->
                occupied_at arr2 q).
    { destruct Hscan as [[Hs Hfp]|[Hs Hkp]].
      - split; [exact Hfp|].
        pose proof (scan_spec arr2 k (length arr2) h) as Hspec.
        rewrite Hs, Hlen2 in Hspec. destruct (Hspec Hhr) as (_ & _ & _ & Hq).
        intros q Hq1 Hq2. eapply other_occupied. now apply Hq.
      - exfalso. unfold arr2 in Hkp.
        rewrite key_at_vacate in Hkp by (unfold table_size in *; lia).
        destruct (Z.eq_dec p c) as [|Hpc]; [discriminate|].
        apply Hpc. apply (proj1 Hinv p c k); assumption. }
    destruct Hfree as [Hfp Hclear].
    destruct (IH ((c + 1) mod table_size t)
                (set_array (<[Z.to_nat p := Some (k, lpt)]> arr2) t) t' r)
      as (Hr & Hinv' & Hentries & Hsize).
    + simpl. apply (repair_inv_step (array t) c k lpt h p); assumption.
    + simpl. apply nested_nonempty_insert; [now apply nested_nonempty_vacate|].
      eapply Hne; eauto.
    + simpl. apply nested_consistent_insert; [now apply nested_consistent_vacate|].
      eapply Hnc; eauto.
    + rewrite table_size_set_array, length_insert, Hlen2. apply next_range, Hc.
    + exact Hrun.
    + split; [exact Hr|]. split; [exact Hinv'|]. split.
      2:{ rewrite Hsize, table_size_set_array, length_insert, Hlen2. reflexivity. }
      intros k' lpt'. rewrite Hentries. simpl.
      rewrite (has_entry_insert_free arr2 p k lpt k' lpt')
        by (rewrite ?Hlen2; assumption).
      unfold arr2.
      rewrite (has_entry_vacate (array t) c k lpt k' lpt' (proj1 Hinv)
                 (proj1 Hc) Hcell).
      split.
      * intros [[_ ?]|[-> ->]]; [assumption | now exists (Z.to_nat c)].
      * intros Hentry. destruct (string_dec k' k) as [->|Hk]; [|auto].
        right. split; [reflexivity|].
        eapply has_entry_unique; [apply Hinv | exact Hentry | now exists (Z.to_nat c)].
Qed.

(** A lookup-mode probe with a second key that returns has found the first
    key in the cell it reports. *)
Lemma probe_lookup_result t key1 key2 ta pos :
  linear_probe_both key1 key2 false t = (ta, Ok pos) ->
  ta = t /\ 0 <= pos.1 /\
  exists lpt, array t !! Z.to_nat pos.1 = Some (Some (key1, lpt)).
Proof.
  intros Hprobe.
  pose proof (linear_probe_both_lookup_state t key1 key2) as Hstate.
  rewrite Hprobe in Hstate. simpl in Hstate. subst ta. split; [reflexivity|].
  apply linear_probe_both_inv in Hprobe.
  destruct (hash1 t key1) as [h|e] eqn:Hh.
  2:{ unfold linear_probe in Hprobe. munfold. rewrite Hh in Hprobe. discriminate. }
  rewrite (linear_probe_scan _ _ _ _ _ Hh) in Hprobe.
  destruct (array t) as [|c0 rest] eqn:Harr; [discriminate|]. rewrite <- Harr in *.
  assert (Hn : 1 <= table_size t).
  { unfold table_size. rewrite Harr. simpl. lia. }
  pose proof (hash1_range _ _ _ Hh Hn) as Hr. unfold table_size in Hr.
  pose proof (scan_spec (array t) key1 (length (array t)) h Hr) as Hs.
  destruct (scan (array t) key1 (length (array t)) h) as [p|p| |];
    simpl in Hprobe; try discriminate.
  destruct Hs as (Hp & Hkey & _).
  destruct (key_at_cell _ _ _ (proj1 Hp) Hkey) as (lpt & Hcell).
  rewrite Hcell in Hprobe.
  destruct (lpt_linear_probe key2 false lpt); [|discriminate].
  injection Hprobe as <- _. split; [lia|]. eauto.
Qed.

Lemma delitem_locate_state t key : (delitem_locate key t).1 = t.
Proof.
  unfold delitem_locate.
  apply bind_state; [apply linear_probe_both_lookup_state|]. intros pos.
  apply bind_state; [|reflexivity].
  unfold array_entry. apply bind_state; [apply array_getitem_state|].
  intros [e|]; reflexivity.
Qed.

Lemma delitem_locate_inv t key t0 p e :
  delitem_locate key t = (t0, Ok (p, e)) ->
  t0 = t /\ 0 <= p /\
  exists lpt, e = (key.1, lpt) /\ array t !! Z.to_nat p = Some (Some (key.1, lpt)).
Proof.
  unfold delitem_locate. intros Hloc.
  apply bind_ok_inv in Hloc as (ta & pos & Hprobe & Hloc).
  apply bind_ok_inv in Hloc as (tb & e' & Hentry & Hloc).
  apply probe_lookup_result in Hprobe as (-> & Hp & lpt & Hcell).
  apply array_entry_inv in Hentry as (-> & _ & Hcell').
  unfold ret in Hloc. injection Hloc as <- <- <-.
  assert (e' = (key.1, lpt)) by congruence. subst e'. eauto.
Qed.

Lemma delitem_vacate_inv fuel t key t1 x :
  delitem_vacate fuel key t = Some (t1, Ok x) ->
  exists p lpt hash_table,
    0 <= p /\ array t !! Z.to_nat p = Some (Some (key.1, lpt)) /\
    lpt_delitem fuel key.2 lpt = Some (Ok hash_table).
Proof.
  unfold delitem_vacate. intros H.
  destruct (delitem_locate key t) as [t0 [[p e]|x0]] eqn:Hloc; [|discriminate].
  apply delitem_locate_inv in Hloc as (-> & Hp & lpt & -> & Hcell). simpl in H.
  destruct (lpt_delitem fuel key.2 lpt) as [[ht|x0]|] eqn:Hdel; try discriminate.
  exists p, lpt, ht. auto.
Qed.

(** [__delitem__] up to the repair walk, on a stored pair. *)
Lemma delitem_vacate_stored fuel t key p lpt hash_table :
  probe_consistent (array t) ->
  0 <= p -> array t !! Z.to_nat p = Some (Some (key.1, lpt)) ->
  lpt_delitem fuel key.2 lpt = Some (Ok hash_table) ->
  delitem_vacate fuel key t
  = Some (if lpt_is_empty hash_table
          then (set_count (count t - 1)
                  (set_array (<[Z.to_nat p := None]> (array t)) t),
                Ok (Some ((p + 1) mod table_size t)))
          else (set_array (<[Z.to_nat p := Some (key.1, hash_table)]> (array t)) t,
                Ok None)).
Proof.
  intros Hcons Hp Hcell Hdel.
  assert (Hr : 0 <= p < table_size t).
  { apply lookup_lt_Some in Hcell. unfold table_size. lia. }
  assert (Hq : exists q, lpt_linear_probe key.2 false lpt = Ok q).
  { unfold lpt_delitem in Hdel.
    destruct (lpt_linear_probe key.2 false lpt) as [q|e] eqn:Hq; [eauto|].
    discriminate. }
  destruct Hq as (q & Hq).
  assert (Hloc : delitem_locate key t = (t, Ok (p, (key.1, lpt)))).
  { unfold delitem_locate, linear_probe_both. unfold bind at 1. unfold bind at 1.
    rewrite (linear_probe_stored t p key.1 lpt (Some key.2) false Hcons Hp Hcell).
    rewrite Hq. simpl. unfold bind at 1.
    rewrite (array_entry_lookup _ _ _ Hp Hcell). reflexivity. }
  unfold delitem_vacate. rewrite Hloc. simpl. rewrite Hdel. f_equal.
  unfold delitem_clear.
  unfold bind at 1. rewrite (array_setitem_ok _ _ _ Hr).
  set (arr1 := <[Z.to_nat p := Some (key.1, hash_table)]> (array t)).
  destruct (lpt_is_empty hash_table); [|reflexivity].
  assert (Hcons1 : probe_consistent arr1).
  { apply (probe_consistent_update (array t) p key.1 hash_table).
    - exact Hr.
    - eapply cell_key_at; eauto.
    - exact Hcons. }
  assert (Hcell1 : arr1 !! Z.to_nat p = Some (Some (key.1, hash_table))).
  { apply list_lookup_insert_eq. unfold table_size in Hr. lia. }
  unfold linear_probe_top. unfold bind at 1. unfold bind at 1.
  rewrite (linear_probe_stored (set_array arr1 t) p key.1 hash_table None false
             Hcons1 Hp Hcell1).
  simpl. unfold bind at 1.
  rewrite array_setitem_ok
    by (rewrite table_size_set_array; unfold arr1; rewrite length_insert; exact Hr).
  munfold. simpl. unfold arr1. rewrite list_insert_insert_eq.
  unfold table_size. simpl. rewrite length_insert. reflexivity.
Qed.

End Deletion.

(** ** What completed insertions and deletions leave behind *)

Section Effects.

Context {V : Type}.

Implicit Types (t : DoubleKeyTable V) (arr : list (option (entry V)))
  (lpt : LinearProbeTable V).

Lemma maps_to_entries t t' key v :
  (forall lpt, has_entry (array t') key.1 lpt <-> has_entry (array t) key.1 lpt) ->
  maps_to t' key v <-> maps_to t key v.
Proof.
  intros H. unfold maps_to. split; intros (lpt & He & Hl); exists lpt;
    (split; [apply H; exact He | exact Hl]).
Qed.

(** A completed [__setitem__] keeps the invariant, stores the pair, and
    leaves every other pair as it was. *)
Lemma setitem_result t key data t' :
  table_inv t -> setitem key data t = (t', Ok tt) ->
  table_inv t' /\ maps_to t' key data /\
  (forall key' v, key' <> key -> maps_to t' key' v <-> maps_to t key' v).
Proof.
  intros Hinv Hset. destruct key as [key1 key2].
  destruct (setitem_store t key1 key2 data t' Hinv Hset)
    as (p & lpt0 & sub & c & Hp & Hlc & Hsub & Hcase & Hfinal).
  destruct Hinv as (Hcons & Hne & Hnc).
  set (arr' := <[Z.to_nat p := Some (key1, sub)]> (array t)) in *.
  destruct (store_result (array t) p key1 key2 data lpt0 sub Hcons Hne Hnc Hp Hlc
              Hsub)
    as (Hcons' & Hne' & Hnc' & Hentry & Hothers & Hsame).
  { destruct Hcase as [?|(Hf & Hnew & Habs & Hpath)]; [now left|].
    right. split; [exact Hf|]. split; [exact (proj1 (proj2 (proj2 (lpt_new_empty _ _ Hnew))))|].
    split; assumption. }
  fold arr' in Hcons', Hne', Hnc', Hentry, Hothers.
  destruct (lpt_setitem_spec _ _ _ _ Hlc Hsub) as (_ & Hstored & _).
  set (tm := set_count c (set_array arr' t)) in *.
  assert (Hinvm : table_inv tm) by exact (conj Hcons' (conj Hne' Hnc')).
  assert (Hres : table_inv t' /\
            forall k lpt, has_entry (array t') k lpt <-> has_entry arr' k lpt).
  { cbv zeta in Hfinal. destruct (2 * len tm >? table_size tm).
    - apply (rehash_result tm t' Hinvm Hfinal).
    - injection Hfinal as <-. split; [exact Hinvm | reflexivity]. }
  destruct Hres as [Hinv' Hentries].
  split; [exact Hinv'|]. split.
  - exists sub. split; [apply Hentries; exact Hentry | exact Hstored].
  - intros [k1 k2] v Hne1. unfold maps_to. simpl.
    destruct (string_dec k1 key1) as [->|Hk1].
    + assert (Hk2 : k2 <> key2) by congruence.
      rewrite <- (Hsame k2 v Hk2). split.
      * intros (lpt & He & Hl). apply Hentries in He.
        assert (lpt = sub); [|now subst].
        eapply has_entry_unique; [apply Hcons' | exact He | exact Hentry].
      * intros Hl. exists sub. split; [apply Hentries; exact Hentry | exact Hl].
    + split; intros (lpt & He & Hl); exists lpt; (split; [|exact Hl]).
      * apply Hothers; [exact Hk1|]. apply Hentries. exact He.
      * apply Hentries. apply Hothers; [exact Hk1|]. exact He.
Qed.

(** A completed [__delitem__] keeps the invariant, removes the pair, leaves
    every other pair as it was, and keeps the first key's cell exactly when
    its nested table still has an entry. *)
Lemma delitem_result t fuel key t' :
  table_inv t -> delitem fuel key t = Some (t', Ok tt) ->
  table_inv t' /\ (forall v, ~ maps_to t' key v) /\
  (forall key' v, key' <> key -> maps_to t' key' v <-> maps_to t key' v) /\
  table_size t' = table_size t /\
  (forall lpt', has_entry (array t') key.1 lpt' -> exists h, hash2 key.2 lpt' = Ok h).
Proof.
  intros (Hcons & Hne & Hnc) Hdel. unfold delitem in Hdel.
  destruct (delitem_vacate fuel key t) as [[t1 [x|e]]|] eqn:Hvac;
    [|discriminate..].
  destruct (delitem_vacate_inv _ _ _ _ _ Hvac) as (p & lpt & ht & Hp & Hcell & Hlpt).
  rewrite (delitem_vacate_stored fuel t key p lpt ht Hcons Hp Hcell Hlpt) in Hvac.
  assert (Hr : 0 <= p < Z.of_nat (length (array t))).
  { apply lookup_lt_Some in Hcell. lia. }
  assert (Hentry0 : has_entry (array t) key.1 lpt) by (now exists (Z.to_nat p)).
  assert (Hlc : probe_consistent (lpt_array lpt)) by (eapply Hnc; eauto).
  destruct (lpt_delitem_spec _ _ _ _ Hlc Hlpt) as (Hlc' & Hgone & Hkept & _).
  destruct (lpt_is_empty ht) eqn:Hempty.
  - injection Hvac as <- <-.
    set (arr2 := <[Z.to_nat p := None]> (array t)) in *.
    destruct (repair_loop_result fuel ((p + 1) mod table_size t)
                (set_count (count t - 1) (set_array arr2 t)) t' (Ok tt))
      as (_ & Hinv' & Hentries & Hsize).
    + simpl. apply (repair_inv_start (array t) p key.1 Hcons Hr).
      eapply cell_key_at; eauto.
    + simpl. now apply nested_nonempty_vacate.
    + simpl. now apply nested_consistent_vacate.
    + change (table_size (set_count (count t - 1) (set_array arr2 t)))
        with (Z.of_nat (length arr2)).
      unfold arr2. rewrite length_insert. apply next_range. exact Hr.
    + exact Hdel.
    + simpl in Hentries.
      assert (Hent : forall k lpt',
                has_entry (array t') k lpt' <-> k <> key.1 /\ has_entry (array t) k lpt').
      { intros k lpt'. rewrite Hentries. unfold arr2.
        apply (has_entry_vacate (array t) p key.1 lpt k lpt' (proj1 Hcons) Hp Hcell). }
      split; [exact Hinv'|]. split; [|split; [|split]].
      4:{ intros lpt' He. apply Hent in He as [Hk _]. now contradiction Hk. }
      * intros v (lpt' & He & _). apply Hent in He as [Hk _]. now apply Hk.
      * intros [k1 k2] v Hkey. unfold maps_to. simpl. split.
        -- intros (lpt' & He & Hl). apply Hent in He as [_ He]. eauto.
        -- intros (lpt' & He & Hl). exists lpt'. split; [|exact Hl].
           apply Hent. split; [|exact He]. intros ->.
           assert (lpt' = lpt)
             by (eapply has_entry_unique; [apply Hcons | exact He | exact Hentry0]).
           subst lpt'.
           assert (Hk2 : k2 <> key.2) by (intros ->; apply Hkey; now destruct key).
           rewrite <- (Hkept k2 Hk2) in Hl.
           rewrite (lpt_is_empty_no_lookup ht k2 Hempty) in Hl. discriminate.
      * rewrite Hsize. change (table_size (set_count (count t - 1) (set_array arr2 t)))
          with (Z.of_nat (length arr2)).
        unfold arr2. now rewrite length_insert.
  - injection Hvac as <- <-. injection Hdel as <-.
    set (arr1 := <[Z.to_nat p := Some (key.1, ht)]> (array t)).
    assert (Hent : forall k lpt',
              has_entry arr1 k lpt'
              <-> (k = key.1 /\ lpt' = ht) \/ (k <> key.1 /\ has_entry (array t) k lpt')).
    { intros k lpt'.
      apply (has_entry_update (array t) p key.1 lpt ht k lpt' (proj1 Hcons) Hp Hcell). }
    split; [|split; [|split; [|split]]].
    5:{ simpl. intros lpt' He. apply Hent in He as [[_ ->]|[Hk _]].
        - apply (lpt_delitem_size _ _ _ _ Hlc Hlpt).
        - now contradiction Hk. }
    + split; [|split]; simpl.
      * apply (probe_consistent_update (array t) p key.1 ht Hr); [|exact Hcons].
        eapply cell_key_at; eauto.
      * apply nested_nonempty_insert; assumption.
      * apply nested_consistent_insert; assumption.
    + intros v (lpt' & He & Hl). simpl in He. apply Hent in He as [[_ ->]|[Hk _]].
      * congruence.
      * now apply Hk.
    + intros [k1 k2] v Hkey. unfold maps_to. simpl. split.
      * intros (lpt' & He & Hl). apply Hent in He as [[-> ->]|[_ He]]; [|eauto].
        assert (Hk2 : k2 <> key.2) by (intros ->; apply Hkey; now destruct key).
        rewrite (Hkept k2 Hk2) in Hl. eauto.
      * intros (lpt' & He & Hl). destruct (string_dec k1 key.1) as [->|Hk1].
        -- assert (lpt' = lpt)
             by (eapply has_entry_unique; [apply Hcons | exact He | exact Hentry0]).
           subst lpt'.
           assert (Hk2 : k2 <> key.2) by (intros ->; apply Hkey; now destruct key).
           exists ht. split; [apply Hent; now left|]. now rewrite (Hkept k2 Hk2).
        -- exists lpt'. split; [apply Hent; now right | exact Hl].
    + rewrite table_size_set_array. unfold arr1, table_size.
      now rewrite length_insert.
Qed.

End Effects.

(** ** Reachable tables *)

Section Reachable.

Context {V : Type}.

Implicit Types (t : DoubleKeyTable V) (arr : list (option (entry V)))
  (lpt : LinearProbeTable V).

Lemma init_inv sizes internal t : init sizes internal = Ok t -> table_inv t.
Proof.
  unfold init. destruct (default DEFAULT_TABLE_SIZES sizes !! O) as [n|];
    [|discriminate].
  intros [= <-]. split; [|split]; simpl.
  - apply probe_consistent_empty.
  - apply nested_nonempty_empty.
  - intros i k lpt Hi. apply lookup_replicate in Hi as [Hi _]. discriminate.
Qed.

(** A deletion that raises has changed nothing. *)
Lemma delitem_raise_state t fuel key t' e :
  table_inv t -> delitem fuel key t = Some (t', Raise e) -> t' = t.
Proof.
  intros (Hcons & Hne & Hnc) Hdel. unfold delitem in Hdel.
  destruct (delitem_vacate fuel key t) as [[t1 [x|e0]]|] eqn:Hvac; [| |discriminate].
  - exfalso.
    destruct (delitem_vacate_inv _ _ _ _ _ Hvac)
      as (p & lpt & ht & Hp & Hcell & Hlpt).
    rewrite (delitem_vacate_stored fuel t key p lpt ht Hcons Hp Hcell Hlpt) in Hvac.
    assert (Hr : 0 <= p < Z.of_nat (length (array t))).
    { apply lookup_lt_Some in Hcell. lia. }
    destruct (lpt_is_empty ht); injection Hvac as <- <-; [|discriminate].
    set (arr2 := <[Z.to_nat p := None]> (array t)) in *.
    destruct (repair_loop_result fuel ((p + 1) mod table_size t)
                (set_count (count t - 1) (set_array arr2 t)) t' (Raise e))
      as (Habs & _); [| | | |exact Hdel|discriminate].
    + simpl. apply (repair_inv_start (array t) p key.1 Hcons Hr).
      eapply cell_key_at; eauto.
    + simpl. now apply nested_nonempty_vacate.
    + simpl. now apply nested_consistent_vacate.
    + change (table_size (set_count (count t - 1) (set_array arr2 t)))
        with (Z.of_nat (length arr2)).
      unfold arr2. rewrite length_insert. apply next_range. exact Hr.
  - injection Hdel as <- _.
    pose proof (delitem_locate_state t key) as Hstate.
    destruct (delitem_locate key t) as [t0 [[p en]|x0]] eqn:Hloc;
      simpl in Hstate; subst t0.
    2:{ unfold delitem_vacate in Hvac. rewrite Hloc in Hvac.
        now injection Hvac as <- _. }
    destruct (delitem_locate_inv _ _ _ _ _ Hloc) as (_ & Hp & lpt & -> & Hcell).
    destruct (lpt_delitem fuel key.2 lpt) as [[ht|x1]|] eqn:Hlpt.
    + exfalso.
      rewrite (delitem_vacate_stored fuel t key p lpt ht Hcons Hp Hcell Hlpt) in Hvac.
      destruct (lpt_is_empty ht); discriminate.
    + unfold delitem_vacate in Hvac. rewrite Hloc in Hvac. simpl in Hvac.
      rewrite Hlpt in Hvac. now injection Hvac as <- _.
    + unfold delitem_vacate in Hvac. rewrite Hloc in Hvac. simpl in Hvac.
      rewrite Hlpt in Hvac. discriminate.
Qed.

Lemma reachable_inv t : reachable t -> table_inv t.
Proof.
  induction 1 as [sizes internal t Hinit
                 |t key data t' _ IH Hset
                 |t fuel key t' r _ IH Hdel
                 |t key t' r _ IH Hget
                 |t key t' r _ IH Hc
                 |t key t' r _ IH Hk
                 |t key t' r _ IH Hv].
  - eapply init_inv; eauto.
  - eapply setitem_result; eauto.
  - destruct r as [[]|e].
    + eapply delitem_result; eauto.
    + now rewrite (delitem_raise_state _ _ _ _ _ IH Hdel).
  - pose proof (getitem_state t key) as Hs. rewrite Hget in Hs. simpl in Hs.
    now subst t'.
  - pose proof (contains_state t key) as Hs. rewrite Hc in Hs. simpl in Hs.
    now subst t'.
  - pose proof (keys_state t key) as Hs. rewrite Hk in Hs. simpl in Hs.
    now subst t'.
  - pose proof (values_state t key) as Hs. rewrite Hv in Hs. simpl in Hs.
    now subst t'.
Qed.

Lemma stored_key_hashes t k lpt :
  probe_consistent (array t) -> has_entry (array t) k lpt ->
  exists h, hash1 t k = Ok h.
Proof.
  intros [_ Hpath] Hentry.
  destruct (has_entry_key_at _ _ _ Hentry) as (p & Hp & Hk & _).
  destruct (Hpath p k Hp Hk) as (h & Hh & _). now exists h.
Qed.

Lemma stored_maps_to t key :
  stored key t = true -> exists v, maps_to t key v.
Proof.
  unfold stored. rewrite existsb_exists. intros (cell & Hin & Hholds).
  destruct cell as [[k lpt]|]; [|discriminate]. simpl in Hholds.
  apply andb_prop in Hholds as [Hk Hidx]. apply String.eqb_eq in Hk. subst k.
  destruct (lpt_index key.2 (lpt_items lpt)) as [i|] eqn:Hi; [|discriminate].
  destruct (lpt_index_lookup _ _ _ Hi) as (k & v & _ & Hl).
  exists v, lpt. split; [|exact Hl].
  apply list_elem_of_In, list_elem_of_lookup in Hin as (j & Hj). now exists j.
Qed.

Lemma second_hash_entries t key :
  (forall lpt, has_entry (array t) key.1 lpt -> exists h, hash2 key.2 lpt = Ok h) ->
  second_hash_returns key t = true.
Proof.
  intros Hall. unfold second_hash_returns. apply forallb_forall.
  intros [[k lpt]|] Hin; [|reflexivity]. simpl.
  destruct (String.eqb_spec k key.1) as [->|]; [|reflexivity].
  apply list_elem_of_In, list_elem_of_lookup in Hin as (i & Hi).
  destruct (Hall lpt ltac:(now exists i)) as (h & ->). reflexivity.
Qed.

Lemma getitem_not_mapped t key h :
  (forall v, ~ maps_to t key v) -> second_hash_returns key t = true ->
  hash1 t key.1 = Ok h ->
  getitem key t = (t, Raise KeyError).
Proof.
  intros Hnone Hsec Hh. apply (getitem_absent t key h); [|exact Hsec|exact Hh].
  destruct (stored key t) eqn:Hst; [|reflexivity].
  destruct (stored_maps_to _ _ Hst) as (v & Hv). exfalso. eapply Hnone; eauto.
Qed.

Lemma contains_true_maps_to t key :
  table_inv t -> contains key t = (t, Ok true) ->
  exists v, maps_to t key v.
Proof.
  intros Hcons Hc. unfold contains in Hc.
  destruct (getitem key t) as [t1 [v|e]] eqn:Hget.
  - exists v. eapply getitem_ok_maps_to; eauto.
  - destruct e; discriminate.
Qed.

(** Deleting a stored pair returns, given enough iterations for the repair
    walk. *)
Lemma delitem_stored t key v :
  table_inv t -> maps_to t key v ->
  exists fuel t',
    forall fuel', (fuel <= fuel')%nat -> delitem fuel' key t = Some (t', Ok tt).
Proof.
  intros (Hcons & Hne & Hnc) (lpt & Hentry & Hl).
  destruct (has_entry_key_at _ _ _ Hentry) as (p & Hp & Hk & Hcell).
  assert (Hlc : probe_consistent (lpt_array lpt)) by (eapply Hnc; eauto).
  destruct (lpt_delitem_stored _ _ _ Hlc Hl) as (fuel0 & ht & Hdel).
  assert (Hvac : forall fuel', (fuel0 <= fuel')%nat ->
            delitem_vacate fuel' key t
            = Some (if lpt_is_empty ht
                    then (set_count (count t - 1)
                            (set_array (<[Z.to_nat p := None]> (array t)) t),
                          Ok (Some ((p + 1) mod table_size t)))
                    else (set_array (<[Z.to_nat p := Some (key.1, ht)]> (array t)) t,
                          Ok None))).
  { intros fuel' Hle.
    apply (delitem_vacate_stored fuel' t key p lpt ht Hcons (proj1 Hp) Hcell).
    now apply Hdel. }
  unfold delitem.
  destruct (lpt_is_empty ht).
  - set (arr2 := <[Z.to_nat p := None]> (array t)) in *.
    set (t1 := set_count (count t - 1) (set_array arr2 t)) in *.
    set (c := (p + 1) mod table_size t) in *.
    assert (Hsize : table_size t1 = table_size t).
    { unfold t1, table_size, arr2. simpl. now rewrite length_insert. }
    assert (Hc : 0 <= c < table_size t1).
    { rewrite Hsize. apply next_range. exact Hp. }
    destruct (repair_loop_terminates (Z.to_nat (total_weight (array t1))) t1 c p)
      as (fuel & [t' r] & Hrun).
    + pose proof (total_weight_nonneg (array t1)). lia.
    + exact Hc.
    + rewrite Hsize. exact Hp.
    + apply free_at_insert_same. exact Hp.
    + destruct (repair_loop_result fuel c t1 t' r) as (-> & _); try assumption.
      * apply (repair_inv_start (array t) p key.1 Hcons Hp Hk).
      * simpl. now apply nested_nonempty_vacate.
      * simpl. now apply nested_consistent_vacate.
      * exists (Nat.max fuel0 fuel), t'. intros fuel' Hle.
        rewrite (Hvac fuel') by lia.
        eapply repair_loop_more_fuel; [exact Hrun | lia].
  - exists fuel0. eexists. intros fuel' Hle. rewrite (Hvac fuel' Hle). reflexivity.
Qed.

Lemma setitems_result l : forall t t',
  table_inv t -> setitems l t = (t', Ok tt) ->
  table_inv t' /\
  forall key,
    match last_set l key with
    | Some v => maps_to t' key v
    | None => forall v, maps_to t' key v <-> maps_to t key v
    end.
Proof.
  induction l as [|[k v] rest IH]; intros t t' Hinv Hrun; simpl in Hrun.
  - injection Hrun as <-. split; [exact Hinv|]. intros key v. reflexivity.
  - apply bind_ok_inv in Hrun as (t1 & [] & Hset & Hrun).
    destruct (setitem_result t k v t1 Hinv Hset) as (Hinv1 & Hkv & Hothers).
    destruct (IH t1 t' Hinv1 Hrun) as (Hinv' & Hrest).
    split; [exact Hinv'|]. intros key. specialize (Hrest key). simpl.
    destruct (last_set rest key) as [v'|]; [exact Hrest|].
    destruct (decide (k = key)) as [->|Hne].
    + apply Hrest. exact Hkv.
    + intros v0. rewrite Hrest. apply Hothers. congruence.
Qed.

Lemma setitems_reachable l : forall t t',
  reachable t -> setitems l t = (t', Ok tt) -> reachable t'.
Proof.
  induction l as [|[k v] rest IH]; intros t t' Hreach Hrun; simpl in Hrun.
  - now injection Hrun as <-.
  - apply bind_ok_inv in Hrun as (t1 & [] & Hset & Hrun).
    apply (IH t1 t'); [|exact Hrun]. eapply reach_set; eauto.
Qed.

(** C3.  After a run of insertions that all return, started from any
    reachable table (so with resizes wherever the growth test asks for them),
    [__getitem__] on every pair of the run returns the value of the last
    insertion of that pair. *)
Theorem getitem_after_setitems (t0 : DoubleKeyTable V)
    (l : list ((string * string) * V)) (t : DoubleKeyTable V) :
  reachable t0 ->
  setitems l t0 = (t, Ok tt) ->
  forall key v, last_set l key = Some v -> getitem key t = (t, Ok v).
Proof.
  intros Hreach Hrun key v Hlast.
  destruct (setitems_result l t0 t (reachable_inv t0 Hreach) Hrun) as (Hinv & Hkeys).
  specialize (Hkeys key). rewrite Hlast in Hkeys.
  now apply getitem_maps_to.
Qed.

(** C4.  Deleting a pair that a reachable table contains returns (given
    enough iterations for the repair walk); afterwards [__contains__] on the
    pair is false and [__getitem__] on every other pair that was stored
    returns the value it returned before. *)
Theorem delitem_removes_only_the_pair (t : DoubleKeyTable V) (key : string * string) :
  reachable t ->
  contains key t = (t, Ok true) ->
  exists fuel t',
    (forall fuel', (fuel <= fuel')%nat -> delitem fuel' key t = Some (t', Ok tt)) /\
    contains key t' = (t', Ok false) /\
    forall key' v, key' <> key ->
      getitem key' t = (t, Ok v) -> getitem key' t' = (t', Ok v).
Proof.
  intros Hreach Hcontains.
  pose proof (reachable_inv t Hreach) as Hinv.
  destruct (contains_true_maps_to t key Hinv Hcontains) as (v0 & Hv0).
  destruct (delitem_stored t key v0 Hinv Hv0) as (fuel & t' & Hdel).
  exists fuel, t'. split; [exact Hdel|].
  destruct (delitem_result t fuel key t' Hinv (Hdel fuel (le_n fuel)))
    as (Hinv' & Hgone & Hothers & Hsize & Hsec).
  split.
  - destruct Hv0 as (lpt & Hentry & _).
    destruct (stored_key_hashes t key.1 lpt (proj1 Hinv) Hentry) as (h & Hh).
    assert (Hh' : hash1 t' key.1 = Ok h).
    { unfold hash1 in *. now rewrite Hsize. }
    unfold contains.
    now rewrite (getitem_not_mapped t' key h Hgone (second_hash_entries _ _ Hsec) Hh').
  - intros key' v Hne Hget.
    apply (getitem_maps_to t' key' v Hinv').
    apply Hothers; [exact Hne|].
    eapply getitem_ok_maps_to; [apply Hinv | exact Hget].
Qed.

(** C8.  A call of [__delitem__] returns: for every table and every pair
    there is a number of iterations within which the repair walk has reached
    an empty cell or the call has raised, and allowing more iterations does
    not change the outcome; when the table is reachable and contains the
    pair, the call does not raise. *)
Theorem delitem_repair_terminates (t : DoubleKeyTable V) (key : string * string) :
  exists fuel out,
    (forall fuel', (fuel <= fuel')%nat -> delitem fuel' key t = Some out) /\
    (reachable t -> contains key t = (t, Ok true) -> out.2 = Ok tt).
Proof.
  destruct (delitem_returns t key) as (fuel & out & Hout).
  exists fuel, out. split; [exact Hout|].
  intros Hreach Hcontains.
  pose proof (reachable_inv t Hreach) as Hinv.
  destruct (contains_true_maps_to t key Hinv Hcontains) as (v0 & Hv0).
  destruct (delitem_stored t key v0 Hinv Hv0) as (fuel0 & t' & Hdel).
  specialize (Hout (Nat.max fuel fuel0) (Nat.le_max_l _ _)).
  specialize (Hdel (Nat.max fuel fuel0) (Nat.le_max_r _ _)).
  rewrite Hdel in Hout. now injection Hout as <-.
Qed.

Lemma reachable_held t : reachable t -> held t.
Proof.
  induction 1; [eapply held_init | eapply held_set | eapply held_del
               | eapply held_get | eapply held_contains | eapply held_keys
               | eapply held_values]; eauto.
Qed.

(** C9, as stated, fails on the tables a client can hold.  With nested
    tables of capacity 1 the insertion of ("a", "x") stores the first key with a
    new, empty nested table and then raises [ZeroDivisionError] from the hash
    of the second key.  The calls of [keys], [values] and [__contains__] that
    follow complete and leave a cell that holds an empty nested table, under
    a first key none of whose pairs can be read. *)
Lemma failed_insertion_leaves_empty_nested_table :
  let t := (setitem ("a", "x") 1 table_of_narrow_nested).1 in
  setitem ("a", "x") 1 table_of_narrow_nested = (t, Raise ZeroDivisionError) /\
  held t /\
  keys None t = (t, Ok ["a"]) /\
  values None t = (t, Ok []) /\
  contains ("a", "") t = (t, Ok false) /\
  (exists nested,
     array t !! 6%nat = Some (Some ("a", nested)) /\ lpt_is_empty nested = true) /\
  "a" ∈ top_keys (array t) /\
  forall key2 v, getitem ("a", key2) t <> (t, Ok v).
Proof.
  intros t.
  split; [vm_compute; reflexivity|]. split.
  { apply (held_set table_of_narrow_nested ("a", "x") 1 t (Raise ZeroDivisionError)).
    - apply (held_init (Some [13]) (Some [1])). reflexivity.
    - vm_compute. reflexivity. }
  split; [vm_compute; reflexivity|]. split; [vm_compute; reflexivity|].
  split; [vm_compute; reflexivity|]. split.
  { eexists. split; vm_compute; reflexivity. }
  split.
  { apply (bool_decide_unpack _). vm_compute. exact I. }
  intros [|c key2] v; vm_compute; discriminate.
Qed.

(** C9, amended.  In a table reached through calls of the public operations
    in which every insertion returned, no cell holds an empty nested table; a
    first key has a cell exactly when some pair under it can be read; and
    after a completed deletion of a pair its first key still has a cell
    exactly when another pair under that first key was stored. *)
Theorem no_empty_nested_table (t : DoubleKeyTable V) :
  reachable t ->
  (forall (i : nat) k lpt,
     array t !! i = Some (Some (k, lpt)) -> lpt_is_empty lpt = false) /\
  (forall key1,
     key1 ∈ top_keys (array t) <->
     exists key2 v, getitem (key1, key2) t = (t, Ok v)) /\
  (forall fuel key t',
     delitem fuel key t = Some (t', Ok tt) ->
     (key.1 ∈ top_keys (array t') <->
      exists key2 v, key2 <> key.2 /\ getitem (key.1, key2) t = (t, Ok v))).
Proof.
  intros Hreach. pose proof (reachable_inv t Hreach) as Hinv.
  assert (Hcell : forall t0, table_inv t0 -> forall key1,
            key1 ∈ top_keys (array t0) <-> exists key2 v, maps_to t0 (key1, key2) v).
  { intros t0 (Hcons0 & Hne0 & _) key1. rewrite elem_of_top_keys. split.
    - intros (lpt & i & Hi).
      destruct (lpt_is_empty_lookup lpt (Hne0 i key1 lpt Hi)) as (key2 & v & Hl).
      exists key2, v, lpt. split; [now exists i | exact Hl].
    - intros (key2 & v & lpt & He & _). now exists lpt. }
  split; [exact (proj1 (proj2 Hinv))|]. split.
  - intros key1. rewrite (Hcell t Hinv key1). split.
    + intros (key2 & v & Hm). exists key2, v.
      now apply (getitem_maps_to t (key1, key2) v Hinv).
    + intros (key2 & v & Hget). exists key2, v.
      eapply getitem_ok_maps_to; [apply Hinv | exact Hget].
  - intros fuel key t' Hdel.
    destruct (delitem_result t fuel key t' Hinv Hdel) as (Hinv' & Hgone & Hothers & _).
    rewrite (Hcell t' Hinv' key.1). split.
    + intros (key2 & v & Hm).
      assert (Hk2 : key2 <> key.2).
      { intros ->. apply (Hgone v). now destruct key. }
      exists key2, v. split; [exact Hk2|].
      apply (getitem_maps_to t (key.1, key2) v Hinv).
      apply Hothers; [|exact Hm]. intros Heq. apply Hk2. now rewrite <- Heq.
    + intros (key2 & v & Hk2 & Hget). exists key2, v.
      apply Hothers; [intros Heq; apply Hk2; now rewrite <- Heq|].
      eapply getitem_ok_maps_to; [apply Hinv | exact Hget].
Qed.

End Reachable.

(** ** The statements at concrete tables *)

(** The scenario table is reached by its three insertions. *)
Ltac reach_scenario :=
  apply (reach_set (setitems [(("Tim", "Jen"), 1); (("Amy", "Ben"), 2)]
                      table_of_five).1 ("Tim", "Kat") 3);
  [ apply (reach_set (setitems [(("Tim", "Jen"), 1)] table_of_five).1
            ("Amy", "Ben") 2);
    [ apply (reach_set table_of_five ("Tim", "Jen") 1);
      [ apply (reach_init (Some [5]) None); reflexivity
      | vm_compute; reflexivity ]
    | vm_compute; reflexivity ]
  | vm_compute; reflexivity ].

Lemma getitem_after_setitems_witness :
  getitem ("a", "x") (setitems three_first_keys default_table).1
  = ((setitems three_first_keys default_table).1, Ok 1).
Proof.
  apply (getitem_after_setitems default_table three_first_keys).
  - apply (reach_init None None). reflexivity.
  - vm_compute. reflexivity.
  - vm_compute. reflexivity.
Defined.

Lemma delitem_removes_only_the_pair_witness :
  exists fuel t',
    (forall fuel', (fuel <= fuel')%nat ->
       delitem fuel' ("Tim", "Jen") scenario_table = Some (t', Ok tt)) /\
    contains ("Tim", "Jen") t' = (t', Ok false) /\
    forall key' v, key' <> ("Tim", "Jen") ->
      getitem key' scenario_table = (scenario_table, Ok v) ->
      getitem key' t' = (t', Ok v).
Proof.
  apply (delitem_removes_only_the_pair scenario_table ("Tim", "Jen")).
  - reach_scenario.
  - vm_compute. reflexivity.
Defined.

Lemma delitem_repair_terminates_witness :
  delitem 7 ("a", "x") crowded_table = None /\
  exists fuel out,
    (forall fuel', (fuel <= fuel')%nat ->
       delitem fuel' ("a", "x") crowded_table = Some out) /\
    out.2 = Ok tt /\ delitem 8 ("a", "x") crowded_table = Some out.
Proof.
  split; [vm_compute; reflexivity|].
  destruct (delitem_repair_terminates crowded_table ("a", "x"))
    as (fuel & out & Hout & Hok).
  exists fuel, out. split; [exact Hout|]. split.
  - apply Hok.
    + apply (setitems_reachable five_first_keys table_of_five).
      * apply (reach_init (Some [5]) None). reflexivity.
      * vm_compute. reflexivity.
    + vm_compute. reflexivity.
  - rewrite <- (Hout (Nat.max fuel 8) (Nat.le_max_l _ _)).
    destruct (delitem 8 ("a", "x") crowded_table) as [o|] eqn:H8.
    + symmetry. apply (delitem_more_fuel _ _ _ _ H8). apply Nat.le_max_r.
    + vm_compute in H8. discriminate.
Defined.

Lemma no_empty_nested_table_witness :
  (forall (i : nat) k lpt,
     array scenario_table !! i = Some (Some (k, lpt)) -> lpt_is_empty lpt = false) /\
  (forall key1,
     key1 ∈ top_keys (array scenario_table) <->
     exists key2 v, getitem (key1, key2) scenario_table = (scenario_table, Ok v)) /\
  (forall fuel key t',
     delitem fuel key scenario_table = Some (t', Ok tt) ->
     (key.1 ∈ top_keys (array t') <->
      exists key2 v,
        key2 <> key.2 /\ getitem (key.1, key2) scenario_table = (scenario_table, Ok v))).
Proof.
  apply (no_empty_nested_table scenario_table).
  reach_scenario.
Defined.

(** * Further properties of the table operations *)

(** ** What the array writes and the probes leave alone *)

Section Fields.

Context {V : Type}.

Implicit Types (t : DoubleKeyTable V) (arr : list (option (entry V)))
  (lpt : LinearProbeTable V).

Lemma same_fields_refl t : same_fields t t.
Proof. repeat split. Qed.

Lemma same_fields_trans t1 t2 t3 :
  same_fields t1 t2 -> same_fields t2 t3 -> same_fields t1 t3.
Proof.
  intros (A1 & A2 & A3 & A4 & A5) (B1 & B2 & B3 & B4 & B5).
  repeat split; congruence.
Qed.

Lemma array_setitem_fields t p cell t' r :
  array_setitem p cell t = (t', r) -> same_fields t t'.
Proof.
  unfold array_setitem. destruct (p <? 0).
  - intros [= <- _]. apply same_fields_refl.
  - destruct (Z.to_nat p <? length (array t))%nat.
    + intros [= <- _]. repeat split. unfold table_size. simpl.
      now rewrite length_insert.
    + intros [= <- _]. apply same_fields_refl.
Qed.

Lemma probe_outcome_none_state key1 is_insert r t :
  (probe_outcome key1 None is_insert r t).1 = t.
Proof. destruct r as [p|p| |]; simpl; try reflexivity. now destruct is_insert. Qed.

Lemma linear_probe_none_state t key1 is_insert :
  (linear_probe key1 None is_insert t).1 = t.
Proof.
  destruct (hash1 t key1) as [h|e] eqn:Hh.
  - rewrite (linear_probe_scan _ _ _ _ _ Hh). apply probe_outcome_none_state.
  - unfold linear_probe. munfold. now rewrite Hh.
Qed.

Lemma linear_probe_top_state t key1 is_insert :
  (linear_probe_top key1 is_insert t).1 = t.
Proof.
  unfold linear_probe_top. apply bind_state; [apply linear_probe_none_state|].
  intros [p|p q]; reflexivity.
Qed.

Lemma rehash_loop_fields old : forall t t' r,
  rehash_loop old t = (t', r) -> same_fields t t'.
Proof.
  induction old as [|[[k lpt]|] rest IH]; intros t t' r Hloop; simpl in Hloop.
  - injection Hloop as <- _. apply same_fields_refl.
  - unfold bind at 1 in Hloop.
    pose proof (linear_probe_top_state t k true) as Hst.
    destruct (linear_probe_top k true t) as [ta [p|e]]; simpl in Hst; subst ta.
    2:{ injection Hloop as <- _. apply same_fields_refl. }
    unfold bind at 1 in Hloop.
    destruct (array_setitem p (Some (k, lpt)) t) as [tb [u|e]] eqn:Hset.
    + eapply same_fields_trans; [eapply array_setitem_fields; eauto|].
      eapply IH; eauto.
    + injection Hloop as <- _. eapply array_setitem_fields; eauto.
  - eapply IH; eauto.
Qed.

Lemma repair_body_fields t c k lpt t' r :
  repair_body c k lpt t = (t', r) -> same_fields t t'.
Proof.
  unfold repair_body. unfold bind at 1.
  destruct (array_setitem c None t) as [ta [u|e]] eqn:H1.
  2:{ intros [= <- _]. eapply array_setitem_fields; eauto. }
  pose proof (array_setitem_fields _ _ _ _ _ H1) as F1.
  unfold bind at 1.
  pose proof (linear_probe_top_state ta k true) as Hst.
  destruct (linear_probe_top k true ta) as [tb [p|e]]; simpl in Hst; subst tb.
  2:{ intros [= <- _]. exact F1. }
  unfold bind at 1.
  destruct (array_setitem p (Some (k, lpt)) ta) as [tc [u'|e]] eqn:H2.
  2:{ intros [= <- _]. eapply same_fields_trans; [exact F1|].
      eapply array_setitem_fields; eauto. }
  munfold. intros [= <- _].
  eapply same_fields_trans; [exact F1|]. eapply array_setitem_fields; eauto.
Qed.

Lemma repair_loop_fields fuel : forall c t t' r,
  repair_loop fuel c t = Some (t', r) -> same_fields t t'.
Proof.
  induction fuel as [|fuel IH]; intros c t t' r Hrun; simpl in Hrun;
    pose proof (array_getitem_state t c) as Hst;
    destruct (array_getitem c t) as [t0 [[[k lpt]|]|e]]; simpl in Hst; subst t0;
    try discriminate; try (injection Hrun as <- _; apply same_fields_refl).
  destruct (repair_body c k lpt t) as [t1 [next|e]] eqn:Hbody.
  - eapply same_fields_trans; [eapply repair_body_fields; eauto|].
    eapply IH; eauto.
  - injection Hrun as <- _. eapply repair_body_fields; eauto.
Qed.

End Fields.

(** ** Reads, reserving probes and fresh tables *)

Section ReadsAndProbes.

Context {V : Type}.

Implicit Types (t : DoubleKeyTable V) (arr : list (option (entry V)))
  (lpt : LinearProbeTable V).

Lemma iter_keys_state t key : (iter_keys key t).1 = t.
Proof.
  destruct key as [k|]; simpl; [|reflexivity].
  apply bind_state; [apply linear_probe_top_lookup_state|].
  intros p. apply bind_state; [apply array_entry_state|]. reflexivity.
Qed.

Lemma iter_values_state t key : (iter_values key t).1 = t.
Proof. exact (values_state t key). Qed.

(** X1.  The read operations [__getitem__], [__contains__], [keys],
    [values], [iter_keys] and [iter_values] leave every table exactly as it
    was, whether they return or raise. *)
Theorem reads_never_write (t : DoubleKeyTable V) (key : string * string)
    (k : option string) :
  (getitem key t).1 = t /\ (contains key t).1 = t /\
  (keys k t).1 = t /\ (values k t).1 = t /\
  (iter_keys k t).1 = t /\ (iter_values k t).1 = t.
Proof.
  repeat split.
  - apply getitem_state.
  - apply contains_state.
  - apply keys_state.
  - apply values_state.
  - apply iter_keys_state.
  - apply iter_values_state.
Qed.

(** X2.  A probe with no second key never writes, in lookup and in insert
    mode: when it returns, the table is unchanged and the position is a single
    in-bounds index of a cell that holds the first key, or, in insert mode
    only, of an empty cell (the cell is reserved, no nested table is
    created). *)
Theorem probe_without_second_key (t : DoubleKeyTable V) (key1 : string)
    (is_insert : bool) (t' : DoubleKeyTable V) (pos : probe_pos) :
  linear_probe key1 None is_insert t = (t', Ok pos) ->
  t' = t /\
  exists p, pos = Top p /\ 0 <= p < table_size t /\
    (key_at (array t) p = Some key1 \/
     (is_insert = true /\ free_at (array t) p)).
Proof.
  intros Hprobe.
  pose proof (linear_probe_none_state t key1 is_insert) as Hst.
  rewrite Hprobe in Hst. simpl in Hst. subst t'. split; [reflexivity|].
  destruct (hash1 t key1) as [h|e] eqn:Hh.
  2:{ unfold linear_probe in Hprobe. munfold. rewrite Hh in Hprobe. discriminate. }
  rewrite (linear_probe_scan _ _ _ _ _ Hh) in Hprobe.
  destruct (array t) as [|c0 rest] eqn:Harr.
  { simpl in Hprobe. discriminate. }
  rewrite <- Harr in *.
  assert (Hn : 1 <= table_size t).
  { unfold table_size. rewrite Harr. simpl. lia. }
  pose proof (hash1_range _ _ _ Hh Hn) as Hr. unfold table_size in Hr.
  pose proof (scan_spec (array t) key1 (length (array t)) h Hr) as Hs.
  destruct (scan (array t) key1 (length (array t)) h) as [p|p| |];
    simpl in Hprobe; try discriminate.
  - injection Hprobe as <-. destruct Hs as (Hp & Hkey & _).
    exists p. split; [reflexivity|]. split; [exact Hp|]. now left.
  - destruct is_insert; [|discriminate]. injection Hprobe as <-.
    destruct Hs as (Hp & Hfree & _).
    exists p. split; [reflexivity|]. split; [exact Hp|]. right. auto.
Qed.

Lemma top_keys_replicate (n : nat) : top_keys (V:=V) (replicate n None) = [].
Proof. induction n as [|n IH]; [reflexivity | exact IH]. Qed.

Lemma stored_replicate (n : nat) key t :
  array t = replicate n None -> stored key t = false.
Proof.
  intros Harr. unfold stored. rewrite Harr. clear Harr.
  induction n as [|n IH]; [reflexivity | exact IH].
Qed.

(** X3.  A table built by [__init__] takes the given schedule (the default
    one when none is given) for the top level and, unless another is given,
    for the nested tables; it starts at the first capacity with no entry:
    [len()] is 0, [keys()] and [values()] are empty, and every lookup whose
    hash returns raises [KeyError].  An empty schedule makes the constructor
    raise [IndexError]. *)
Theorem fresh_table_is_empty (sizes internal : option (list Z))
    (t : DoubleKeyTable V) :
  init sizes internal = Ok t ->
  TABLE_SIZES t = default DEFAULT_TABLE_SIZES sizes /\
  internal_sizes t = default (TABLE_SIZES t) internal /\
  size_index t = O /\
  (exists n, TABLE_SIZES t !! O = Some n /\ table_size t = Z.max 0 n) /\
  len t = 0 /\
  keys None t = (t, Ok []) /\ values None t = (t, Ok []) /\
  (forall key h, hash1 t key.1 = Ok h -> getitem key t = (t, Raise KeyError)) /\
  init (V:=V) (Some []) internal = Raise IndexError.
Proof.
  unfold init.
  destruct (default DEFAULT_TABLE_SIZES sizes !! O) as [n|] eqn:Hn; [|discriminate].
  intros [= <-]. simpl.
  split; [reflexivity|]. split; [reflexivity|]. split; [reflexivity|].
  split.
  { exists n. split; [exact Hn|]. unfold table_size, ArrayR. simpl.
    rewrite length_replicate. lia. }
  split; [reflexivity|].
  assert (Hkeys : top_keys (ArrayR (A:=entry V) n) = [])
    by apply top_keys_replicate.
  split.
  { unfold keys. munfold. simpl. now rewrite Hkeys. }
  split.
  { unfold values, keys. munfold. simpl. now rewrite Hkeys. }
  split; [|reflexivity].
  intros key h Hh. apply (getitem_absent _ key h); [| |exact Hh].
  - apply (stored_replicate (Z.to_nat n)). reflexivity.
  - apply second_hash_entries. intros lpt (i & Hi). simpl in Hi.
    unfold ArrayR in Hi. apply lookup_replicate in Hi as [Hi _]. discriminate.
Qed.

End ReadsAndProbes.

Lemma probe_without_second_key_witness :
  exists p, Top 1 = Top p /\ 0 <= p < table_size scenario_table /\
    (key_at (array scenario_table) p = Some "Tim" \/
     (false = true /\ free_at (array scenario_table) p)).
Proof.
  apply (probe_without_second_key scenario_table "Tim" false scenario_table (Top 1)).
  vm_compute. reflexivity.
Defined.

Lemma fresh_table_is_empty_witness :
  len table_of_five = 0 /\ keys None table_of_five = (table_of_five, Ok []).
Proof.
  destruct (fresh_table_is_empty (Some [5]) None table_of_five)
    as (_ & _ & _ & _ & Hlen & Hkeys & _).
  - reflexivity.
  - split; [exact Hlen | exact Hkeys].
Defined.

(** ** The shape of completed insertions and deletions *)

Section Shapes.

Context {V : Type}.

Implicit Types (t : DoubleKeyTable V) (arr : list (option (entry V)))
  (lpt : LinearProbeTable V).

Lemma set_count_self t : set_count (count t) t = t.
Proof. now destruct t. Qed.

Lemma rehash_fields t t' :
  rehash t = (t', Ok tt) ->
  TABLE_SIZES t' = TABLE_SIZES t /\ internal_sizes t' = internal_sizes t /\
  size_index t' = S (size_index t) /\
  match TABLE_SIZES t !! S (size_index t) with
  | Some n => table_size t' = Z.max 0 n /\ count t' = 0
  | None => table_size t' = table_size t /\ count t' = count t
  end.
Proof.
  unfold rehash. munfold. unfold id. simpl.
  destruct (Nat.leb_spec (length (TABLE_SIZES t)) (S (size_index t))) as [Hle|Hlt].
  - intros [= <-]. simpl. repeat split.
    rewrite (lookup_ge_None_2 _ _ Hle). split; reflexivity.
  - destruct (TABLE_SIZES t !! S (size_index t)) as [n|] eqn:Hn; [|discriminate].
    intros Hloop. apply rehash_loop_fields in Hloop as (F1 & F2 & F3 & F4 & F5).
    simpl in *. repeat split; try assumption.
    rewrite F5. unfold table_size, ArrayR. simpl. rewrite length_replicate. lia.
Qed.

Lemma setitem_shape t key1 key2 data t' :
  table_inv t ->
  setitem (key1, key2) data t = (t', Ok tt) ->
  exists lpt0 sub,
    probe_consistent (lpt_array lpt0) /\
    lpt_setitem key2 data lpt0 = Ok sub /\
    (if lpt_is_empty lpt0
     then (forall lpt, ~ has_entry (array t) key1 lpt) /\
          lpt_new (internal_sizes t) = Ok lpt0
     else has_entry (array t) key1 lpt0) /\
    (forall k lpt,
       has_entry (array t') k lpt <->
       (k = key1 /\ lpt = sub) \/ (k <> key1 /\ has_entry (array t) k lpt)) /\
    TABLE_SIZES t' = TABLE_SIZES t /\ internal_sizes t' = internal_sizes t /\
    resize_step t (count t + (if lpt_is_empty lpt0 then 1 else 0)) t'.
Proof.
  intros (Hcons & Hne & Hnc) Hset. unfold setitem in Hset.
  apply bind_ok_inv in Hset as (ta & pos & Hprobe & Hset).
  apply bind_ok_inv in Hset as (tb & e & Hentry & Hset).
  apply bind_ok_inv in Hset as (tc & u & Hcount & Hset).
  apply bind_ok_inv in Hset as (td & sub & Hsub & Hset).
  apply bind_ok_inv in Hset as (te & u' & Hstore & Hset).
  apply bind_ok_inv in Hset as (tf & tg & Hget & Hset).
  destruct (probe_insert_result _ _ _ _ _ Hcons Hprobe) as (lpt0 & Hp & Hta & Hcase).
  apply array_entry_inv in Hentry as (-> & _ & Hcell).
  assert (He : e = (key1, lpt0)).
  { rewrite Hta in Hcell. simpl in Hcell.
    rewrite list_lookup_insert_eq in Hcell by (unfold table_size in Hp; lia).
    congruence. }
  subst e. simpl in *.
  apply lift_inv in Hsub as (-> & Hsub).
  set (c := count t + (if lpt_is_empty lpt0 then 1 else 0)).
  assert (Htc : tc = set_count c ta).
  { unfold c. destruct (lpt_is_empty lpt0); munfold; injection Hcount as <- _.
    - rewrite Hta. reflexivity.
    - replace (count t + 0) with (count ta) by (rewrite Hta; simpl; lia).
      symmetry. apply set_count_self. }
  subst tc.
  apply array_setitem_ok_inv in Hstore as (_ & ->).
  unfold gets, id in Hget. injection Hget as <- <-.
  rewrite Hta in Hset. simpl in Hset. rewrite list_insert_insert_eq in Hset.
  set (arr' := <[Z.to_nat pos.1 := Some (key1, sub)]> (array t)) in *.
  set (tm := set_count c (set_array arr' t)).
  assert (Hset' : (if 2 * len tm >? table_size tm then rehash else ret tt) tm
                  = (t', Ok tt)) by exact Hset.
  clear Hset.
  (* the entry before the insertion *)
  assert (Hfresh : if lpt_is_empty lpt0
                   then (forall lpt, ~ has_entry (array t) key1 lpt) /\
                        lpt_new (internal_sizes t) = Ok lpt0
                   else has_entry (array t) key1 lpt0).
  { destruct Hcase as [Hc|(Hf & Hnew & Habs & _)].
    - rewrite (Hne _ _ _ Hc). now exists (Z.to_nat pos.1).
    - rewrite (proj1 (proj2 (lpt_new_empty _ _ Hnew))).
      split; [|exact Hnew]. intros lpt Hl.
      destruct (has_entry_key_at _ _ _ Hl) as (q & Hq & Hkq & _).
      eapply Habs; eauto. }
  assert (Hlc : probe_consistent (lpt_array lpt0)).
  { destruct Hcase as [Hc|(_ & Hnew & _)].
    - eapply Hnc; eauto.
    - apply (lpt_new_empty _ _ Hnew). }
  destruct (store_result (array t) pos.1 key1 key2 data lpt0 sub Hcons Hne Hnc Hp
              Hlc Hsub)
    as (Hcons' & Hne' & Hnc' & Hentry & Hothers & _).
  { destruct Hcase as [?|(Hf & Hnew & Habs & Hpath)]; [now left|].
    right. split; [exact Hf|].
    split; [exact (proj1 (proj2 (proj2 (lpt_new_empty _ _ Hnew))))|].
    split; assumption. }
  fold arr' in Hcons', Hne', Hnc', Hentry, Hothers.
  assert (Harr' : forall k lpt,
            has_entry arr' k lpt <->
            (k = key1 /\ lpt = sub) \/ (k <> key1 /\ has_entry (array t) k lpt)).
  { intros k lpt. split.
    - intros Hk. destruct (string_dec k key1) as [->|Hk1].
      + left. split; [reflexivity|].
        eapply has_entry_unique; [apply Hcons' | exact Hk | exact Hentry].
      + right. split; [exact Hk1|]. now apply Hothers.
    - intros [[-> ->]|[Hk1 Hk]]; [exact Hentry|]. now apply Hothers. }
  assert (Hsize : table_size tm = table_size t).
  { unfold tm, table_size, arr'. simpl. now rewrite length_insert. }
  exists lpt0, sub. split; [exact Hlc|]. split; [exact Hsub|]. split; [exact Hfresh|].
  fold c. unfold resize_step. rewrite <- Hsize.
  change (2 * c) with (2 * len tm).
  destruct (2 * len tm >? table_size tm).
  - destruct (rehash_result tm t' (conj Hcons' (conj Hne' Hnc')) Hset') as (_ & Hentries).
    destruct (rehash_fields tm t' Hset') as (F1 & F2 & F3 & F4).
    split; [intros k lpt; rewrite Hentries; apply Harr'|].
    split; [exact F1|]. split; [exact F2|]. split; [exact F3|]. exact F4.
  - injection Hset' as <-.
    split; [exact Harr'|]. repeat split.
Qed.

Lemma delitem_shape t fuel key t' :
  table_inv t -> delitem fuel key t = Some (t', Ok tt) ->
  exists lpt ht,
    has_entry (array t) key.1 lpt /\ lpt_delitem fuel key.2 lpt = Some (Ok ht) /\
    TABLE_SIZES t' = TABLE_SIZES t /\ internal_sizes t' = internal_sizes t /\
    size_index t' = size_index t /\ table_size t' = table_size t /\
    if lpt_is_empty ht
    then count t' = count t - 1 /\
         forall k lpt', has_entry (array t') k lpt' <->
                        k <> key.1 /\ has_entry (array t) k lpt'
    else count t' = count t /\
         forall k lpt', has_entry (array t') k lpt' <->
                        (k = key.1 /\ lpt' = ht) \/
                        (k <> key.1 /\ has_entry (array t) k lpt').
Proof.
  intros (Hcons & Hne & Hnc) Hdel. unfold delitem in Hdel.
  destruct (delitem_vacate fuel key t) as [[t1 [x|e]]|] eqn:Hvac;
    [|discriminate..].
  destruct (delitem_vacate_inv _ _ _ _ _ Hvac) as (p & lpt & ht & Hp & Hcell & Hlpt).
  rewrite (delitem_vacate_stored fuel t key p lpt ht Hcons Hp Hcell Hlpt) in Hvac.
  assert (Hr : 0 <= p < Z.of_nat (length (array t))).
  { apply lookup_lt_Some in Hcell. lia. }
  exists lpt, ht. split; [now exists (Z.to_nat p)|]. split; [exact Hlpt|].
  destruct (lpt_is_empty ht) eqn:Hempty.
  - injection Hvac as <- <-.
    set (arr2 := <[Z.to_nat p := None]> (array t)) in *.
    set (t1 := set_count (count t - 1) (set_array arr2 t)) in *.
    destruct (repair_loop_fields _ _ _ _ _ Hdel) as (F1 & F2 & F3 & F4 & F5).
    destruct (repair_loop_result fuel ((p + 1) mod table_size t) t1 t' (Ok tt))
      as (_ & _ & Hentries & _).
    + simpl. apply (repair_inv_start (array t) p key.1 Hcons Hr).
      eapply cell_key_at; eauto.
    + simpl. now apply nested_nonempty_vacate.
    + simpl. now apply nested_consistent_vacate.
    + change (table_size t1) with (Z.of_nat (length arr2)).
      unfold arr2. rewrite length_insert. apply next_range. exact Hr.
    + exact Hdel.
    + assert (Hsz : table_size t1 = table_size t).
      { change (table_size t1) with (Z.of_nat (length arr2)).
        unfold arr2. now rewrite length_insert. }
      split; [exact F1|]. split; [exact F2|]. split; [exact F3|].
      split; [now rewrite F5|]. split; [exact F4|].
      intros k lpt'. rewrite Hentries. simpl. unfold arr2.
      apply (has_entry_vacate (array t) p key.1 lpt k lpt' (proj1 Hcons) Hp Hcell).
  - injection Hvac as <- <-. injection Hdel as <-. simpl.
    split; [reflexivity|]. split; [reflexivity|]. split; [reflexivity|].
    split; [unfold table_size; simpl; now rewrite length_insert|].
    split; [reflexivity|].
    intros k lpt'.
    apply (has_entry_update (array t) p key.1 lpt ht k lpt' (proj1 Hcons) Hp Hcell).
Qed.

End Shapes.

(** ** Second keys and values of the nested tables *)

Section NestedKeys.

Context {V : Type}.

Implicit Types (t : DoubleKeyTable V) (arr : list (option (entry V)))
  (lpt : LinearProbeTable V) (items : list (string * V)).

Lemma reachable_nested_distinct t : reachable t -> nested_distinct (array t).
Proof.
  intros Hreach k lpt (i & Hi).
  destruct (reachable_inv t Hreach) as (_ & _ & Hnc).
  apply lpt_keys_NoDup. apply (Hnc i k lpt Hi).
Qed.

End NestedKeys.

(** ** Enumeration of keys and values *)

Section Enumeration.

Context {V : Type}.

Implicit Types (t : DoubleKeyTable V) (arr : list (option (entry V)))
  (lpt : LinearProbeTable V).

Lemma probe_top_lookup_stored t k lpt :
  probe_consistent (array t) -> has_entry (array t) k lpt ->
  exists p, 0 <= p /\ array t !! Z.to_nat p = Some (Some (k, lpt)) /\
    linear_probe_top k false t = (t, Ok p).
Proof.
  intros Hcons Hentry.
  destruct (has_entry_key_at _ _ _ Hentry) as (p & Hp & _ & Hcell).
  exists p. split; [lia|]. split; [exact Hcell|].
  unfold linear_probe_top, bind.
  now rewrite (linear_probe_stored t p k lpt None false Hcons (proj1 Hp) Hcell).
Qed.

Lemma probe_top_lookup_absent t k h :
  (forall lpt, ~ has_entry (array t) k lpt) -> hash1 t k = Ok h ->
  linear_probe_top k false t = (t, Raise KeyError).
Proof.
  intros Habs Hh. rewrite (linear_probe_top_scan _ _ _ _ Hh).
  destruct (array t) as [|c0 rest] eqn:Harr; [reflexivity|]. rewrite <- Harr in *.
  assert (Hn : 1 <= table_size t).
  { unfold table_size. rewrite Harr. simpl. lia. }
  pose proof (hash1_range _ _ _ Hh Hn) as Hr. unfold table_size in Hr.
  destruct (scan_absent (array t) k h) as [(p & -> & _)| ->]; try reflexivity;
    [|exact Hr].
  intros p Hp Hk. destruct (key_at_has_entry _ _ _ (proj1 Hp) Hk) as (lpt & Hl).
  eapply Habs; eauto.
Qed.

Lemma getitem_iff_maps_to t key v :
  table_inv t ->
  getitem key t = (t, Ok v) <-> maps_to t key v.
Proof.
  intros Hinv. split.
  - intros Hget. eapply getitem_ok_maps_to; eauto.
  - now apply getitem_maps_to.
Qed.

(** X4.  On a reachable table [keys()] (and [iter_keys()] run to the end)
    returns, without repetition, exactly the first keys under which a pair
    can be read, one per occupied cell. *)
Theorem keys_lists_first_keys (t : DoubleKeyTable V) :
  reachable t ->
  exists ks,
    keys None t = (t, Ok ks) /\ iter_keys None t = (t, Ok ks) /\
    NoDup ks /\ Z.of_nat (length ks) = occupied t /\
    forall key1,
      key1 ∈ ks <-> exists key2 v, getitem (key1, key2) t = (t, Ok v).
Proof.
  intros Hreach. pose proof (reachable_inv t Hreach) as Hinv.
  pose proof Hinv as (Hcons & Hne & Hnc).
  exists (top_keys (array t)).
  split; [reflexivity|]. split; [reflexivity|].
  split; [apply distinct_keys_NoDup, Hcons|]. split; [reflexivity|].
  intros key1. rewrite elem_of_top_keys. split.
  - intros (lpt & i & Hi).
    destruct (lpt_is_empty_lookup lpt (Hne i key1 lpt Hi)) as (key2 & v & Hl).
    exists key2, v. apply getitem_maps_to; [exact Hinv|].
    exists lpt. split; [now exists i | exact Hl].
  - intros (key2 & v & Hget).
    apply getitem_ok_maps_to in Hget as (_ & lpt & He & _); [|exact Hinv].
    now exists lpt.
Qed.

(** X5.  On a reachable table [keys(key1)] returns, without repetition,
    exactly the second keys that can be read under [key1] when [key1] is one
    of the first keys, and raises [KeyError] when it is not (and its hash
    returns). *)
Theorem keys_under_first_key (t : DoubleKeyTable V) (key1 : string) :
  reachable t ->
  (key1 ∈ top_keys (array t) ->
     exists ks, keys (Some key1) t = (t, Ok ks) /\ NoDup ks /\
       forall key2, key2 ∈ ks <-> exists v, getitem (key1, key2) t = (t, Ok v)) /\
  (key1 ∉ top_keys (array t) ->
     forall h, hash1 t key1 = Ok h -> keys (Some key1) t = (t, Raise KeyError)).
Proof.
  intros Hreach. pose proof (reachable_inv t Hreach) as Hinv.
  pose proof Hinv as (Hcons & Hne & Hnc). split.
  - intros Hin. apply elem_of_top_keys in Hin as (lpt & Hentry).
    destruct (probe_top_lookup_stored t key1 lpt Hcons Hentry) as (p & Hp & Hcell & Hprobe).
    exists (lpt_keys lpt). split.
    { unfold keys, bind. rewrite Hprobe.
      now rewrite (array_entry_lookup _ _ _ Hp Hcell). }
    split; [exact (reachable_nested_distinct t Hreach key1 lpt Hentry)|].
    intros key2. rewrite lpt_keys_lookup. split.
    + intros (v & Hl). exists v. apply getitem_maps_to; [exact Hinv|].
      now exists lpt.
    + intros (v & Hget). exists v.
      apply getitem_ok_maps_to in Hget as (_ & lpt' & He & Hl); [|exact Hinv].
      simpl in *.
      now rewrite (has_entry_unique _ _ _ _ (proj1 Hcons) Hentry He).
  - intros Hnot h Hh. unfold keys, bind.
    rewrite (probe_top_lookup_absent t key1 h); [reflexivity| |exact Hh].
    intros lpt Hl. apply Hnot. apply elem_of_top_keys. now exists lpt.
Qed.

(** X6.  On a reachable table [values(key1)] (and [iter_values(key1)] run
    to the end) returns exactly the values that can be read under [key1],
    one per second key that [keys(key1)] lists, when [key1] is one of the
    first keys, and raises [KeyError] when it is not (and its hash
    returns). *)
Theorem values_under_first_key (t : DoubleKeyTable V) (key1 : string) :
  reachable t ->
  (key1 ∈ top_keys (array t) ->
     exists vs ks,
       values (Some key1) t = (t, Ok vs) /\ iter_values (Some key1) t = (t, Ok vs) /\
       keys (Some key1) t = (t, Ok ks) /\ length vs = length ks /\
       forall v, v ∈ vs <-> exists key2, getitem (key1, key2) t = (t, Ok v)) /\
  (key1 ∉ top_keys (array t) ->
     forall h, hash1 t key1 = Ok h ->
       values (Some key1) t = (t, Raise KeyError) /\
       iter_values (Some key1) t = (t, Raise KeyError)).
Proof.
  intros Hreach. pose proof (reachable_inv t Hreach) as Hinv.
  pose proof Hinv as (Hcons & Hne & Hnc). split.
  - intros Hin. apply elem_of_top_keys in Hin as (lpt & Hentry).
    destruct (probe_top_lookup_stored t key1 lpt Hcons Hentry) as (p & Hp & Hcell & Hprobe).
    assert (Hvals : values (Some key1) t = (t, Ok (lpt_values lpt))).
    { unfold values, bind. rewrite Hprobe.
      now rewrite (array_entry_lookup _ _ _ Hp Hcell). }
    exists (lpt_values lpt), (lpt_keys lpt).
    split; [exact Hvals|]. split; [exact Hvals|]. split.
    { unfold keys, bind. rewrite Hprobe.
      now rewrite (array_entry_lookup _ _ _ Hp Hcell). }
    split; [unfold lpt_values, lpt_keys; now rewrite !length_fmap|].
    intros v.
    rewrite (lpt_values_lookup v lpt (reachable_nested_distinct t Hreach key1 lpt Hentry)).
    split.
    + intros (key2 & Hl). exists key2. apply getitem_maps_to; [exact Hinv|].
      now exists lpt.
    + intros (key2 & Hget). exists key2.
      apply getitem_ok_maps_to in Hget as (_ & lpt' & He & Hl); [|exact Hinv].
      simpl in *.
      now rewrite (has_entry_unique _ _ _ _ (proj1 Hcons) Hentry He).
  - intros Hnot h Hh.
    assert (Hvals : values (Some key1) t = (t, Raise KeyError)).
    { unfold values, bind.
      rewrite (probe_top_lookup_absent t key1 h); [reflexivity| |exact Hh].
      intros lpt Hl. apply Hnot. apply elem_of_top_keys. now exists lpt. }
    split; exact Hvals.
Qed.

Lemma values_loop_result t ks :
  probe_consistent (array t) ->
  (forall k, k ∈ ks -> exists lpt, has_entry (array t) k lpt) ->
  exists vs, values_loop ks t = (t, Ok vs) /\
    forall v, v ∈ vs <->
      exists k lpt, k ∈ ks /\ has_entry (array t) k lpt /\ v ∈ lpt_values lpt.
Proof.
  intros Hcons. induction ks as [|k rest IH]; intros Hks.
  - exists []. split; [reflexivity|]. intros v. split.
    + intros Hin. now apply elem_of_nil in Hin.
    + intros (k & lpt & Hin & _). now apply elem_of_nil in Hin.
  - destruct (Hks k ltac:(left)) as (lpt & Hentry).
    destruct (probe_top_lookup_stored t k lpt Hcons Hentry) as (p & Hp & Hcell & Hprobe).
    destruct IH as (vs & Hloop & Hvs).
    { intros k' Hin. apply Hks. now right. }
    exists (lpt_values lpt ++ vs). split.
    { simpl. unfold bind at 1. rewrite Hprobe. unfold bind at 1.
      rewrite (array_entry_lookup _ _ _ Hp Hcell). unfold bind at 1.
      now rewrite Hloop. }
    intros v. rewrite elem_of_app, Hvs. split.
    + intros [Hin|(k' & lpt' & Hin & He & Hv)].
      * exists k, lpt. split; [left|]. auto.
      * exists k', lpt'. split; [now right|]. auto.
    + intros (k' & lpt' & Hin & He & Hv).
      apply elem_of_cons in Hin as [->|Hin].
      * left. now rewrite (has_entry_unique _ _ _ _ (proj1 Hcons) Hentry He).
      * right. eauto.
Qed.

(** X7.  On a reachable table [values()] (and [iter_values()] run to the
    end) returns without raising, and lists exactly the values that can be
    read under some pair. *)
Theorem values_lists_all_values (t : DoubleKeyTable V) :
  reachable t ->
  exists vs,
    values None t = (t, Ok vs) /\ iter_values None t = (t, Ok vs) /\
    forall v, v ∈ vs <-> exists key, getitem key t = (t, Ok v).
Proof.
  intros Hreach. pose proof (reachable_inv t Hreach) as Hinv.
  pose proof Hinv as (Hcons & Hne & Hnc).
  destruct (values_loop_result t (top_keys (array t)) Hcons) as (vs & Hloop & Hvs).
  { intros k Hin. now apply elem_of_top_keys. }
  exists vs.
  assert (Hvals : values None t = (t, Ok vs)).
  { unfold values, keys. munfold. exact Hloop. }
  split; [exact Hvals|]. split; [exact Hvals|].
  intros v. rewrite Hvs. split.
  - intros (k & lpt & _ & Hentry & Hv).
    apply (lpt_values_lookup v lpt (reachable_nested_distinct t Hreach k lpt Hentry))
      in Hv as (key2 & Hl).
    exists (k, key2). apply getitem_maps_to; [exact Hinv|]. now exists lpt.
  - intros ([k key2] & Hget).
    apply getitem_ok_maps_to in Hget as (_ & lpt & He & Hl); [|exact Hinv].
    simpl in *. exists k, lpt. split; [apply elem_of_top_keys; now exists lpt|].
    split; [exact He|].
    apply (lpt_values_lookup v lpt (reachable_nested_distinct t Hreach k lpt He)).
    now exists key2.
Qed.

(** X8.  Iterating [iter_keys(key1)] never yields a second key: for every
    table and every first key it ends in an exception and leaves the table
    unchanged; on a reachable table the exception is [AttributeError] when
    [key1] is one of the first keys, and [KeyError] when it is not and its
    hash returns. *)
Theorem iter_keys_with_first_key_raises (t : DoubleKeyTable V) (key1 : string) :
  (exists e, iter_keys (Some key1) t = (t, Raise e)) /\
  (reachable t ->
     (key1 ∈ top_keys (array t) ->
        iter_keys (Some key1) t = (t, Raise AttributeError)) /\
     (key1 ∉ top_keys (array t) -> forall h, hash1 t key1 = Ok h ->
        iter_keys (Some key1) t = (t, Raise KeyError))).
Proof.
  split.
  - unfold iter_keys, bind.
    pose proof (linear_probe_top_lookup_state t key1) as Hst.
    destruct (linear_probe_top key1 false t) as [ta [p|e]]; simpl in Hst; subst ta;
      [|eauto].
    pose proof (array_entry_state t p) as Hst.
    destruct (array_entry p t) as [tb [en|e]]; simpl in Hst; subst tb; [|eauto].
    exists AttributeError. reflexivity.
  - intros Hreach. pose proof (reachable_inv t Hreach) as Hinv.
  pose proof Hinv as (Hcons & Hne & Hnc). split.
    + intros Hin. apply elem_of_top_keys in Hin as (lpt & Hentry).
      destruct (probe_top_lookup_stored t key1 lpt Hcons Hentry)
        as (p & Hp & Hcell & Hprobe).
      unfold iter_keys, bind. rewrite Hprobe.
      now rewrite (array_entry_lookup _ _ _ Hp Hcell).
    + intros Hnot h Hh. unfold iter_keys, bind.
      rewrite (probe_top_lookup_absent t key1 h); [reflexivity| |exact Hh].
      intros lpt Hl. apply Hnot. apply elem_of_top_keys. now exists lpt.
Qed.

End Enumeration.

(** ** Counting first keys across insertions and deletions *)

Section Counting.

Context {V : Type}.

Implicit Types (t : DoubleKeyTable V) (arr : list (option (entry V)))
  (lpt : LinearProbeTable V).

Lemma length_same_elements (l k : list string) :
  NoDup l -> NoDup k -> (forall x, x ∈ l <-> x ∈ k) -> length l = length k.
Proof. intros Hl Hk H. apply Permutation_length. now apply NoDup_Permutation. Qed.

Lemma top_keys_length arr : (length (top_keys arr) <= length arr)%nat.
Proof.
  induction arr as [|cell rest IH]; [reflexivity|].
  rewrite top_keys_cons. destruct cell as [[k lpt]|]; simpl; lia.
Qed.

(** The first keys and the counter after a completed insertion. *)
Lemma setitem_first_keys t key1 key2 data t' :
  table_inv t -> setitem (key1, key2) data t = (t', Ok tt) ->
  let d := if bool_decide (key1 ∈ top_keys (array t)) then 0 else 1 in
  (forall k, k ∈ top_keys (array t') <-> k = key1 \/ k ∈ top_keys (array t)) /\
  occupied t' = occupied t + d /\
  TABLE_SIZES t' = TABLE_SIZES t /\ internal_sizes t' = internal_sizes t /\
  resize_step t (count t + d) t'.
Proof.
  intros Hinv Hset d.
  destruct (setitem_shape t key1 key2 data t' Hinv Hset)
    as (lpt0 & sub & Hlc0 & Hsub & Hfresh & Hentries & F1 & F2 & Hstep).
  assert (Hinv' : table_inv t') by (eapply setitem_result; eauto).
  assert (Hkeys : forall k, k ∈ top_keys (array t') <-> k = key1 \/ k ∈ top_keys (array t)).
  { intros k. rewrite !elem_of_top_keys. split.
    - intros (lpt & Hl). apply Hentries in Hl as [[-> _]|[_ Hl]]; [now left|].
      right. now exists lpt.
    - intros [->|(lpt & Hl)].
      + exists sub. apply Hentries. now left.
      + destruct (string_dec k key1) as [->|Hk].
        * exists sub. apply Hentries. now left.
        * exists lpt. apply Hentries. right. auto. }
  assert (Hd : (if lpt_is_empty lpt0 then 1 else 0) = d /\
               (d = 0 -> key1 ∈ top_keys (array t)) /\
               (d = 1 -> key1 ∉ top_keys (array t))).
  { unfold d. destruct (lpt_is_empty lpt0).
    - destruct Hfresh as [Habs _].
      assert (key1 ∉ top_keys (array t)).
      { rewrite elem_of_top_keys. intros (lpt & Hl). eapply Habs; eauto. }
      rewrite bool_decide_eq_false_2 by assumption. repeat split; [discriminate | auto].
    - assert (key1 ∈ top_keys (array t)).
      { rewrite elem_of_top_keys. now exists lpt0. }
      rewrite bool_decide_eq_true_2 by assumption. repeat split; [auto | discriminate]. }
  destruct Hd as (Hd1 & Hd0 & Hd2). rewrite Hd1 in Hstep.
  split; [exact Hkeys|]. split; [|split; [exact F1|split; [exact F2|exact Hstep]]].
  unfold occupied.
  pose proof (distinct_keys_NoDup _ (proj1 (proj1 Hinv))) as Hnd.
  pose proof (distinct_keys_NoDup _ (proj1 (proj1 Hinv'))) as Hnd'.
  assert (Hcases : d = 0 \/ d = 1).
  { unfold d. destruct (bool_decide _); auto. }
  destruct Hcases as [H0|H1].
  - rewrite H0. rewrite (length_same_elements _ (top_keys (array t)) Hnd' Hnd); [lia|].
    intros k. rewrite Hkeys. split; [intros [->|?]; auto | auto].
  - rewrite H1.
    rewrite (length_same_elements _ (key1 :: top_keys (array t)) Hnd');
      [simpl; lia | | ].
    + constructor; auto.
    + intros k. rewrite Hkeys, elem_of_cons. reflexivity.
Qed.

(** The first keys and the counter after a completed deletion. *)
Lemma delitem_first_keys t fuel key t' :
  table_inv t -> delitem fuel key t = Some (t', Ok tt) ->
  let d := if bool_decide (key.1 ∈ top_keys (array t')) then 0 else 1 in
  key.1 ∈ top_keys (array t) /\
  (forall k, k <> key.1 -> k ∈ top_keys (array t') <-> k ∈ top_keys (array t)) /\
  occupied t' = occupied t - d /\ count t' = count t - d /\
  TABLE_SIZES t' = TABLE_SIZES t /\ internal_sizes t' = internal_sizes t /\
  size_index t' = size_index t /\ table_size t' = table_size t.
Proof.
  intros Hinv Hdel d.
  destruct (delitem_shape t fuel key t' Hinv Hdel)
    as (lpt & ht & Hentry & Hlpt & F1 & F2 & F3 & F4 & Hcase).
  assert (Hinv' : table_inv t') by (eapply delitem_result; eauto).
  pose proof (distinct_keys_NoDup _ (proj1 (proj1 Hinv))) as Hnd.
  pose proof (distinct_keys_NoDup _ (proj1 (proj1 Hinv'))) as Hnd'.
  assert (Hin : key.1 ∈ top_keys (array t)).
  { rewrite elem_of_top_keys. now exists lpt. }
  split; [exact Hin|].
  destruct (lpt_is_empty ht); destruct Hcase as [Hcount Hentries].
  - assert (Hnot : key.1 ∉ top_keys (array t')).
    { rewrite elem_of_top_keys. intros (lpt' & Hl). apply Hentries in Hl as [Hk _].
      now apply Hk. }
    assert (Hkeys : forall k, k ∈ top_keys (array t) <-> k = key.1 \/ k ∈ top_keys (array t')).
    { intros k. rewrite !elem_of_top_keys. split.
      - intros (lpt' & Hl). destruct (string_dec k key.1) as [->|Hk]; [now left|].
        right. exists lpt'. apply Hentries. auto.
      - intros [->|(lpt' & Hl)]; [now exists lpt|].
        apply Hentries in Hl as [_ Hl]. now exists lpt'. }
    unfold d. rewrite bool_decide_eq_false_2 by assumption.
    split.
    { intros k Hk. rewrite Hkeys. split; [auto | intros [?|?]; [contradiction | auto]]. }
    split; [|repeat split; assumption].
    unfold occupied.
    rewrite (length_same_elements (top_keys (array t)) (key.1 :: top_keys (array t')) Hnd);
      [simpl; lia | | ].
    + constructor; auto.
    + intros k. rewrite Hkeys, elem_of_cons. reflexivity.
  - assert (Hkeys : forall k, k ∈ top_keys (array t') <-> k ∈ top_keys (array t)).
    { intros k. rewrite !elem_of_top_keys. split.
      - intros (lpt' & Hl). apply Hentries in Hl as [[-> _]|[_ Hl]];
          [now exists lpt | now exists lpt'].
      - intros (lpt' & Hl). destruct (string_dec k key.1) as [->|Hk].
        + exists ht. apply Hentries. now left.
        + exists lpt'. apply Hentries. right. auto. }
    assert (Hstill : key.1 ∈ top_keys (array t')) by (now apply Hkeys).
    unfold d. rewrite bool_decide_eq_true_2 by assumption.
    split; [intros k _; apply Hkeys|].
    split; [|repeat split; first [assumption | lia]].
    unfold occupied.
    rewrite (length_same_elements _ _ Hnd' Hnd Hkeys). lia.
Qed.

(** X9.  A completed insertion stores its pair and changes nothing else
    that can be read: every other pair reads as before, also when the
    insertion has resized the table. *)
Theorem setitem_keeps_other_pairs (t : DoubleKeyTable V) (key : string * string)
    (data : V) (t' : DoubleKeyTable V) :
  reachable t ->
  setitem key data t = (t', Ok tt) ->
  getitem key t' = (t', Ok data) /\
  forall key' v, key' <> key ->
    getitem key' t' = (t', Ok v) <-> getitem key' t = (t, Ok v).
Proof.
  intros Hreach Hset. pose proof (reachable_inv t Hreach) as Hinv.
  destruct (setitem_result t key data t' Hinv Hset) as (Hinv' & Hkey & Hothers).
  split; [apply getitem_maps_to; [apply Hinv' | exact Hkey]|].
  intros key' v Hne.
  rewrite (getitem_iff_maps_to t' key' v Hinv').
  rewrite (getitem_iff_maps_to t key' v Hinv).
  now apply Hothers.
Qed.

(** X10.  A completed insertion adds its first key to [keys()] and nothing
    else, keeps the schedules, and moves the size index by at most one: with
    [c] the counter after the insertion ([len()] plus one for a new first
    key), the capacity and the size index stay when [2c] does not exceed the
    capacity; otherwise the size index advances, and either the capacity
    becomes the next schedule entry and [len()] becomes 0, or no entry is
    left and capacity and counter stay. *)
Theorem setitem_growth_step (t : DoubleKeyTable V) (key1 key2 : string)
    (data : V) (t' : DoubleKeyTable V) :
  reachable t ->
  setitem (key1, key2) data t = (t', Ok tt) ->
  let d := if bool_decide (key1 ∈ top_keys (array t)) then 0 else 1 in
  let c := len t + d in
  (forall k, k ∈ top_keys (array t') <-> k = key1 \/ k ∈ top_keys (array t)) /\
  occupied t' = occupied t + d /\
  TABLE_SIZES t' = TABLE_SIZES t /\ internal_sizes t' = internal_sizes t /\
  (2 * c <= table_size t ->
     size_index t' = size_index t /\ table_size t' = table_size t /\ len t' = c) /\
  (2 * c > table_size t ->
     size_index t' = S (size_index t) /\
     (forall n, TABLE_SIZES t !! S (size_index t) = Some n ->
        table_size t' = Z.max 0 n /\ len t' = 0) /\
     (TABLE_SIZES t !! S (size_index t) = None ->
        table_size t' = table_size t /\ len t' = c)).
Proof.
  intros Hreach Hset d c.
  destruct (setitem_first_keys t key1 key2 data t' (reachable_inv t Hreach) Hset)
    as (Hkeys & Hocc & F1 & F2 & Hstep).
  fold d in Hocc, Hstep. change (count t + d) with c in Hstep.
  split; [exact Hkeys|]. split; [exact Hocc|]. split; [exact F1|]. split; [exact F2|].
  unfold resize_step in Hstep.
  destruct (Z.gtb_spec (2 * c) (table_size t)) as [Hgt|Hle].
  - split; [lia|]. intros _. destruct Hstep as [Hidx Hnext].
    split; [exact Hidx|].
    destruct (TABLE_SIZES t !! S (size_index t)) as [n|].
    + split; [intros n' [= <-]; exact Hnext | discriminate].
    + split; [discriminate | intros _; exact Hnext].
  - split; [intros _; exact Hstep | lia].
Qed.

(** X11.  A completed deletion never resizes: schedules, size index and
    capacity stay.  It removes no other first key from [keys()], and it
    lowers [len()] and the number of occupied cells by one exactly when the
    first key of the pair is gone from [keys()] afterwards. *)
Theorem delitem_keeps_capacity (t : DoubleKeyTable V) (fuel : nat)
    (key : string * string) (t' : DoubleKeyTable V) :
  reachable t ->
  delitem fuel key t = Some (t', Ok tt) ->
  let d := if bool_decide (key.1 ∈ top_keys (array t')) then 0 else 1 in
  key.1 ∈ top_keys (array t) /\
  (forall k, k <> key.1 -> k ∈ top_keys (array t') <-> k ∈ top_keys (array t)) /\
  occupied t' = occupied t - d /\ len t' = len t - d /\
  TABLE_SIZES t' = TABLE_SIZES t /\ internal_sizes t' = internal_sizes t /\
  size_index t' = size_index t /\ table_size t' = table_size t.
Proof.
  intros Hreach Hdel.
  exact (delitem_first_keys t fuel key t' (reachable_inv t Hreach) Hdel).
Qed.

Lemma reachable_count t :
  reachable t ->
  len t <= occupied t /\ (size_index t = O -> len t = occupied t).
Proof.
  induction 1 as [sizes internal t Hinit
                 |t key data t' Hreach IH Hset
                 |t fuel key t' r Hreach IH Hdel
                 |t key t' r _ IH Hget
                 |t key t' r _ IH Hc
                 |t key t' r _ IH Hk
                 |t key t' r _ IH Hv].
  - unfold init in Hinit.
    destruct (default DEFAULT_TABLE_SIZES sizes !! O) as [n|]; [|discriminate].
    injection Hinit as <-. unfold len, occupied. simpl.
    unfold ArrayR. rewrite top_keys_replicate. simpl. lia.
  - destruct key as [key1 key2].
    destruct (setitem_first_keys t key1 key2 data t' (reachable_inv t Hreach) Hset)
      as (_ & Hocc & _ & _ & Hstep).
    destruct IH as [IH1 IH2]. unfold len in *. unfold resize_step in Hstep.
    assert (Hd : 0 <= (if bool_decide (key1 ∈ top_keys (array t)) then 0 else 1))
      by (destruct (bool_decide _); lia).
    assert (Hpos : 0 <= occupied t) by (unfold occupied; lia).
    destruct (2 * _ >? table_size t).
    + destruct Hstep as [Hidx Hnext]. split; [|intros H0; rewrite Hidx in H0; discriminate].
      destruct (TABLE_SIZES t !! S (size_index t)); destruct Hnext as [_ ->]; lia.
    + destruct Hstep as (Hidx & _ & ->). split; [lia|].
      rewrite Hidx. intros H0. specialize (IH2 H0). lia.
  - destruct r as [[]|e].
    + destruct (delitem_first_keys t fuel key t' (reachable_inv t Hreach) Hdel)
        as (_ & _ & Hocc & Hcount & _ & _ & Hidx & _).
      destruct IH as [IH1 IH2]. unfold len in *. split; [lia|].
      rewrite Hidx. intros H0. specialize (IH2 H0). lia.
    + now rewrite (delitem_raise_state _ _ _ _ _ (reachable_inv t Hreach) Hdel).
  - pose proof (getitem_state t key) as Hs. rewrite Hget in Hs. simpl in Hs.
    now subst t'.
  - pose proof (contains_state t key) as Hs. rewrite Hc in Hs. simpl in Hs.
    now subst t'.
  - pose proof (keys_state t key) as Hs. rewrite Hk in Hs. simpl in Hs.
    now subst t'.
  - pose proof (values_state t key) as Hs. rewrite Hv in Hs. simpl in Hs.
    now subst t'.
Qed.

(** X12.  On a reachable table no first key occupies two cells, so the
    occupied cells are as many as the distinct first keys and at most the
    capacity; [len()] never exceeds that number, and equals it as long as no
    insertion has called [_rehash] (the size index is still 0). *)
Theorem len_counts_first_keys_until_resize (t : DoubleKeyTable V) :
  reachable t ->
  NoDup (top_keys (array t)) /\
  occupied t = distinct_first_keys t /\
  0 <= occupied t <= table_size t /\
  len t <= occupied t /\
  (size_index t = O -> len t = occupied t).
Proof.
  intros Hreach. pose proof (reachable_inv t Hreach) as ((Hdist & _) & _).
  pose proof (distinct_keys_NoDup _ Hdist) as Hnd.
  split; [exact Hnd|]. split.
  { unfold occupied, distinct_first_keys. f_equal.
    apply length_same_elements; [exact Hnd | apply NoDup_remove_dups|].
    intros k. now rewrite elem_of_remove_dups. }
  split.
  { unfold occupied, table_size. pose proof (top_keys_length (array t)). lia. }
  apply reachable_count. exact Hreach.
Qed.

(** X13.  Inserting a pair that is not stored and deleting it again gives
    back what could be read before: the deletion returns (given enough
    iterations for the repair walk), every pair reads exactly as it did
    before the insertion, and [keys()] lists the same first keys. *)
Theorem setitem_then_delitem_restores (t : DoubleKeyTable V)
    (key : string * string) (data : V) (t1 : DoubleKeyTable V) :
  reachable t ->
  contains key t = (t, Ok false) ->
  setitem key data t = (t1, Ok tt) ->
  exists fuel t2,
    (forall fuel', (fuel <= fuel')%nat -> delitem fuel' key t1 = Some (t2, Ok tt)) /\
    (forall key' v, getitem key' t2 = (t2, Ok v) <-> getitem key' t = (t, Ok v)) /\
    (forall k, k ∈ top_keys (array t2) <-> k ∈ top_keys (array t)).
Proof.
  intros Hreach Hcontains Hset.
  pose proof (reachable_inv t Hreach) as Hinv.
  destruct (setitem_result t key data t1 Hinv Hset) as (Hinv1 & Hkey & Hothers1).
  destruct (delitem_stored t1 key data Hinv1 Hkey) as (fuel & t2 & Hdel).
  destruct (delitem_result t1 fuel key t2 Hinv1 (Hdel fuel (le_n fuel)))
    as (Hinv2 & Hgone & Hothers2 & _).
  assert (Hnone : forall v, ~ maps_to t key v).
  { intros v Hv. apply (getitem_maps_to t key v Hinv) in Hv.
    unfold contains in Hcontains. rewrite Hv in Hcontains. discriminate. }
  assert (Hmaps : forall key' v, maps_to t2 key' v <-> maps_to t key' v).
  { intros key' v. destruct (decide (key' = key)) as [->|Hne].
    - split; intros Hv; exfalso; [eapply Hgone | eapply Hnone]; eauto.
    - rewrite (Hothers2 key' v Hne). now apply Hothers1. }
  exists fuel, t2. split; [exact Hdel|]. split.
  - intros key' v.
    rewrite (getitem_iff_maps_to t2 key' v Hinv2).
    rewrite (getitem_iff_maps_to t key' v Hinv). apply Hmaps.
  - assert (Hcell : forall t0, table_inv t0 -> forall k,
              k ∈ top_keys (array t0) <-> exists key2 v, maps_to t0 (k, key2) v).
    { intros t0 (Hcons0 & Hne0 & _) k. rewrite elem_of_top_keys. split.
      - intros (lpt & i & Hi).
        destruct (lpt_is_empty_lookup lpt (Hne0 i k lpt Hi)) as (key2 & v & Hl).
        exists key2, v, lpt. split; [now exists i | exact Hl].
      - intros (key2 & v & lpt & He & _). now exists lpt. }
    intros k. rewrite (Hcell t2 Hinv2 k), (Hcell t Hinv k).
    split; intros (key2 & v & Hv); exists key2, v; now apply Hmaps.
Qed.

End Counting.

(** ** The properties on the scenario table *)

Ltac reach_start :=
  apply (reach_set (setitems [(("Tim", "Jen"), 1)] table_of_five).1
           ("Amy", "Ben") 2);
  [ apply (reach_set table_of_five ("Tim", "Jen") 1);
    [ apply (reach_init (Some [5]) None); reflexivity
    | vm_compute; reflexivity ]
  | vm_compute; reflexivity ].

Ltac first_key_decide := apply (bool_decide_unpack _); vm_compute; exact I.

Lemma keys_lists_first_keys_witness :
  exists ks,
    keys None scenario_table = (scenario_table, Ok ks) /\
    iter_keys None scenario_table = (scenario_table, Ok ks) /\
    NoDup ks /\ Z.of_nat (length ks) = occupied scenario_table /\
    forall key1,
      key1 ∈ ks <->
      exists key2 v, getitem (key1, key2) scenario_table = (scenario_table, Ok v).
Proof.
  apply (keys_lists_first_keys scenario_table).
  reach_scenario.
Defined.

Lemma keys_under_first_key_witness :
  (exists ks, keys (Some "Tim") scenario_table = (scenario_table, Ok ks) /\ NoDup ks /\
     forall key2, key2 ∈ ks <->
       exists v, getitem ("Tim", key2) scenario_table = (scenario_table, Ok v)) /\
  keys (Some "Bob") scenario_table = (scenario_table, Raise KeyError).
Proof.
  split.
  - apply (keys_under_first_key scenario_table "Tim"); [reach_scenario|].
    first_key_decide.
  - eapply (keys_under_first_key scenario_table "Bob"); [reach_scenario | |].
    + first_key_decide.
    + vm_compute. reflexivity.
Defined.

Lemma values_under_first_key_witness :
  (exists vs ks,
     values (Some "Tim") scenario_table = (scenario_table, Ok vs) /\
     iter_values (Some "Tim") scenario_table = (scenario_table, Ok vs) /\
     keys (Some "Tim") scenario_table = (scenario_table, Ok ks) /\
     length vs = length ks /\
     forall v, v ∈ vs <->
       exists key2, getitem ("Tim", key2) scenario_table = (scenario_table, Ok v)) /\
  values (Some "Bob") scenario_table = (scenario_table, Raise KeyError) /\
  iter_values (Some "Bob") scenario_table = (scenario_table, Raise KeyError).
Proof.
  split.
  - apply (values_under_first_key scenario_table "Tim"); [reach_scenario|].
    first_key_decide.
  - eapply (values_under_first_key scenario_table "Bob"); [reach_scenario | |].
    + first_key_decide.
    + vm_compute. reflexivity.
Defined.

Lemma values_lists_all_values_witness :
  exists vs,
    values None scenario_table = (scenario_table, Ok vs) /\
    iter_values None scenario_table = (scenario_table, Ok vs) /\
    forall v, v ∈ vs <-> exists key, getitem key scenario_table = (scenario_table, Ok v).
Proof.
  apply (values_lists_all_values scenario_table).
  reach_scenario.
Defined.

Lemma iter_keys_with_first_key_raises_witness :
  iter_keys (Some "Tim") scenario_table = (scenario_table, Raise AttributeError) /\
  iter_keys (Some "Bob") scenario_table = (scenario_table, Raise KeyError).
Proof.
  split.
  - apply (iter_keys_with_first_key_raises scenario_table "Tim"); [reach_scenario|].
    first_key_decide.
  - eapply (iter_keys_with_first_key_raises scenario_table "Bob"); [reach_scenario | |].
    + first_key_decide.
    + vm_compute. reflexivity.
Defined.

Lemma setitem_keeps_other_pairs_witness :
  getitem ("Tim", "Kat") scenario_table = (scenario_table, Ok 3) /\
  forall key' v, key' <> ("Tim", "Kat") ->
    getitem key' scenario_table = (scenario_table, Ok v) <->
    getitem key' scenario_start = (scenario_start, Ok v).
Proof.
  apply (setitem_keeps_other_pairs scenario_start ("Tim", "Kat") 3 scenario_table).
  - reach_start.
  - vm_compute. reflexivity.
Defined.

Lemma setitem_growth_step_witness :
  let d := if bool_decide ("Tim" ∈ top_keys (array scenario_start)) then 0 else 1 in
  let c := len scenario_start + d in
  (forall k, k ∈ top_keys (array scenario_table) <->
             k = "Tim" \/ k ∈ top_keys (array scenario_start)) /\
  occupied scenario_table = occupied scenario_start + d /\
  TABLE_SIZES scenario_table = TABLE_SIZES scenario_start /\
  internal_sizes scenario_table = internal_sizes scenario_start /\
  (2 * c <= table_size scenario_start ->
     size_index scenario_table = size_index scenario_start /\
     table_size scenario_table = table_size scenario_start /\ len scenario_table = c) /\
  (2 * c > table_size scenario_start ->
     size_index scenario_table = S (size_index scenario_start) /\
     (forall n, TABLE_SIZES scenario_start !! S (size_index scenario_start) = Some n ->
        table_size scenario_table = Z.max 0 n /\ len scenario_table = 0) /\
     (TABLE_SIZES scenario_start !! S (size_index scenario_start) = None ->
        table_size scenario_table = table_size scenario_start /\ len scenario_table = c)).
Proof.
  apply (setitem_growth_step scenario_start "Tim" "Kat" 3 scenario_table).
  - reach_start.
  - vm_compute. reflexivity.
Defined.

Lemma delitem_keeps_capacity_witness :
  let d := if bool_decide ("Amy" ∈ top_keys (array scenario_without_amy)) then 0 else 1 in
  "Amy" ∈ top_keys (array scenario_table) /\
  (forall k, k <> "Amy" ->
     k ∈ top_keys (array scenario_without_amy) <-> k ∈ top_keys (array scenario_table)) /\
  occupied scenario_without_amy = occupied scenario_table - d /\
  len scenario_without_amy = len scenario_table - d /\
  TABLE_SIZES scenario_without_amy = TABLE_SIZES scenario_table /\
  internal_sizes scenario_without_amy = internal_sizes scenario_table /\
  size_index scenario_without_amy = size_index scenario_table /\
  table_size scenario_without_amy = table_size scenario_table.
Proof.
  apply (delitem_keeps_capacity scenario_table 25 ("Amy", "Ben") scenario_without_amy).
  - reach_scenario.
  - vm_compute. reflexivity.
Defined.

Lemma len_counts_first_keys_until_resize_witness :
  NoDup (top_keys (array scenario_table)) /\
  occupied scenario_table = distinct_first_keys scenario_table /\
  0 <= occupied scenario_table <= table_size scenario_table /\
  len scenario_table <= occupied scenario_table /\
  (size_index scenario_table = O -> len scenario_table = occupied scenario_table).
Proof.
  apply (len_counts_first_keys_until_resize scenario_table).
  reach_scenario.
Defined.

Lemma setitem_then_delitem_restores_witness :
  exists fuel t2,
    (forall fuel', (fuel <= fuel')%nat ->
       delitem fuel' ("Tim", "Kat") scenario_table = Some (t2, Ok tt)) /\
    (forall key' v,
       getitem key' t2 = (t2, Ok v) <-> getitem key' scenario_start = (scenario_start, Ok v)) /\
    (forall k, k ∈ top_keys (array t2) <-> k ∈ top_keys (array scenario_start)).
Proof.
  apply (setitem_then_delitem_restores scenario_start ("Tim", "Kat") 3 scenario_table).
  - reach_start.
  - vm_compute. reflexivity.
  - vm_compute. reflexivity.
Defined.

(** ** When the resize and the insertion succeed *)

Section Success.

Context {V : Type}.

Implicit Types (t : DoubleKeyTable V) (arr : list (option (entry V)))
  (lpt : LinearProbeTable V).

Lemma bind_run {A B : Type} (m : M V A) (k : A -> M V B) t t' a :
  m t = (t', Ok a) -> bind m k t = k a t'.
Proof. intros H. unfold bind. now rewrite H. Qed.

(** An array with fewer first keys than cells has an empty cell. *)
Lemma free_cell_exists arr :
  (length (top_keys arr) < length arr)%nat ->
  exists f, 0 <= f < Z.of_nat (length arr) /\ free_at arr f.
Proof.
  induction arr as [|cell rest IH]; [simpl; lia|].
  rewrite top_keys_cons. destruct cell as [[k lpt]|]; simpl; intros Hlt.
  - destruct IH as (f & Hf & Hfree); [lia|].
    exists (f + 1). split; [lia|]. unfold free_at in *.
    replace (Z.to_nat (f + 1)) with (S (Z.to_nat f)) by lia. exact Hfree.
  - exists 0. split; [lia | reflexivity].
Qed.

Lemma top_keys_insert_free arr : forall (i : nat) (e : entry V),
  arr !! i = Some None ->
  length (top_keys (<[i := Some e]> arr)) = S (length (top_keys arr)).
Proof.
  induction arr as [|cell rest IH]; intros i e Hi; [discriminate|].
  destruct i as [|i]; simpl in Hi.
  - injection Hi as ->.
    change (<[O := Some e]> (None :: rest)) with (Some e :: rest).
    rewrite !top_keys_cons. now destruct e.
  - change (<[S i := Some e]> (cell :: rest)) with (cell :: <[i := Some e]> rest).
    rewrite !top_keys_cons. specialize (IH i e Hi).
    destruct cell as [[k lpt]|]; simpl; now rewrite IH.
Qed.

(** The insert-mode probe for a first key that no cell holds finds an empty
    cell as soon as the array has one. *)
Lemma probe_top_insert_free t k :
  2 <= table_size t ->
  (forall q, 0 <= q < table_size t -> key_at (array t) q <> Some k) ->
  (length (top_keys (array t)) < length (array t))%nat ->
  exists p, linear_probe_top k true t = (t, Ok p).
Proof.
  intros Hsize Habs Hroom.
  destruct (hash_str_range (table_size t) k Hsize) as (h & Hh & Hr).
  destruct (free_cell_exists _ Hroom) as (f & Hf & Hfree).
  rewrite (linear_probe_top_scan t k true h Hh).
  destruct (scan_finds_with_free (array t) k h f Hr Hf Hfree)
    as (p & _ & _ & [[-> _]|[-> _]]); eauto.
Qed.

(** The re-insertion loop of [_rehash] completes when the new array has
    room for the first keys still to be moved. *)
Lemma rehash_loop_ok old : forall t,
  probe_consistent (array t) -> 2 <= table_size t ->
  NoDup (top_keys old) ->
  (forall k, k ∈ top_keys old ->
     forall q, 0 <= q < table_size t -> key_at (array t) q <> Some k) ->
  (length (top_keys (array t)) + length (top_keys old) <= length (array t))%nat ->
  exists t', rehash_loop old t = (t', Ok tt).
Proof.
  induction old as [|cell rest IH]; intros t Hcons Hsize Hnd Hfresh Hroom.
  - exists t. reflexivity.
  - rewrite top_keys_cons in Hnd, Hfresh, Hroom.
    destruct cell as [[k lpt]|]; simpl in *.
    + apply NoDup_cons in Hnd as [Hnotin Hnd].
      assert (Habs : forall q, 0 <= q < table_size t -> key_at (array t) q <> Some k).
      { apply Hfresh. left. }
      destruct (probe_top_insert_free t k Hsize Habs) as (p & Hprobe); [lia|].
      destruct (probe_top_insert_absent t k t p Habs Hprobe)
        as (_ & Hp & Hfree & h & Hh & Hclear).
      rewrite (bind_run _ _ _ _ _ Hprobe).
      rewrite (bind_run _ _ _ _ _ (array_setitem_ok t p (Some (k, lpt)) Hp)).
      apply IH.
      * simpl. apply (probe_consistent_insert (array t) k h p lpt Hcons); assumption.
      * rewrite table_size_set_array, length_insert. exact Hsize.
      * exact Hnd.
      * intros k' Hin q Hq. simpl in Hq |- *.
        rewrite table_size_set_array, length_insert in Hq.
        rewrite key_at_insert by (unfold table_size in Hp; lia).
        destruct (Z.eq_dec q p) as [->|Hqp]; simpl.
        -- intros [= ->]. contradiction.
        -- apply Hfresh; [now right | exact Hq].
      * simpl. rewrite (top_keys_insert_free _ _ _ Hfree), length_insert. lia.
    + apply IH; assumption.
Qed.

(** [_rehash] completes when the next capacity of the schedule is at least
    2 and at least the number of occupied cells. *)
Lemma rehash_ok t n :
  table_inv t ->
  TABLE_SIZES t !! S (size_index t) = Some n ->
  2 <= n -> occupied t <= n ->
  exists t', rehash t = (t', Ok tt).
Proof.
  intros [[Hdist Hpath] Hne] Hn Hsize Hocc.
  unfold rehash. munfold. unfold id. simpl.
  pose proof (lookup_lt_Some _ _ _ Hn) as Hlt.
  destruct (Nat.leb_spec (length (TABLE_SIZES t)) (S (size_index t))) as [?|_]; [lia|].
  rewrite Hn.
  apply rehash_loop_ok; simpl.
  - apply probe_consistent_empty.
  - unfold table_size, ArrayR. simpl. rewrite length_replicate. lia.
  - now apply distinct_keys_NoDup.
  - intros k _ q _. unfold ArrayR. rewrite key_at_replicate. discriminate.
  - unfold ArrayR. rewrite top_keys_replicate, length_replicate. simpl.
    unfold occupied in Hocc. lia.
Qed.

(** [_rehash] completes when the schedule has no next capacity. *)
Lemma rehash_exhausted t :
  TABLE_SIZES t !! S (size_index t) = None ->
  rehash t = (set_size_index (S (size_index t)) t, Ok tt).
Proof.
  intros Hn. unfold rehash. munfold. unfold id. simpl.
  apply lookup_ge_None_1 in Hn.
  destruct (Nat.leb_spec (length (TABLE_SIZES t)) (S (size_index t))); [reflexivity | lia].
Qed.

(** [__setitem__] from the result of its probe up to its growth test. *)
Lemma setitem_runs t key1 key2 data p q lpt0 sub :
  linear_probe key1 (Some key2) true t
  = (set_array (<[Z.to_nat p := Some (key1, lpt0)]> (array t)) t, Ok (Both p q)) ->
  0 <= p < table_size t ->
  lpt_setitem key2 data lpt0 = Ok sub ->
  let tm := set_count (count t + (if lpt_is_empty lpt0 then 1 else 0))
              (set_array (<[Z.to_nat p := Some (key1, sub)]> (array t)) t) in
  setitem (key1, key2) data t
  = if 2 * len tm >? table_size tm then rehash tm else (tm, Ok tt).
Proof.
  intros Hprobe Hp Hsub tm.
  set (ta := set_array (<[Z.to_nat p := Some (key1, lpt0)]> (array t)) t) in *.
  assert (Hlen : (Z.to_nat p < length (array t))%nat) by (unfold table_size in Hp; lia).
  assert (Hboth : linear_probe_both key1 key2 true t = (ta, Ok (p, q))).
  { unfold linear_probe_both. now rewrite (bind_run _ _ _ _ _ Hprobe). }
  assert (Hentry : array_entry p ta = (ta, Ok (key1, lpt0))).
  { apply array_entry_lookup; [lia|]. unfold ta. simpl.
    now rewrite list_lookup_insert_eq. }
  unfold setitem.
  rewrite (bind_run _ _ _ _ _ Hboth). cbn [fst snd].
  rewrite (bind_run _ _ _ _ _ Hentry). cbn [fst snd].
  set (tc := set_count (count t + (if lpt_is_empty lpt0 then 1 else 0)) ta).
  assert (Hcount : (if lpt_is_empty lpt0
                    then modify (fun t0 => set_count (count t0 + 1) t0)
                    else ret tt) ta = (tc, Ok tt)).
  { unfold tc. destruct (lpt_is_empty lpt0); [reflexivity|].
    unfold ret. f_equal. unfold ta, set_count, set_array. simpl. f_equal. lia. }
  rewrite (bind_run _ _ _ _ _ Hcount).
  assert (Hlift : lift (fun _ : DoubleKeyTable V => lpt_setitem key2 data lpt0) tc
                  = (tc, Ok sub)).
  { unfold lift. now rewrite Hsub. }
  rewrite (bind_run _ _ _ _ _ Hlift).
  assert (Hstore : array_setitem p (Some (key1, sub)) tc = (tm, Ok tt)).
  { rewrite array_setitem_ok.
    - unfold tm, tc, ta, set_count, set_array. simpl.
      now rewrite list_insert_insert_eq.
    - unfold tc, ta, table_size. simpl. rewrite length_insert.
      unfold table_size in Hp. lia. }
  rewrite (bind_run _ _ _ _ _ Hstore).
  unfold bind, gets, id.
  destruct (2 * len tm >? table_size tm); reflexivity.
Qed.

Lemma top_keys_insert_same arr : forall (i : nat) k lpt lpt',
  arr !! i = Some (Some (k, lpt)) ->
  top_keys (<[i := Some (k, lpt')]> arr) = top_keys arr.
Proof.
  induction arr as [|cell rest IH]; intros i k lpt lpt' Hi; [discriminate|].
  destruct i as [|i]; simpl in Hi.
  - injection Hi as ->.
    change (<[O := Some (k, lpt')]> (Some (k, lpt) :: rest))
      with (Some (k, lpt') :: rest).
    now rewrite !top_keys_cons.
  - change (<[S i := Some (k, lpt')]> (cell :: rest))
      with (cell :: <[i := Some (k, lpt')]> rest).
    rewrite !top_keys_cons, (IH i k lpt lpt' Hi). reflexivity.
Qed.

(** The growth test at the end of [__setitem__], run on a consistent table:
    it completes when no growth is due, when the schedule has no next
    capacity, or when the next capacity takes the occupied cells. *)
Lemma growth_completes tm :
  table_inv tm ->
  (2 * len tm > table_size tm ->
   forall n, TABLE_SIZES tm !! S (size_index tm) = Some n ->
     2 <= n /\ occupied tm <= n) ->
  exists t', (if 2 * len tm >? table_size tm then rehash tm else (tm, Ok tt))
             = (t', Ok tt).
Proof.
  intros Hinv Hgrow.
  destruct (Z.gtb_spec (2 * len tm) (table_size tm)) as [Hgt|_]; [|eauto].
  destruct (TABLE_SIZES tm !! S (size_index tm)) as [n|] eqn:Hn.
  - destruct (Hgrow ltac:(lia) n eq_refl) as [Hsize Hocc].
    exact (rehash_ok tm n Hinv Hn Hsize Hocc).
  - rewrite (rehash_exhausted tm Hn). eauto.
Qed.

(** [__setitem__] under a first key that some cell holds completes when the
    nested table takes the pair and the growth test completes. *)
Lemma setitem_present_completes t key1 key2 data lpt0 sub :
  table_inv t ->
  has_entry (array t) key1 lpt0 ->
  lpt_setitem key2 data lpt0 = Ok sub ->
  (2 * len t > table_size t ->
   forall n, TABLE_SIZES t !! S (size_index t) = Some n ->
     2 <= n /\ occupied t <= n) ->
  exists t', setitem (key1, key2) data t = (t', Ok tt).
Proof.
  intros (Hcons & Hne & Hnc) Hentry Hsub Hgrow.
  destruct (has_entry_key_at _ _ _ Hentry) as (p & Hp & _ & Hcell).
  assert (Hq : exists q, lpt_linear_probe key2 true lpt0 = Ok q).
  { unfold lpt_setitem in Hsub.
    destruct (lpt_linear_probe key2 true lpt0) as [q|e]; [eauto | discriminate]. }
  destruct Hq as (q & Hq).
  pose proof (linear_probe_stored t p key1 lpt0 (Some key2) true Hcons (proj1 Hp) Hcell)
    as Hprobe.
  cbv beta iota in Hprobe. rewrite Hq in Hprobe.
  assert (Hta : set_array (<[Z.to_nat p := Some (key1, lpt0)]> (array t)) t = t).
  { rewrite (list_insert_id _ _ _ Hcell). apply set_array_self. }
  rewrite <- Hta in Hprobe at 2.
  rewrite (setitem_runs t key1 key2 data p q lpt0 sub Hprobe Hp Hsub).
  assert (Hnonempty : lpt_is_empty lpt0 = false) by (eapply Hne; eauto).
  rewrite Hnonempty.
  set (tm := set_count (count t + 0)
               (set_array (<[Z.to_nat p := Some (key1, sub)]> (array t)) t)).
  assert (Hlc : probe_consistent (lpt_array lpt0)) by (eapply Hnc; eauto).
  destruct (store_result (array t) p key1 key2 data lpt0 sub Hcons Hne Hnc Hp Hlc
              Hsub)
    as (Hcons' & Hne' & Hnc' & _); [now left|].
  apply growth_completes; [exact (conj Hcons' (conj Hne' Hnc'))|].
  unfold tm, len, table_size, occupied. simpl.
  rewrite length_insert, (top_keys_insert_same _ _ _ _ _ Hcell).
  replace (count t + 0) with (count t) by lia. exact Hgrow.
Qed.

(** [__setitem__] under a first key that no cell holds completes when the
    array has an empty cell, the nested schedule starts with a capacity of
    at least 2 and the growth test completes. *)
Lemma setitem_fresh_completes t key1 key2 data :
  table_inv t ->
  key1 ∉ top_keys (array t) ->
  2 <= table_size t -> occupied t < table_size t ->
  (exists n, internal_sizes t !! O = Some n /\ 2 <= n) ->
  (2 * (len t + 1) > table_size t ->
   forall n, TABLE_SIZES t !! S (size_index t) = Some n ->
     2 <= n /\ occupied t + 1 <= n) ->
  exists t', setitem (key1, key2) data t = (t', Ok tt).
Proof.
  intros (Hcons & Hne & Hnc) Hnew Hsize Hroom (n0 & Hn0 & Hcap) Hgrow.
  assert (Habs : forall q, 0 <= q < table_size t -> key_at (array t) q <> Some key1).
  { intros q Hq Hk. apply Hnew. apply elem_of_top_keys.
    destruct (key_at_has_entry _ _ _ (proj1 Hq) Hk) as (lpt & He). now exists lpt. }
  destruct (hash_str_range (table_size t) key1 Hsize) as (h & Hh & Hr).
  destruct (free_cell_exists (array t)) as (f & Hf & Hfree);
    [unfold occupied, table_size in Hroom; lia|].
  destruct (scan_absent (array t) key1 h Habs Hr)
    as [(p & Hscan & Hp & Hpfree & Hclear)|Hscan].
  2:{ destruct (scan_finds_with_free (array t) key1 h f Hr Hf Hfree)
        as (p & _ & _ & [[Hs _]|[Hs _]]); congruence. }
  set (lpt0 := {| lpt_sizes := internal_sizes t; lpt_size_index := O;
                  lpt_array := ArrayR (A:=string * V) n0 |}).
  assert (Hlpt0 : lpt_new (internal_sizes t) = Ok lpt0).
  { unfold lpt_new. now rewrite Hn0. }
  assert (Hwide : 2 <= lpt_table_size lpt0).
  { unfold lpt_table_size, lpt0, ArrayR. simpl. rewrite length_replicate. lia. }
  destruct (lpt_setitem_new _ _ key2 data Hlpt0 Hwide) as (sub & Hsub).
  assert (Hq : exists q, lpt_linear_probe key2 true lpt0 = Ok q).
  { unfold lpt_setitem in Hsub.
    destruct (lpt_linear_probe key2 true lpt0) as [q|e]; [eauto | discriminate]. }
  destruct Hq as (q & Hq).
  assert (Hprobe : linear_probe key1 (Some key2) true t
                   = (set_array (<[Z.to_nat p := Some (key1, lpt0)]> (array t)) t,
                      Ok (Both p q))).
  { rewrite (linear_probe_scan t key1 (Some key2) true h Hh), Hscan. simpl.
    rewrite Hlpt0. now rewrite Hq. }
  rewrite (setitem_runs t key1 key2 data p q lpt0 sub Hprobe Hp Hsub).
  destruct (lpt_new_empty _ _ Hlpt0) as (Hlc & Hempty & Hitems & _).
  rewrite Hempty.
  destruct (store_result (array t) p key1 key2 data lpt0 sub Hcons Hne Hnc Hp Hlc
              Hsub)
    as (Hcons' & Hne' & Hnc' & _).
  { right. split; [exact Hpfree|]. split; [exact Hitems|]. split; [exact Habs|].
    exists h. split; [exact Hh | exact Hclear]. }
  apply growth_completes; [exact (conj Hcons' (conj Hne' Hnc'))|].
  unfold len, table_size, occupied. simpl.
  rewrite length_insert, (top_keys_insert_free _ _ _ Hpfree).
  unfold len, table_size, occupied in Hgrow. intros Hgt n Hn.
  destruct (Hgrow Hgt n Hn). lia.
Qed.

(** After any completed operation the counter is at most half the capacity,
    unless the size index has run past the schedule. *)
Lemma reachable_growth_due t :
  reachable t ->
  2 * len t <= table_size t \/ (length (TABLE_SIZES t) <= size_index t)%nat.
Proof.
  induction 1 as [sizes internal t Hinit
                 |t key data t' Hreach IH Hset
                 |t fuel key t' r Hreach IH Hdel
                 |t key t' r _ IH Hget
                 |t key t' r _ IH Hc
                 |t key t' r _ IH Hk
                 |t key t' r _ IH Hv].
  - unfold init in Hinit.
    destruct (default DEFAULT_TABLE_SIZES sizes !! O) as [n|]; [|discriminate].
    injection Hinit as <-. left. unfold len, table_size. simpl. lia.
  - destruct key as [key1 key2].
    destruct (setitem_first_keys t key1 key2 data t' (reachable_inv t Hreach) Hset)
      as (_ & _ & F1 & _ & Hstep).
    unfold resize_step in Hstep. unfold len. rewrite F1.
    destruct (Z.gtb_spec
                (2 * (count t + (if bool_decide (key1 ∈ top_keys (array t))
                                 then 0 else 1))) (table_size t)) as [Hgt|Hle].
    + destruct Hstep as [Hidx Hnext]. rewrite Hidx.
      destruct (TABLE_SIZES t !! S (size_index t)) as [n|] eqn:Hn.
      * destruct Hnext as [-> ->]. left. lia.
      * right. now apply lookup_ge_None_1.
    + destruct Hstep as (_ & -> & ->). left. lia.
  - destruct r as [[]|e].
    + destruct (delitem_first_keys t fuel key t' (reachable_inv t Hreach) Hdel)
        as (_ & _ & _ & Hcount & F1 & _ & Hidx & Hsize).
      unfold len in *. rewrite F1, Hidx, Hsize, Hcount.
      destruct IH as [IH|IH]; [left | now right].
      destruct (bool_decide _); lia.
    + now rewrite (delitem_raise_state _ _ _ _ _ (reachable_inv t Hreach) Hdel).
  - pose proof (getitem_state t key) as Hs. rewrite Hget in Hs. simpl in Hs.
    now subst t'.
  - pose proof (contains_state t key) as Hs. rewrite Hc in Hs. simpl in Hs.
    now subst t'.
  - pose proof (keys_state t key) as Hs. rewrite Hk in Hs. simpl in Hs.
    now subst t'.
  - pose proof (values_state t key) as Hs. rewrite Hv in Hs. simpl in Hs.
    now subst t'.
Qed.

End Success.

(** ** What a caller can rely on *)

Section Guarantees.

Context {V : Type}.

Implicit Types (t : DoubleKeyTable V) (arr : list (option (entry V)))
  (lpt : LinearProbeTable V).



(** X16.  [_rehash] on a reachable table whose schedule has a next capacity
    [n] of at least 2 that takes every occupied cell completes: the capacity
    becomes [n], the size index advances by one, [len()] becomes 0, and
    every pair reads as before under the same first keys. *)
Theorem rehash_grows_and_keeps_pairs (t : DoubleKeyTable V) (n : Z) :
  reachable t ->
  TABLE_SIZES t !! S (size_index t) = Some n ->
  2 <= n -> occupied t <= n ->
  exists t',
    rehash t = (t', Ok tt) /\
    table_size t' = n /\ size_index t' = S (size_index t) /\ len t' = 0 /\
    occupied t' = occupied t /\
    (forall k, k ∈ top_keys (array t') <-> k ∈ top_keys (array t)) /\
    forall key v, getitem key t' = (t', Ok v) <-> getitem key t = (t, Ok v).
Proof.
  intros Hreach Hn Hsize Hocc. pose proof (reachable_inv t Hreach) as Hinv.
  destruct (rehash_ok t n Hinv Hn Hsize Hocc) as (t' & Hre).
  exists t'. split; [exact Hre|].
  destruct (rehash_fields t t' Hre) as (_ & _ & Hidx & Hnext).
  rewrite Hn in Hnext. destruct Hnext as [Hcap Hcount].
  destruct (rehash_result t t' Hinv Hre) as (Hinv' & Hentries).
  assert (Hkeys : forall k, k ∈ top_keys (array t') <-> k ∈ top_keys (array t)).
  { intros k. rewrite !elem_of_top_keys.
    split; intros (lpt & Hl); exists lpt; now apply Hentries. }
  split; [lia|]. split; [exact Hidx|]. split; [exact Hcount|]. split.
  { unfold occupied. f_equal. apply length_same_elements; [| |exact Hkeys].
    - apply distinct_keys_NoDup, Hinv'.
    - apply distinct_keys_NoDup, Hinv. }
  split; [exact Hkeys|].
  intros key v.
  rewrite (getitem_iff_maps_to t' key v Hinv').
  rewrite (getitem_iff_maps_to t key v Hinv).
  apply maps_to_entries. intros lpt. apply Hentries.
Qed.

(** X17.  On a reachable table of capacity at least 2 a lookup of a pair
    whose first key has no cell, or has one with a nested table of capacity
    at least 2, raises nothing but [KeyError]: [__contains__] returns, with
    [True] exactly when [__getitem__] returns a value and [False] exactly
    when it raises [KeyError]. *)
Theorem lookup_returns_or_key_error (t : DoubleKeyTable V) (key : string * string) :
  reachable t ->
  2 <= table_size t ->
  (forall lpt, has_entry (array t) key.1 lpt -> 2 <= lpt_table_size lpt) ->
  exists b, contains key t = (t, Ok b) /\
    if b then exists v, getitem key t = (t, Ok v)
    else getitem key t = (t, Raise KeyError).
Proof.
  intros Hreach Hsize Hwide. pose proof (reachable_inv t Hreach) as Hinv.
  destruct (hash_str_range (table_size t) key.1 Hsize) as (h & Hh & _).
  destruct (stored key t) eqn:Hst.
  - destruct (stored_maps_to t key Hst) as (v & Hv).
    pose proof (getitem_maps_to t key v Hinv Hv) as Hget.
    exists true. split; [|now exists v]. unfold contains. now rewrite Hget.
  - assert (Hsec : second_hash_returns key t = true).
    { apply second_hash_entries. intros lpt Hentry.
      destruct (hash_str_range (lpt_table_size lpt) key.2 (Hwide lpt Hentry))
        as (h2 & Hh2 & _).
      now exists h2. }
    pose proof (getitem_absent t key h Hst Hsec Hh) as Hget.
    exists false. split; [|exact Hget]. unfold contains. now rewrite Hget.
Qed.

(** X18.  After any sequence of completed operations twice [len()] is at
    most the capacity, unless the size index has run past the end of the
    schedule. *)
Theorem counter_at_most_half_capacity (t : DoubleKeyTable V) :
  reachable t ->
  2 * len t <= table_size t \/ (length (TABLE_SIZES t) <= size_index t)%nat.
Proof. exact (reachable_growth_due t). Qed.

End Guarantees.



Lemma rehash_grows_and_keeps_pairs_witness :
  exists t',
    rehash (setitem ("a", "x") 1 default_table).1 = (t', Ok tt) /\
    table_size t' = 13 /\
    size_index t' = S (size_index (setitem ("a", "x") 1 default_table).1) /\
    len t' = 0 /\
    occupied t' = occupied (setitem ("a", "x") 1 default_table).1 /\
    (forall k, k ∈ top_keys (array t') <->
               k ∈ top_keys (array (setitem ("a", "x") 1 default_table).1)) /\
    forall key v,
      getitem key t' = (t', Ok v) <->
      getitem key (setitem ("a", "x") 1 default_table).1
      = ((setitem ("a", "x") 1 default_table).1, Ok v).
Proof.
  apply (rehash_grows_and_keeps_pairs (setitem ("a", "x") 1 default_table).1 13).
  - apply (reach_set default_table ("a", "x") 1).
    + apply (reach_init None None). reflexivity.
    + vm_compute. reflexivity.
  - vm_compute. reflexivity.
  - lia.
  - vm_compute. discriminate.
Defined.

Lemma lookup_returns_or_key_error_witness :
  exists b, contains ("Tim", "Bob") scenario_table = (scenario_table, Ok b) /\
    if b then exists v, getitem ("Tim", "Bob") scenario_table = (scenario_table, Ok v)
    else getitem ("Tim", "Bob") scenario_table = (scenario_table, Raise KeyError).
Proof.
  apply (lookup_returns_or_key_error scenario_table ("Tim", "Bob")).
  - reach_scenario.
  - vm_compute. discriminate.
  - intros lpt (i & Hi).
    do 5 (destruct i as [|i];
          [vm_compute in Hi; try discriminate; injection Hi as <-;
           vm_compute; discriminate|]).
    vm_compute in Hi. discriminate.
Defined.

Lemma counter_at_most_half_capacity_witness :
  2 * len scenario_table <= table_size scenario_table \/
  (length (TABLE_SIZES scenario_table) <= size_index scenario_table)%nat.
Proof.
  apply (counter_at_most_half_capacity scenario_table).
  reach_scenario.
Defined.

(** ** The probe with a second key, and deleting before inserting again *)

Section ProbeAndRoundTrip.

Context {V : Type}.

Implicit Types (t : DoubleKeyTable V) (arr : list (option (entry V)))
  (lpt : LinearProbeTable V).

(** X19.  A probe with a second key that returns gives a pair of positions:
    an in-bounds cell that now holds the first key, and the slot of the
    nested table of that cell that the probe of the nested table gives for
    the second key, starting from its hash.  Either the cell held the first
    key already and the table is unchanged; or the probe runs in insert mode
    and has stopped at an empty cell: then it has put the first key with a
    new empty nested table into that cell and changed nothing else, and on a
    table with consistent probe sequences no cell held the first key. *)
Theorem probe_with_second_key (t : DoubleKeyTable V) (key1 key2 : string)
    (is_insert : bool) (t' : DoubleKeyTable V) (pos : probe_pos) :
  linear_probe key1 (Some key2) is_insert t = (t', Ok pos) ->
  exists p q lpt,
    pos = Both p q /\ 0 <= p < table_size t /\
    array t' !! Z.to_nat p = Some (Some (key1, lpt)) /\
    lpt_linear_probe key2 is_insert lpt = Ok q /\
    0 <= q < lpt_table_size lpt /\
    ((t' = t /\ array t !! Z.to_nat p = Some (Some (key1, lpt))) \/
     (is_insert = true /\ free_at (array t) p /\
      lpt_new (internal_sizes t) = Ok lpt /\
      t' = set_array (<[Z.to_nat p := Some (key1, lpt)]> (array t)) t /\
      (probe_consistent (array t) -> key1 ∉ top_keys (array t)))).
Proof.
  intros Hprobe.
  destruct (hash1 t key1) as [h|e] eqn:Hh.
  2:{ unfold linear_probe in Hprobe. munfold. rewrite Hh in Hprobe. discriminate. }
  rewrite (linear_probe_scan _ _ _ _ _ Hh) in Hprobe.
  destruct (array t) as [|c0 rest] eqn:Harr.
  { simpl in Hprobe. discriminate. }
  rewrite <- Harr in *.
  assert (Hn : 1 <= table_size t).
  { unfold table_size. rewrite Harr. simpl. lia. }
  pose proof (hash1_range _ _ _ Hh Hn) as Hr. unfold table_size in Hr.
  pose proof (scan_spec (array t) key1 (length (array t)) h Hr) as Hs.
  destruct (scan (array t) key1 (length (array t)) h) as [p|p| |] eqn:Hscan;
    simpl in Hprobe; try discriminate.
  - destruct Hs as (Hp & Hkey & _).
    destruct (key_at_cell _ _ _ (proj1 Hp) Hkey) as (lpt & Hcell).
    rewrite Hcell in Hprobe.
    destruct (lpt_linear_probe key2 is_insert lpt) as [q|e] eqn:Hq; [|discriminate].
    injection Hprobe as <- <-.
    exists p, q, lpt. split; [reflexivity|]. split; [exact Hp|].
    split; [exact Hcell|]. split; [exact Hq|].
    split; [exact (proj1 (lpt_probe_ok _ _ _ _ Hq))|]. now left.
  - destruct is_insert; [|discriminate].
    destruct Hs as (Hp & Hfree & _).
    destruct (lpt_new (internal_sizes t)) as [lpt|e] eqn:Hnew; [|discriminate].
    destruct (lpt_linear_probe key2 true lpt) as [q|e] eqn:Hq; [|discriminate].
    injection Hprobe as <- <-.
    exists p, q, lpt.
    split; [reflexivity|]. split; [exact Hp|]. split.
    { simpl. apply list_lookup_insert_eq. lia. }
    split; [exact Hq|]. split; [exact (proj1 (lpt_probe_ok _ _ _ _ Hq))|].
    right. split; [reflexivity|]. split; [exact Hfree|]. split; [reflexivity|].
    split; [reflexivity|].
    intros Hcons Hin. apply elem_of_top_keys in Hin as (lpt' & Hentry).
    destruct (has_entry_key_at _ _ _ Hentry) as (q' & Hq' & Hkq & _).
    destruct (scan_stored (array t) key1 q' Hcons Hq' Hkq) as (h' & Hh' & _ & Hhit).
    unfold hash1, table_size in Hh. rewrite Hh in Hh'. injection Hh' as <-.
    rewrite Hscan in Hhit. discriminate.
Qed.

Lemma first_key_listed t k :
  table_inv t ->
  k ∈ top_keys (array t) <-> exists key2 v, maps_to t (k, key2) v.
Proof.
  intros (Hcons & Hne & Hnc). rewrite elem_of_top_keys. split.
  - intros (lpt & i & Hi).
    destruct (lpt_is_empty_lookup lpt (Hne i k lpt Hi)) as (key2 & v & Hl).
    exists key2, v, lpt. split; [now exists i | exact Hl].
  - intros (key2 & v & lpt & He & _). now exists lpt.
Qed.

(** X20.  Deleting a pair that can be read and inserting it again with the
    value it had gives back what could be read before: when both operations
    complete, every pair reads exactly as it did at the start, and [keys()]
    lists the same first keys. *)
Theorem delitem_then_setitem_restores (t : DoubleKeyTable V)
    (key : string * string) (v : V) (fuel : nat) (t1 t2 : DoubleKeyTable V) :
  reachable t ->
  getitem key t = (t, Ok v) ->
  delitem fuel key t = Some (t1, Ok tt) ->
  setitem key v t1 = (t2, Ok tt) ->
  (forall key' v', getitem key' t2 = (t2, Ok v') <-> getitem key' t = (t, Ok v')) /\
  (forall k, k ∈ top_keys (array t2) <-> k ∈ top_keys (array t)).
Proof.
  intros Hreach Hget Hdel Hset.
  pose proof (reachable_inv t Hreach) as Hinv.
  destruct (delitem_result t fuel key t1 Hinv Hdel) as (Hinv1 & Hgone & Hothers1 & _).
  destruct (setitem_result t1 key v t2 Hinv1 Hset) as (Hinv2 & Hkey & Hothers2).
  apply (getitem_iff_maps_to t key v Hinv) in Hget.
  assert (Hmaps : forall key' v', maps_to t2 key' v' <-> maps_to t key' v').
  { intros key' v'. destruct (decide (key' = key)) as [->|Hne].
    - destruct Hkey as (lpt2 & He2 & Hl2). destruct Hget as (lpt & He & Hl).
      split.
      + intros (lpt' & He' & Hl').
        rewrite (has_entry_unique _ _ _ _ (proj1 (proj1 Hinv2)) He' He2), Hl2 in Hl'.
        injection Hl' as <-. now exists lpt.
      + intros (lpt' & He' & Hl').
        rewrite (has_entry_unique _ _ _ _ (proj1 (proj1 Hinv)) He' He), Hl in Hl'.
        injection Hl' as <-. now exists lpt2.
    - rewrite (Hothers2 key' v' Hne). now apply Hothers1. }
  split.
  - intros key' v'.
    rewrite (getitem_iff_maps_to t2 key' v' Hinv2).
    rewrite (getitem_iff_maps_to t key' v' Hinv). apply Hmaps.
  - intros k. rewrite (first_key_listed t2 k Hinv2), (first_key_listed t k Hinv).
    split; intros (key2 & v' & Hv); exists key2, v'; now apply Hmaps.
Qed.

End ProbeAndRoundTrip.

Lemma probe_with_second_key_witness :
  exists p q lpt,
    Both 2 1 = Both p q /\ 0 <= p < table_size scenario_start /\
    array (linear_probe "Bob" (Some "Eve") true scenario_start).1 !! Z.to_nat p
    = Some (Some ("Bob", lpt)) /\
    lpt_linear_probe "Eve" true lpt = Ok q /\
    0 <= q < lpt_table_size lpt /\
    (((linear_probe "Bob" (Some "Eve") true scenario_start).1 = scenario_start /\
      array scenario_start !! Z.to_nat p = Some (Some ("Bob", lpt))) \/
     (true = true /\ free_at (array scenario_start) p /\
      lpt_new (internal_sizes scenario_start) = Ok lpt /\
      (linear_probe "Bob" (Some "Eve") true scenario_start).1
      = set_array (<[Z.to_nat p := Some ("Bob", lpt)]> (array scenario_start))
          scenario_start /\
      (probe_consistent (array scenario_start) ->
       "Bob" ∉ top_keys (array scenario_start)))).
Proof.
  apply (probe_with_second_key scenario_start "Bob" "Eve" true
           (linear_probe "Bob" (Some "Eve") true scenario_start).1 (Both 2 1)).
  vm_compute. reflexivity.
Defined.

Lemma delitem_then_setitem_restores_witness :
  (forall key' v',
     getitem key' (setitem ("Amy", "Ben") 2 scenario_without_amy).1
     = ((setitem ("Amy", "Ben") 2 scenario_without_amy).1, Ok v') <->
     getitem key' scenario_table = (scenario_table, Ok v')) /\
  (forall k,
     k ∈ top_keys (array (setitem ("Amy", "Ben") 2 scenario_without_amy).1) <->
     k ∈ top_keys (array scenario_table)).
Proof.
  apply (delitem_then_setitem_restores scenario_table ("Amy", "Ben") 2 25
           scenario_without_amy (setitem ("Amy", "Ben") 2 scenario_without_amy).1).
  - reach_scenario.
  - vm_compute. reflexivity.
  - vm_compute. reflexivity.
  - vm_compute. reflexivity.
Defined.
